(** * TI-99 keyboard to USB: the matrix-scan firmware [tiarduino.ino]

    A shallow embedding of the sketch and the properties of its scan
    cycle.  The sketch talks to three things: the GPIO pins of the
    ATmega32U4 (Arduino Micro), the USB keyboard sink ([Keyboard]) and
    the serial diagnostic line.  Every call to one of them is recorded
    as an [event]; the level a [digitalRead] returns is supplied by a
    [world], a function of everything that happened so far and of the
    current pin configuration. *)

From Stdlib Require Import String Ascii ZArith Bool Arith Lia List.
Import ListNotations.
Open Scope Z_scope.

(** ** Constants of the sketch *)

Definition ROWS : nat := 6.
Definition COLS : nat := 8.

Definition SHIFT : Z := 5.
Definition CTRL : Z := 6.
Definition FCTN : Z := 7.

Definition KBD_DELAY : Z := 150.
Definition RPT_DELAY : Z := 50.

Definition HIGH : bool := true.
Definition LOW : bool := false.

Definition enablePin : Z := 13.
Definition alphaLockRowPin : Z := 7.

(** Analog pin aliases of the Arduino Micro board variant
    ([pins_arduino.h], not part of the sketch). *)
Definition A0 : Z := 18.
Definition A1 : Z := 19.
Definition A2 : Z := 20.
Definition A3 : Z := 21.

(** Key codes of [Keyboard.h] (not part of the sketch). *)
Definition KEY_LEFT_CTRL : Z := 128.
Definition KEY_LEFT_SHIFT : Z := 129.
Definition KEY_LEFT_ALT : Z := 130.
Definition KEY_CAPS_LOCK : Z := 193.

Definition ch (c : ascii) : Z := Z.of_N (N_of_ascii c).

Definition keys : list (list Z) :=
  [ [ch "/"; ch ";"; ch "p"; ch "0"; ch "z"; ch "a"; ch "q"; ch "1"];
    [ch "."; ch "l"; ch "o"; ch "9"; ch "x"; ch "s"; ch "w"; ch "2"];
    [ch ","; ch "k"; ch "i"; ch "8"; ch "c"; ch "d"; ch "e"; ch "3"];
    [ch "m"; ch "j"; ch "u"; ch "7"; ch "v"; ch "f"; ch "r"; ch "4"];
    [ch "n"; ch "h"; ch "y"; ch "6"; ch "b"; ch "g"; ch "t"; ch "5"];
    [ch "="; ch " "; 10; 0; 0; 0; 0; 0] ].

Definition columns : list nat := [8; 8; 8; 8; 8; 3]%nat.

Definition rowPins : list Z := [9; A1; A2; A3; 10; A0].
Definition colPins : list Z := [6; 5; 2; 3; 12; 4; 11; 8].

(** Array accesses.  Every index the sketch uses is in range, so the
    default of [nth] is never returned. *)
Definition rowPin (r : nat) : Z := nth r rowPins 0.
Definition colPin (c : nat) : Z := nth c colPins 0.
Definition columnsOf (r : nat) : nat := nth r columns 0%nat.
Definition keyAt (r c : nat) : Z := nth c (nth r keys []) 0.

(** ** Machine integers

    On the ATmega32U4 [int] has 16 bits and [unsigned long] 32.  The
    increment of [count] is written with the two's-complement
    wrap-around the hardware performs (in C the overflow of a signed
    [int] is undefined); [idlecount] wraps modulo 2^32. *)

Definition wrap_int (z : Z) : Z := (z + 32768) mod 65536 - 32768.
Definition wrap_ulong (z : Z) : Z := z mod 4294967296.
Definition to_uint8 (z : Z) : Z := z mod 256.

(** ** Pins, events and the machine state *)

Inductive pin_mode := INPUT | OUTPUT | INPUT_PULLUP.

(** Direction and output latch of one pin (the DDR and PORT bits). *)
Record pin_cfg := { pmode : pin_mode; plevel : bool }.

Definition pin_map := Z -> pin_cfg.

Inductive event :=
| EPinMode (pin : Z) (m : pin_mode)
| EDigitalWrite (pin : Z) (v : bool)
| EDigitalRead (pin : Z) (v : bool)
| EKbdBegin
| EKbdPress (k : Z)
| EKbdRelease (k : Z)
| EKbdReleaseAll
| EDelay (ms : Z)
| ESerialBegin (baud : Z)
| ESerialPrintln (s : string).

(** The globals of the sketch, with the function-local [static]
    [alphaLock] of [checkAlphaLock]. *)
Record vars := {
  previousKey : Z;
  currentKey : Z;
  count : Z;
  idlecount : Z;
  alphaLock : Z
}.

Record machine := { globals : vars; pins : pin_map }.

Definition init_vars : vars :=
  {| previousKey := 0; currentKey := 0; count := 0; idlecount := 0;
     alphaLock := 0 |}.

Definition set_previousKey (v : Z) (g : vars) : vars :=
  {| previousKey := v; currentKey := currentKey g; count := count g;
     idlecount := idlecount g; alphaLock := alphaLock g |}.
Definition set_currentKey (v : Z) (g : vars) : vars :=
  {| previousKey := previousKey g; currentKey := v; count := count g;
     idlecount := idlecount g; alphaLock := alphaLock g |}.
Definition set_count (v : Z) (g : vars) : vars :=
  {| previousKey := previousKey g; currentKey := currentKey g; count := v;
     idlecount := idlecount g; alphaLock := alphaLock g |}.
Definition set_idlecount (v : Z) (g : vars) : vars :=
  {| previousKey := previousKey g; currentKey := currentKey g;
     count := count g; idlecount := v; alphaLock := alphaLock g |}.
Definition set_alphaLock (v : Z) (g : vars) : vars :=
  {| previousKey := previousKey g; currentKey := currentKey g;
     count := count g; idlecount := idlecount g; alphaLock := v |}.

(** Effect of the two pin-configuring calls on one pin: [pinMode]
    to [INPUT] clears the latch, to [INPUT_PULLUP] sets it, to [OUTPUT]
    keeps it; [digitalWrite] sets the latch. *)
Definition cfg_mode (m : pin_mode) (c : pin_cfg) : pin_cfg :=
  match m with
  | INPUT => {| pmode := INPUT; plevel := LOW |}
  | INPUT_PULLUP => {| pmode := INPUT_PULLUP; plevel := HIGH |}
  | OUTPUT => {| pmode := OUTPUT; plevel := plevel c |}
  end.

Definition cfg_write (v : bool) (c : pin_cfg) : pin_cfg :=
  {| pmode := pmode c; plevel := v |}.

Definition upd (p : Z) (f : pin_cfg -> pin_cfg) (ps : pin_map) : pin_map :=
  fun q => if q =? p then f (ps q) else ps q.

(** What one event does to the pins. *)
Definition apply_event (ps : pin_map) (e : event) : pin_map :=
  match e with
  | EPinMode p m => upd p (cfg_mode m) ps
  | EDigitalWrite p v => upd p (cfg_write v) ps
  | _ => ps
  end.

Definition replay (tr : list event) (ps : pin_map) : pin_map :=
  fold_left apply_event tr ps.

(** A line is driven when it is an output, asserted when driven low. *)
Definition driven (c : pin_cfg) : bool :=
  match pmode c with OUTPUT => true | _ => false end.
Definition asserted (c : pin_cfg) : bool := driven c && negb (plevel c).

(** ** The monad of the sketch

    A computation sees the world and the history of events so far, and
    returns a value, the new machine state and the events it added. *)

Definition world := list event -> pin_map -> Z -> bool.

Record res (A : Type) := mkRes { val : A; st : machine; out : list event }.
Arguments mkRes {A}.
Arguments val {A}.
Arguments st {A}.
Arguments out {A}.

Definition M (A : Type) := world -> list event -> machine -> res A.

Definition ret {A} (a : A) : M A := fun _ _ s => mkRes a s [].

Definition bind {A B} (m : M A) (f : A -> M B) : M B :=
  fun w h s =>
    let r1 := m w h s in
    let r2 := f (val r1) w (h ++ out r1) (st r1) in
    mkRes (val r2) (st r2) (out r1 ++ out r2).

Declare Scope sketch_scope.
Delimit Scope sketch_scope with sketch.
Notation "x <- m ;; k" := (bind m (fun x => k))
  (at level 61, m at next level, right associativity) : sketch_scope.
Notation "m ;; k" := (bind m (fun _ => k))
  (at level 61, right associativity) : sketch_scope.
Open Scope sketch_scope.

Definition get : M vars := fun _ _ s => mkRes (globals s) s [].
Definition modify (f : vars -> vars) : M unit :=
  fun _ _ s => mkRes tt {| globals := f (globals s); pins := pins s |} [].
Definition emit (e : event) : M unit :=
  fun _ _ s =>
    mkRes tt {| globals := globals s; pins := apply_event (pins s) e |} [e].

(** *** The Arduino calls *)

Definition pinMode (pin : Z) (m : pin_mode) : M unit := emit (EPinMode pin m).
Definition digitalWrite (pin : Z) (v : bool) : M unit :=
  emit (EDigitalWrite pin v).
Definition digitalRead (pin : Z) : M bool :=
  fun w h s => let v := w h (pins s) pin in mkRes v s [EDigitalRead pin v].
Definition delay (ms : Z) : M unit := emit (EDelay ms).
Definition Serial_begin (baud : Z) : M unit := emit (ESerialBegin baud).
Definition Serial_println (s : string) : M unit := emit (ESerialPrintln s).
Definition Keyboard_begin : M unit := emit EKbdBegin.
Definition Keyboard_press (k : Z) : M unit := emit (EKbdPress (to_uint8 k)).
Definition Keyboard_release (k : Z) : M unit :=
  emit (EKbdRelease (to_uint8 k)).
Definition Keyboard_releaseAll : M unit := emit EKbdReleaseAll.

(** ** The sketch *)

(** [for (j = from; j < from + n; j++) body(j)], by recursion on the
    number [n] of iterations left. *)
Fixpoint for_range (n from : nat) (body : nat -> M unit) : M unit :=
  match n with
  | O => ret tt
  | S n' => body from ;; for_range n' (S from) body
  end.

Definition setup_pins : M unit :=
  pinMode enablePin INPUT_PULLUP ;;
  for_range COLS 0%nat (fun i => pinMode (colPin i) INPUT_PULLUP) ;;
  for_range ROWS 0%nat (fun i => pinMode (rowPin i) INPUT) ;;
  pinMode alphaLockRowPin INPUT_PULLUP.

Definition scan_row (previousRow currentRow : nat) : M unit :=
  pinMode (rowPin previousRow) INPUT ;;
  pinMode (rowPin currentRow) OUTPUT ;;
  digitalWrite (rowPin currentRow) LOW.

Definition disable_lastrow : M unit := pinMode (rowPin (ROWS - 1)) INPUT.

Definition checkAlphaLock : M unit :=
  disable_lastrow ;;
  pinMode alphaLockRowPin OUTPUT ;;
  digitalWrite alphaLockRowPin LOW ;;
  alphaLockOff <- digitalRead (colPin 7) ;;
  pinMode alphaLockRowPin INPUT_PULLUP ;;
  g <- get ;;
  if negb alphaLockOff && (alphaLock g =? 0) then
    modify (set_alphaLock 1) ;;
    Keyboard_press KEY_CAPS_LOCK ;;
    Keyboard_release KEY_CAPS_LOCK ;;
    Serial_println "alphaLock on"
  else if alphaLockOff && negb (alphaLock g =? 0) then
    modify (set_alphaLock 0) ;;
    Keyboard_press KEY_CAPS_LOCK ;;
    Keyboard_release KEY_CAPS_LOCK ;;
    Serial_println "alphaLock off"
  else ret tt.

Definition modifierPressed : M Z :=
  shift <- digitalRead (colPin (Z.to_nat SHIFT)) ;;
  if negb shift then ret SHIFT
  else
    ctrl <- digitalRead (colPin (Z.to_nat CTRL)) ;;
    if negb ctrl then ret CTRL
    else
      fctn <- digitalRead (colPin (Z.to_nat FCTN)) ;;
      if negb fctn then ret FCTN else ret 0.

Definition pressModifier (modifier : Z) : M unit :=
  if modifier =? SHIFT then Keyboard_press KEY_LEFT_SHIFT
  else if modifier =? CTRL then Keyboard_press KEY_LEFT_CTRL
  else if modifier =? FCTN then Keyboard_press KEY_LEFT_ALT
  else ret tt.

Definition setup : M unit :=
  setup_pins ;;
  pinMode (rowPin (ROWS - 1)) OUTPUT ;;
  digitalWrite (rowPin (ROWS - 1)) LOW ;;
  Keyboard_begin ;;
  Serial_begin 9600.

(** The statement executed for column [j] of row [i]: the body of the
    inner [for] of [loop]. *)
Definition scan_cell (modifier : Z) (i j : nat) : M unit :=
  level <- digitalRead (colPin j) ;;
  if negb level then
    modify (set_currentKey (keyAt i j)) ;;
    g <- get ;;
    (if negb (currentKey g =? previousKey g) || (10000 <=? idlecount g) then
       (if negb (modifier =? 0) then pressModifier modifier else ret tt) ;;
       Keyboard_press (currentKey g) ;;
       delay KBD_DELAY ;;
       modify (set_count 0) ;;
       modify (set_idlecount 0) ;;
       Serial_println "Different key or idlecount timeout"
     else
       modify (fun g => set_count (wrap_int (count g + 1)) g) ;;
       g' <- get ;;
       if 150 <? count g' then
         (if negb (modifier =? 0) then pressModifier modifier else ret tt) ;;
         Keyboard_press (currentKey g') ;;
         delay RPT_DELAY ;;
         modify (set_idlecount 0) ;;
         Serial_println "Key repeat"
       else ret tt) ;;
    Keyboard_releaseAll ;;
    modify (fun g => set_previousKey (currentKey g) g)
  else
    modify (fun g => set_idlecount (wrap_ulong (idlecount g + 1)) g).

(** The outer [for] of [loop] with [n] rows left, the next row being
    [i]; [previousRow] is the local of that name. *)
Fixpoint scan_rows (n i previousRow : nat) (modifier : Z) : M unit :=
  match n with
  | O => ret tt
  | S n' =>
      scan_row previousRow i ;;
      for_range (columnsOf i) 0%nat (scan_cell modifier i) ;;
      scan_rows n' (S i) i modifier
  end.

Definition loop : M unit :=
  enableState <- digitalRead enablePin ;;
  let previousRow := (ROWS - 1)%nat in
  if Bool.eqb enableState HIGH then
    modifier <- modifierPressed ;;
    checkAlphaLock ;;
    scan_rows ROWS 0%nat previousRow modifier
  else ret tt.

(** ** Vocabulary of the properties *)

(** Calls that reach the USB keyboard sink. *)
Definition is_sink (e : event) : bool :=
  match e with
  | EKbdBegin | EKbdPress _ | EKbdRelease _ | EKbdReleaseAll => true
  | _ => false
  end.

Definition sink (tr : list event) : list event := filter is_sink tr.

(** The keys the sink holds down, as a set kept in a list. *)
Definition sink_step (held : list Z) (e : event) : list Z :=
  match e with
  | EKbdPress k => if existsb (Z.eqb k) held then held else k :: held
  | EKbdRelease k => filter (fun x => negb (x =? k)) held
  | EKbdReleaseAll => []
  | _ => held
  end.

Definition held_after (tr : list event) (held : list Z) : list Z :=
  fold_left sink_step tr held.

(** The hold event of a detected modifier. *)
Definition modifier_hold (modifier : Z) : list event :=
  if modifier =? SHIFT then [EKbdPress KEY_LEFT_SHIFT]
  else if modifier =? CTRL then [EKbdPress KEY_LEFT_CTRL]
  else if modifier =? FCTN then [EKbdPress KEY_LEFT_ALT]
  else [].

(** The stored lock state as a boolean. *)
Definition lockAsserted (g : vars) : bool := negb (alphaLock g =? 0).

(** What [checkAlphaLock] does before it samples the lock column, and
    the level it then samples. *)
Definition lock_probe_prefix : list event :=
  [EPinMode (rowPin (ROWS - 1)) INPUT;
   EPinMode alphaLockRowPin OUTPUT;
   EDigitalWrite alphaLockRowPin LOW].

Definition lock_sample (w : world) (h : list event) (s : machine) : bool :=
  w (h ++ lock_probe_prefix) (replay lock_probe_prefix (pins s)) (colPin 7).

Definition caps_tap : list event :=
  [EKbdPress KEY_CAPS_LOCK; EKbdRelease KEY_CAPS_LOCK].

(** The modifier the priority order SHIFT > CTRL > FCTN selects when
    the modifier columns carry the levels [lv]: the first asserted one,
    [0] when there is none. *)
Definition first_asserted (lv : Z -> bool) : Z :=
  match find (fun m => negb (lv (colPin (Z.to_nat m)))) [SHIFT; CTRL; FCTN] with
  | Some m => m
  | None => 0
  end.

(** What processing an asserted cell with key [key] does to the
    globals and what it sends after the column read. *)
Definition cell_effect (modifier key : Z) (g : vars) : vars * list event :=
  if negb (key =? previousKey g) || (10000 <=? idlecount g) then
    ({| previousKey := key; currentKey := key; count := 0; idlecount := 0;
        alphaLock := alphaLock g |},
     modifier_hold modifier ++
     [EKbdPress (to_uint8 key); EDelay KBD_DELAY;
      ESerialPrintln "Different key or idlecount timeout"; EKbdReleaseAll])
  else if 150 <? wrap_int (count g + 1) then
    ({| previousKey := key; currentKey := key;
        count := wrap_int (count g + 1); idlecount := 0;
        alphaLock := alphaLock g |},
     modifier_hold modifier ++
     [EKbdPress (to_uint8 key); EDelay RPT_DELAY;
      ESerialPrintln "Key repeat"; EKbdReleaseAll])
  else
    ({| previousKey := key; currentKey := key;
        count := wrap_int (count g + 1); idlecount := idlecount g;
        alphaLock := alphaLock g |},
     [EKbdReleaseAll]).


(** The machine at power-on, before [setup]: no globals set, every pin a
    floating input. *)
Definition boot : machine :=
  {| globals := init_vars;
     pins := fun _ => {| pmode := INPUT; plevel := LOW |} |}.

(** Calls that configure or drive a pin. *)
Definition is_driver (e : event) : bool :=
  match e with
  | EPinMode _ _ | EDigitalWrite _ _ => true
  | _ => false
  end.

Definition drivers (tr : list event) : list event := filter is_driver tr.

(** Computations that leave the pins alone. *)
Definition passive (m : M unit) : Prop :=
  forall w h s, pins (st (m w h s)) = pins s /\ drivers (out (m w h s)) = [].

(** Sink calls together with the waits between them. *)
Definition is_timed (e : event) : bool :=
  match e with
  | EKbdBegin | EKbdPress _ | EKbdRelease _ | EKbdReleaseAll | EDelay _ => true
  | _ => false
  end.

Definition timed (tr : list event) : list event := filter is_timed tr.

(** The driver calls of one row activation and of a whole matrix pass
    whose first activation deactivates [previousRow]. *)
Definition row_drivers (previousRow currentRow : nat) : list event :=
  [EPinMode (rowPin previousRow) INPUT;
   EPinMode (rowPin currentRow) OUTPUT;
   EDigitalWrite (rowPin currentRow) LOW].

Fixpoint pass_drivers (n i previousRow : nat) : list event :=
  match n with
  | O => []
  | S n' => row_drivers previousRow i ++ pass_drivers n' (S i) i
  end.

(** The driver calls of an enabled cycle: the lock probe, then the pass. *)
Definition cycle_drivers : list event :=
  lock_probe_prefix ++ [EPinMode alphaLockRowPin INPUT_PULLUP]
  ++ pass_drivers ROWS 0 (ROWS - 1).

(** The lines that share the columns: the six rows and the lock line. *)
Definition select_lines : list Z := rowPins ++ [alphaLockRowPin].

Definition driven_lines (ps : pin_map) : list Z :=
  filter (fun p => driven (ps p)) select_lines.
Definition asserted_lines (ps : pin_map) : list Z :=
  filter (fun p => asserted (ps p)) select_lines.

(** No row but [r] is driven, and neither is the lock line. *)
Definition idle_but (ps : pin_map) (r : nat) : Prop :=
  (forall r', (r' < ROWS)%nat -> r' <> r -> driven (ps (rowPin r')) = false)
  /\ driven (ps alphaLockRowPin) = false.

(** Row [r] is asserted and is the only driven line. *)
Definition row_active (ps : pin_map) (r : nat) : Prop :=
  asserted (ps (rowPin r)) = true /\ idle_but ps r.

(** The three stages of an enabled cycle that starts in state [s] after
    history [h]: modifier detection, lock probe, matrix pass. *)
Definition stage_modifier (w : world) (h : list event) (s : machine) : res Z :=
  modifierPressed w (h ++ [EDigitalRead enablePin HIGH]) s.

Definition stage_lock (w : world) (h : list event) (s : machine) : res unit :=
  checkAlphaLock w
    (h ++ [EDigitalRead enablePin HIGH] ++ out (stage_modifier w h s)) s.

Definition stage_scan (w : world) (h : list event) (s : machine) : res unit :=
  scan_rows ROWS 0 (ROWS - 1) (val (stage_modifier w h s)) w
    (h ++ [EDigitalRead enablePin HIGH] ++ out (stage_modifier w h s)
       ++ out (stage_lock w h s))
    (st (stage_lock w h s)).

(** The machine after [setup]. *)
Definition powered_up : machine := st (setup (fun _ _ _ => HIGH) [] boot).

(** Pin [pin] is made an output, respectively a floating input. *)
Definition is_activation (pin : Z) (e : event) : bool :=
  match e with
  | EPinMode p OUTPUT => p =? pin
  | _ => false
  end.

Definition is_deactivation (pin : Z) (e : event) : bool :=
  match e with
  | EPinMode p INPUT => p =? pin
  | _ => false
  end.

(** In [tr] an event satisfying [p] comes before the first one
    satisfying [q], and there is one satisfying [q]. *)
Fixpoint occurs_before (p q : event -> bool) (tr : list event) : bool :=
  match tr with
  | [] => false
  | e :: tr' =>
      if q e then false
      else if p e then existsb q tr'
      else occurs_before p q tr'
  end.

(** The lock line is driven only after every row of the pass has been
    activated. *)
Definition lock_probe_after_pass (tr : list event) : Prop :=
  forall r, (r < ROWS)%nat ->
    occurs_before (is_activation (rowPin r)) (is_activation alphaLockRowPin) tr
    = true.

(** The lock line is driven before any row of the pass is activated. *)
Definition lock_probe_before_pass (tr : list event) : Prop :=
  forall r, (r < ROWS)%nat ->
    occurs_before (is_activation alphaLockRowPin) (is_activation (rowPin r)) tr
    = true.

(** Which pins are outputs, followed along a trace. *)
Definition is_output (m : pin_mode) : bool :=
  match m with OUTPUT => true | _ => false end.

Definition track (d : Z -> bool) (e : event) : Z -> bool :=
  match e with
  | EPinMode p m => fun q => if q =? p then is_output m else d q
  | _ => d
  end.

(** ** The pass as a function of the switches

    [matrix_reads w h0 closed]: from history [h0] on, while exactly row
    [r] is active, column [c] of a scanned cell reads low exactly when
    switch [(r, c)] is closed; the world is free everywhere else (enable
    line, modifier columns of the last row, lock column). *)
Definition matrix_reads (w : world) (h0 : list event)
    (closed : nat -> nat -> bool) : Prop :=
  forall h ps r c,
    (r < ROWS)%nat -> (c < columnsOf r)%nat -> row_active ps r ->
    w (h0 ++ h) ps (colPin c) = negb (closed r c).

(** One not-asserted sample. *)
Definition idle_step (g : vars) : vars :=
  set_idlecount (wrap_ulong (idlecount g + 1)) g.

(** Globals and sink calls (with waits) of one cell, of a list of cells. *)
Definition cell_spec (closed : nat -> nat -> bool) (modifier : Z)
    (r c : nat) (g : vars) : vars * list event :=
  if closed r c then
    (fst (cell_effect modifier (keyAt r c) g),
     timed (snd (cell_effect modifier (keyAt r c) g)))
  else (idle_step g, []).

Fixpoint cells_spec (closed : nat -> nat -> bool) (modifier : Z)
    (cells : list (nat * nat)) (g : vars) : vars * list event :=
  match cells with
  | [] => (g, [])
  | (r, c) :: rest =>
      let a := cell_spec closed modifier r c g in
      let b := cells_spec closed modifier rest (fst a) in
      (fst b, snd a ++ snd b)
  end.

(** The cells of row [r] from column [from], and of [n] rows from row
    [i], in scan order. *)
Definition row_cells (r from n : nat) : list (nat * nat) :=
  map (pair r) (seq from n).

Definition pass_cells (i n : nat) : list (nat * nat) :=
  flat_map (fun r => row_cells r 0 (columnsOf r)) (seq i n).

(** [n] not-asserted samples in a row. *)
Fixpoint idle_steps (n : nat) (g : vars) : vars :=
  match n with
  | O => g
  | S n' => idle_steps n' (idle_step g)
  end.

(** A keyboard on which exactly the switch at row [i0], column [j0] is
    closed: that column reads low while that row is asserted.  The enable
    line reads high. *)
Definition single_key_world (i0 j0 : nat) : world :=
  fun _ ps p => negb ((p =? colPin j0) && asserted (ps (rowPin i0))).

(** [loop] called [n] times in a row, as the Arduino core does, and the
    call after those. *)
Fixpoint run_cycles (n : nat) (w : world) (h : list event) (s : machine)
  : res unit :=
  match n with
  | O => mkRes tt s []
  | S n' =>
      let r := run_cycles n' w h s in
      let c := loop w (h ++ out r) (st r) in
      mkRes tt (st c) (out r ++ out c)
  end.

Definition nth_cycle (n : nat) (w : world) (h : list event) (s : machine)
  : res unit :=
  loop w (h ++ out (run_cycles n w h s)) (st (run_cycles n w h s)).

(** The globals while key [k] is being held, [n] cycles after its fresh
    press. *)
Definition held_inv (k : Z) (n : nat) (g : vars) : Prop :=
  previousKey g = k /\ count g = Z.of_nat n
  /\ 0 <= idlecount g <= 42 * (Z.of_nat n + 1).

(** Modifier detected in, and matrix pass of, the call after [n] calls. *)
Definition nth_modifier (n : nat) (w : world) (h : list event) (s : machine)
  : Z :=
  val (stage_modifier w (h ++ out (run_cycles n w h s))
         (st (run_cycles n w h s))).

Definition nth_scan (n : nat) (w : world) (h : list event) (s : machine)
  : res unit :=
  stage_scan w (h ++ out (run_cycles n w h s)) (st (run_cycles n w h s)).

Definition nth_lock (n : nat) (w : world) (h : list event) (s : machine)
  : res unit :=
  stage_lock w (h ++ out (run_cycles n w h s)) (st (run_cycles n w h s)).

(** ** Vocabulary of the further properties *)

(** The calls of [setup], in order. *)
Definition setup_events : list event :=
  [EPinMode enablePin INPUT_PULLUP]
  ++ map (fun c => EPinMode (colPin c) INPUT_PULLUP) (seq 0 COLS)
  ++ map (fun r => EPinMode (rowPin r) INPUT) (seq 0 ROWS)
  ++ [EPinMode alphaLockRowPin INPUT_PULLUP;
      EPinMode (rowPin (ROWS - 1)) OUTPUT;
      EDigitalWrite (rowPin (ROWS - 1)) LOW;
      EKbdBegin;
      ESerialBegin 9600].

(** The pin an event configures or drives, if any. *)
Definition target (e : event) : option Z :=
  match e with
  | EPinMode p _ | EDigitalWrite p _ => Some p
  | _ => None
  end.

(** The pins the sketch uses. *)
Definition used_pins : list Z :=
  enablePin :: alphaLockRowPin :: colPins ++ rowPins.

(** Cell [(r, c)] is one the pass samples. *)
Definition scanned (r c : nat) : Prop :=
  (r < ROWS)%nat /\ (c < columnsOf r)%nat.

(** The key codes the sketch sends that are not in the matrix table. *)
Definition special_keys : list Z :=
  [KEY_LEFT_SHIFT; KEY_LEFT_CTRL; KEY_LEFT_ALT; KEY_CAPS_LOCK].

Fixpoint nodupb (l : list Z) : bool :=
  match l with
  | [] => true
  | x :: l' => negb (existsb (Z.eqb x) l') && nodupb l'
  end.

(** Well-formed globals: the lock flag is 0 or 1, the counters are in
    the range of their types, the two key variables agree, and they hold
    0 or the key of a scanned cell. *)
Definition globals_ok (g : vars) : Prop :=
  (alphaLock g = 0 \/ alphaLock g = 1)
  /\ 0 <= idlecount g < 4294967296
  /\ -32768 <= count g < 32768
  /\ previousKey g = currentKey g
  /\ (previousKey g = 0
      \/ exists r c, scanned r c /\ previousKey g = keyAt r c).

(** What [loop] may send to the keyboard: presses of table keys and of
    the four special keys, releaseAll(), and the release of caps lock. *)
Definition sendable (e : event) : Prop :=
  match e with
  | EKbdPress k =>
      In k special_keys \/ exists r c, scanned r c /\ k = keyAt r c
  | EKbdRelease k => k = KEY_CAPS_LOCK
  | EKbdBegin => False
  | _ => True
  end.

(** The pins read in a trace, and each read paired with the select lines
    that are driven when it is made, the trace being replayed from the
    pins [ps]. *)
Definition read_pins (tr : list event) : list Z :=
  flat_map (fun e => match e with EDigitalRead p _ => [p] | _ => [] end) tr.

Fixpoint read_contexts (tr : list event) (ps : pin_map)
  : list (Z * list Z) :=
  match tr with
  | [] => []
  | e :: tr' =>
      match e with
      | EDigitalRead p _ => [(p, driven_lines ps)]
      | _ => []
      end ++ read_contexts tr' (apply_event ps e)
  end.

(** The reads of a matrix pass: each scanned cell once, in scan order,
    its column read while its row is the one driven line. *)
Definition pass_reads : list (Z * list Z) :=
  map (fun rc => (colPin (snd rc), [rowPin (fst rc)])) (pass_cells 0 ROWS).

(** The globals while key [k] is repeating, [count] being [c]. *)
Definition repeat_inv (k : Z) (c : nat) (g : vars) : Prop :=
  previousKey g = k /\ count g = Z.of_nat c /\ 0 <= idlecount g <= 6342.

(** The keys of the closed cells among [cells], in scan order; what a
    fresh press of each of them sends; and a list in which every key
    differs from the one before it, [prev] coming first. *)
Definition closed_keys (closed : nat -> nat -> bool)
    (cells : list (nat * nat)) : list Z :=
  map (fun rc => keyAt (fst rc) (snd rc))
    (filter (fun rc => closed (fst rc) (snd rc)) cells).

Definition fresh_presses (modifier : Z) (ks : list Z) : list event :=
  flat_map
    (fun k => modifier_hold modifier
              ++ [EKbdPress k; EDelay KBD_DELAY; EKbdReleaseAll]) ks.

Fixpoint alternating (prev : Z) (ks : list Z) : Prop :=
  match ks with
  | [] => True
  | k :: ks' => prev <> k /\ alternating k ks'
  end.

(** A keyboard on which exactly the switches at [(i1, j1)] and
    [(i2, j2)] are closed. *)
Definition two_key_world (i1 j1 i2 j2 : nat) : world :=
  fun _ ps p =>
    negb ((p =? colPin j1) && asserted (ps (rowPin i1))
          || (p =? colPin j2) && asserted (ps (rowPin i2))).

Definition two_keys_closed (i1 j1 i2 j2 : nat) (r c : nat) : bool :=
  (r =? i1)%nat && (c =? j1)%nat || (r =? i2)%nat && (c =? j2)%nat.


(** ** A cycle cut at a row or at a cell

    The matrix pass of [loop] is the outer [for] from row 0 with
    [previousRow = ROWS - 1]; [previousRow] is the row before the
    current one from row 1 on. *)
Definition previous_row (i : nat) : nat :=
  match i with
  | O => (ROWS - 1)%nat
  | S i' => i'
  end.

(** What the pass executes before it reaches column [j] of row [i]:
    rows 0..i-1 in full, the activation of row [i] and its columns
    0..j-1; and what it executes after that cell: the remaining columns
    of row [i] and the rows after it. *)
Definition pass_before (modifier : Z) (i j : nat) : M unit :=
  scan_rows i 0%nat (ROWS - 1)%nat modifier ;;
  scan_row (previous_row i) i ;;
  for_range j 0%nat (scan_cell modifier i).

Definition pass_after (modifier : Z) (i j : nat) : M unit :=
  for_range (columnsOf i - S j) (S j) (scan_cell modifier i) ;;
  scan_rows (ROWS - S i) (S i) i modifier.

(** The history at which the pass of an enabled cycle starts. *)
Definition pass_history (w : world) (h : list event) (s : machine)
  : list event :=
  h ++ [EDigitalRead enablePin HIGH] ++ out (stage_modifier w h s)
    ++ out (stage_lock w h s).

(** The run of the cycle's pass up to cell [(i, j)], the cell statement
    executed there with the modifier detected in this cycle, and the
    rest of the pass. *)
Definition cell_entry (w : world) (h : list event) (s : machine)
    (i j : nat) : res unit :=
  pass_before (val (stage_modifier w h s)) i j w (pass_history w h s)
    (st (stage_lock w h s)).

Definition cell_run (w : world) (h : list event) (s : machine)
    (i j : nat) : res unit :=
  scan_cell (val (stage_modifier w h s)) i j w
    (pass_history w h s ++ out (cell_entry w h s i j))
    (st (cell_entry w h s i j)).

Definition cell_rest (w : world) (h : list event) (s : machine)
    (i j : nat) : res unit :=
  pass_after (val (stage_modifier w h s)) i j w
    ((pass_history w h s ++ out (cell_entry w h s i j))
       ++ out (cell_run w h s i j))
    (st (cell_run w h s i j)).

(** The column loop of row [i] in the cycle, entered right after the
    activation of the row, and the rows after it. *)
Definition row_run (w : world) (h : list event) (s : machine) (i : nat)
  : res unit :=
  for_range (columnsOf i) 0%nat (scan_cell (val (stage_modifier w h s)) i) w
    (pass_history w h s ++ out (cell_entry w h s i 0))
    (st (cell_entry w h s i 0)).

Definition row_rest (w : world) (h : list event) (s : machine) (i : nat)
  : res unit :=
  scan_rows (ROWS - S i) (S i) i (val (stage_modifier w h s)) w
    ((pass_history w h s ++ out (cell_entry w h s i 0))
       ++ out (row_run w h s i))
    (st (row_run w h s i)).

(** The reads of columns [from .. from + n - 1], all high. *)
Definition high_reads (from n : nat) : list event :=
  map (fun c => EDigitalRead (colPin c) HIGH) (seq from n).

(** ** The idle counter read off the trace of a pass

    In a pass every [digitalRead] is a column sample and every wait is
    the wait of a fresh-press or repeat emission.  [idle_tally inc tr x]
    starts from [x], applies [inc] at every sample of [tr] that reads
    high and returns to 0 at every emission. *)
Definition idle_tally (inc : Z -> Z) (tr : list event) (x : Z) : Z :=
  fold_left
    (fun x e =>
       match e with
       | EDigitalRead _ true => inc x
       | EDelay _ => 0
       | _ => x
       end)
    tr x.

(** [idlecount] as the sketch keeps it, an [unsigned long]. *)
Definition counted_mod (tr : list event) (x : Z) : Z :=
  idle_tally (fun x => wrap_ulong (x + 1)) tr x.

(** The counter as the specification words it: the number of
    not-pressed samples since the last emission, nothing else ever
    returning it to 0. *)
Definition counted_samples (tr : list event) (x : Z) : Z :=
  idle_tally (fun x => x + 1) tr x.

Definition idle_count_as_worded (w : world) (h : list event) (s : machine)
  : Prop :=
  idlecount (globals (st (loop w h s)))
  = counted_samples (out (stage_scan w h s)) (idlecount (globals s)).

(** A keyboard with the switch at row [i0], column [j0] closed and the
    SHIFT key held: SHIFT sits on the last row, at column [SHIFT]. *)
Definition shifted_key_world (i0 j0 : nat) : world :=
  fun _ ps p =>
    negb ((p =? colPin j0) && asserted (ps (rowPin i0))
          || (p =? colPin (Z.to_nat SHIFT))
             && asserted (ps (rowPin (ROWS - 1)))).

(** A keyboard with no key down, and a machine with the globals that
    99882960 idle cycles from power-on, 43 samples each, lead to, and
    the pins as [setup] leaves them. *)
Definition quiet_world : world := fun _ _ _ => HIGH.

Definition long_idle : machine :=
  {| globals := set_idlecount (43 * 99882960) init_vars;
     pins := pins powered_up |}.
(** ** Basic facts *)

Lemma keyAt_ascii (i j : nat) :
  (i < ROWS)%nat -> (j < columnsOf i)%nat -> 0 < keyAt i j < 128.
Proof.
  intros Hi Hj.
  do 6 (destruct i as [|i];
        [ do 8 (destruct j as [|j];
                [ first [ exfalso; revert Hj; cbn; lia
                        | vm_compute; split; reflexivity ] | ]);
          exfalso; revert Hj; cbn; lia | ]).
  exfalso; revert Hi; unfold ROWS; lia.
Qed.

Lemma to_uint8_key (i j : nat) :
  (i < ROWS)%nat -> (j < columnsOf i)%nat -> to_uint8 (keyAt i j) = keyAt i j.
Proof.
  intros Hi Hj. unfold to_uint8.
  apply Z.mod_small. pose proof (keyAt_ascii i j Hi Hj). lia.
Qed.

(** ** The cell statement *)

Ltac run :=
  cbv beta iota zeta delta
    [scan_cell scan_row checkAlphaLock disable_lastrow modifierPressed
     pressModifier loop bind ret get modify emit pinMode digitalWrite
     digitalRead delay Serial_println Keyboard_press Keyboard_release
     Keyboard_releaseAll val st out LOW HIGH];
  cbn [globals pins app negb
       set_previousKey set_currentKey set_count set_idlecount set_alphaLock
       previousKey currentKey count idlecount alphaLock].

Ltac split_modifier m :=
  unfold modifier_hold;
  let E := fresh "E" in
  destruct (m =? 0) eqn:E;
  [ apply Z.eqb_eq in E; subst m; reflexivity
  | cbn [negb];
    destruct (m =? SHIFT); [ reflexivity | ];
    destruct (m =? CTRL); [ reflexivity | ];
    destruct (m =? FCTN); reflexivity ].

Section Cell.
Variables (w : world) (h : list event) (s : machine).
Variables (modifier : Z) (i j : nat).

(** A cell that reads not asserted only counts. *)
Lemma scan_cell_idle :
  w h (pins s) (colPin j) = HIGH ->
  scan_cell modifier i j w h s
  = mkRes tt
      {| globals :=
           set_idlecount (wrap_ulong (idlecount (globals s) + 1)) (globals s);
         pins := pins s |}
      [EDigitalRead (colPin j) HIGH].
Proof.
  intros Hr. unfold HIGH in Hr. run. rewrite Hr. reflexivity.
Qed.

(** A cell that reads asserted. *)
Lemma scan_cell_asserted :
  w h (pins s) (colPin j) = LOW ->
  scan_cell modifier i j w h s
  = mkRes tt
      {| globals := fst (cell_effect modifier (keyAt i j) (globals s));
         pins := pins s |}
      (EDigitalRead (colPin j) LOW
         :: snd (cell_effect modifier (keyAt i j) (globals s))).
Proof.
  intros Hr. unfold LOW in Hr. run. rewrite Hr. run. unfold cell_effect.
  destruct (negb (keyAt i j =? previousKey (globals s))
            || (10000 <=? idlecount (globals s))).
  - run. split_modifier modifier.
  - run. destruct (150 <? wrap_int (count (globals s) + 1)).
    + run. split_modifier modifier.
    + reflexivity.
Qed.
End Cell.

(** ** Fresh press at a cell *)

(** The cell statement at an asserted scanned cell whose key differs
    from [previousKey], or with [idlecount] at least 10000. *)
Lemma scan_cell_fresh (w : world) (h : list event) (s : machine)
    (modifier : Z) (i j : nat) :
  (i < ROWS)%nat -> (j < columnsOf i)%nat ->
  w h (pins s) (colPin j) = LOW ->
  keyAt i j <> previousKey (globals s) \/ 10000 <= idlecount (globals s) ->
  let r := scan_cell modifier i j w h s in
  out r = [EDigitalRead (colPin j) LOW] ++ modifier_hold modifier ++
          [EKbdPress (keyAt i j); EDelay KBD_DELAY;
           ESerialPrintln "Different key or idlecount timeout";
           EKbdReleaseAll]
  /\ count (globals (st r)) = 0
  /\ idlecount (globals (st r)) = 0
  /\ previousKey (globals (st r)) = keyAt i j.
Proof.
  intros Hi Hj Hr Hc r. subst r.
  rewrite (scan_cell_asserted w h s modifier i j Hr).
  unfold cell_effect.
  replace (negb (keyAt i j =? previousKey (globals s))
           || (10000 <=? idlecount (globals s))) with true.
  - cbn [fst snd out st globals count idlecount previousKey app].
    rewrite (to_uint8_key i j Hi Hj). auto.
  - symmetry. apply orb_true_iff. destruct Hc as [Hc | Hc].
    + left. apply negb_true_iff, Z.eqb_neq. exact Hc.
    + right. apply Z.leb_le. exact Hc.
Qed.

(** ** Release after every asserted cell (C9) *)

Lemma held_after_release_all (pre : list event) (held : list Z) :
  held_after (pre ++ [EKbdReleaseAll]) held = [].
Proof.
  unfold held_after. rewrite fold_left_app. reflexivity.
Qed.

Lemma cell_effect_ends_with_release (modifier key : Z) (g : vars) :
  exists pre, snd (cell_effect modifier key g) = pre ++ [EKbdReleaseAll].
Proof.
  unfold cell_effect.
  destruct (negb (key =? previousKey g) || (10000 <=? idlecount g)).
  - eexists (modifier_hold modifier ++ [_; _; _]).
    cbn [snd]. rewrite <- app_assoc. reflexivity.
  - destruct (150 <? wrap_int (count g + 1)).
    + eexists (modifier_hold modifier ++ [_; _; _]).
      cbn [snd]. rewrite <- app_assoc. reflexivity.
    + exists []. reflexivity.
Qed.

(** C9: every processing of an asserted cell ends with releaseAll(), also
    when the decision was a sustained hold below the repeat threshold and
    nothing was pressed; whatever the sink held before, it holds no key
    afterwards. *)
Theorem release_all_after_asserted_cell (w : world) (h : list event)
    (s : machine) (modifier : Z) (i j : nat) :
  w h (pins s) (colPin j) = LOW ->
  let r := scan_cell modifier i j w h s in
  (exists pre, out r = pre ++ [EKbdReleaseAll])
  /\ (forall held, held_after (out r) held = [])
  /\ (keyAt i j = previousKey (globals s) ->
      idlecount (globals s) < 10000 ->
      wrap_int (count (globals s) + 1) <= 150 ->
      sink (out r) = [EKbdReleaseAll]).
Proof.
  intros Hr r. subst r.
  rewrite (scan_cell_asserted w h s modifier i j Hr). cbn [out].
  destruct (cell_effect_ends_with_release modifier (keyAt i j) (globals s))
    as [pre Hpre].
  split; [| split].
  - exists (EDigitalRead (colPin j) LOW :: pre). rewrite Hpre. reflexivity.
  - intros held. rewrite Hpre.
    change (EDigitalRead (colPin j) LOW :: pre ++ [EKbdReleaseAll])
      with ((EDigitalRead (colPin j) LOW :: pre) ++ [EKbdReleaseAll]).
    apply held_after_release_all.
  - intros Hk Hidle Hcnt. unfold cell_effect.
    replace (negb (keyAt i j =? previousKey (globals s))
             || (10000 <=? idlecount (globals s))) with false.
    + replace (150 <? wrap_int (count (globals s) + 1)) with false.
      * reflexivity.
      * symmetry. apply Z.ltb_ge. exact Hcnt.
    + symmetry. apply orb_false_iff. split.
      * apply negb_false_iff, Z.eqb_eq. exact Hk.
      * apply Z.leb_gt. exact Hidle.
Qed.

Lemma release_all_after_asserted_cell_witness :
  let r := scan_cell CTRL 1 5 (fun _ _ _ => LOW) []
             {| globals := set_previousKey (ch "s") init_vars;
                pins := pins boot |} in
  (exists pre, out r = pre ++ [EKbdReleaseAll])
  /\ (forall held, held_after (out r) held = [])
  /\ (keyAt 1 5 = ch "s" -> 0 < 10000 -> wrap_int (0 + 1) <= 150 ->
      sink (out r) = [EKbdReleaseAll]).
Proof.
  apply (release_all_after_asserted_cell (fun _ _ _ => LOW) []
           {| globals := set_previousKey (ch "s") init_vars;
              pins := pins boot |} CTRL 1 5).
  reflexivity.
Defined.

(** ** Reads *)

Lemma bind_digitalRead {B} (pin : Z) (f : bool -> M B) w h s :
  bind (digitalRead pin) f w h s
  = mkRes (val (f (w h (pins s) pin) w
                  (h ++ [EDigitalRead pin (w h (pins s) pin)]) s))
          (st (f (w h (pins s) pin) w
                 (h ++ [EDigitalRead pin (w h (pins s) pin)]) s))
          (EDigitalRead pin (w h (pins s) pin)
             :: out (f (w h (pins s) pin) w
                       (h ++ [EDigitalRead pin (w h (pins s) pin)]) s)).
Proof. reflexivity. Qed.

(** ** The enable gate (C5) *)

Lemma loop_disabled (w : world) (h : list event) (s : machine) :
  w h (pins s) enablePin = LOW ->
  loop w h s = mkRes tt s [EDigitalRead enablePin LOW].
Proof.
  intros Hr. unfold loop. rewrite bind_digitalRead, Hr. reflexivity.
Qed.

(** C5: when the enable input reads deasserted, the cycle consists of
    that one read: nothing reaches the event sink and the machine state
    (with [previousKey], [count], [idlecount] and [alphaLock]) is the one
    the cycle started from. *)
Theorem disabled_cycle_is_silent (w : world) (h : list event) (s : machine) :
  w h (pins s) enablePin = LOW ->
  loop w h s = mkRes tt s [EDigitalRead enablePin LOW]
  /\ sink (out (loop w h s)) = [].
Proof.
  intros Hr. rewrite (loop_disabled w h s Hr). split; reflexivity.
Qed.

Lemma disabled_cycle_is_silent_witness :
  loop (fun _ _ _ => LOW) [] boot = mkRes tt boot [EDigitalRead enablePin LOW]
  /\ sink (out (loop (fun _ _ _ => LOW) [] boot)) = [].
Proof.
  apply (disabled_cycle_is_silent (fun _ _ _ => LOW) [] boot).
  reflexivity.
Defined.

(** ** The lock detector (C4) *)

(** What [checkAlphaLock] sends and stores. *)
Lemma checkAlphaLock_run (w : world) (h : list event) (s : machine) :
  let off := lock_sample w h s in
  let changed := xorb (negb off) (lockAsserted (globals s)) in
  checkAlphaLock w h s
  = mkRes tt
      {| globals := if changed
                    then set_alphaLock (if off then 0 else 1) (globals s)
                    else globals s;
         pins := replay (lock_probe_prefix
                           ++ [EPinMode alphaLockRowPin INPUT_PULLUP]) (pins s) |}
      (lock_probe_prefix
         ++ [EDigitalRead (colPin 7) off; EPinMode alphaLockRowPin INPUT_PULLUP]
         ++ (if changed
             then caps_tap
                  ++ [ESerialPrintln
                        (if negb off then "alphaLock on" else "alphaLock off")]
             else [])).
Proof.
  cbv zeta. unfold lock_sample, lockAsserted, lock_probe_prefix, replay.
  cbn [fold_left app]. run.
  change (ROWS - 1)%nat with 5%nat.
  rewrite <- !app_assoc. cbn [app].
  destruct (w _ _ (colPin 7)); destruct (alphaLock (globals s) =? 0);
    cbn [negb andb xorb]; run; reflexivity.
Qed.

(** C4: [checkAlphaLock] sends a caps-lock tap, press immediately
    followed by release, exactly when the sampled lock state differs
    from the stored one, and then stores the sampled state; otherwise it
    sends nothing and leaves the globals alone.  The other globals are
    never touched. *)
Theorem lock_edge_trigger (w : world) (h : list event) (s : machine) :
  let r := checkAlphaLock w h s in
  let off := lock_sample w h s in
  let sampled := negb off in
  let stored := lockAsserted (globals s) in
  out r = lock_probe_prefix
          ++ [EDigitalRead (colPin 7) off; EPinMode alphaLockRowPin INPUT_PULLUP]
          ++ (if xorb sampled stored
              then caps_tap
                   ++ [ESerialPrintln
                         (if sampled then "alphaLock on" else "alphaLock off")]
              else [])
  /\ sink (out r) = (if xorb sampled stored then caps_tap else [])
  /\ lockAsserted (globals (st r))
     = (if xorb sampled stored then sampled else stored)
  /\ (xorb sampled stored = false -> globals (st r) = globals s)
  /\ previousKey (globals (st r)) = previousKey (globals s)
  /\ currentKey (globals (st r)) = currentKey (globals s)
  /\ count (globals (st r)) = count (globals s)
  /\ idlecount (globals (st r)) = idlecount (globals s).
Proof.
  cbv zeta. rewrite checkAlphaLock_run. cbv zeta. cbn [out st globals].
  unfold lockAsserted.
  destruct (lock_sample w h s); destruct (alphaLock (globals s) =? 0) eqn:E;
    cbn [negb xorb]; repeat split; try reflexivity.
  all: try (cbn [set_alphaLock alphaLock]; rewrite ?E; reflexivity).
  all: try discriminate.
Qed.

(** ** The modifier detector (C6) *)

(** C6: whatever levels the three modifier columns carry during the
    detection, [modifierPressed] returns the first asserted modifier in
    the order SHIFT, CTRL, FCTN and [0] when none is asserted; it sends
    nothing and changes nothing.  With SHIFT and CTRL both asserted it
    returns SHIFT. *)
Theorem modifier_priority (w : world) (h : list event) (s : machine)
    (lv : Z -> bool) :
  (forall h' m, In m [SHIFT; CTRL; FCTN] ->
     w (h ++ h') (pins s) (colPin (Z.to_nat m)) = lv (colPin (Z.to_nat m))) ->
  let r := modifierPressed w h s in
  val r = first_asserted lv
  /\ st r = s
  /\ sink (out r) = []
  /\ (lv (colPin (Z.to_nat SHIFT)) = LOW -> val r = SHIFT)
  /\ (lv (colPin (Z.to_nat SHIFT)) = HIGH ->
      lv (colPin (Z.to_nat CTRL)) = LOW -> val r = CTRL)
  /\ (lv (colPin (Z.to_nat SHIFT)) = HIGH ->
      lv (colPin (Z.to_nat CTRL)) = HIGH ->
      lv (colPin (Z.to_nat FCTN)) = LOW -> val r = FCTN)
  /\ (lv (colPin (Z.to_nat SHIFT)) = HIGH ->
      lv (colPin (Z.to_nat CTRL)) = HIGH ->
      lv (colPin (Z.to_nat FCTN)) = HIGH -> val r = 0).
Proof.
  intros Hw. cbv zeta.
  assert (H5 := Hw [] SHIFT (or_introl eq_refl)).
  assert (H6 := fun h' => Hw h' CTRL (or_intror (or_introl eq_refl))).
  assert (H7 := fun h' => Hw h' FCTN (or_intror (or_intror (or_introl eq_refl)))).
  rewrite app_nil_r in H5.
  unfold modifierPressed, first_asserted. cbn [find].
  rewrite bind_digitalRead, H5. cbn [val st out].
  destruct (lv (colPin (Z.to_nat SHIFT))); cbn [negb].
  2: { cbv [ret val st out sink filter is_sink LOW HIGH].
       repeat split; intros; try reflexivity; discriminate. }
  rewrite bind_digitalRead, H6. cbn [val st out].
  destruct (lv (colPin (Z.to_nat CTRL))); cbn [negb].
  2: { cbv [ret val st out sink filter is_sink LOW HIGH].
       repeat split; intros; try reflexivity; discriminate. }
  rewrite bind_digitalRead, <- app_assoc, H7. cbn [val st out].
  destruct (lv (colPin (Z.to_nat FCTN))); cbn [negb];
    cbv [ret val st out sink filter is_sink LOW HIGH];
    repeat split; intros; try reflexivity; discriminate.
Qed.

Lemma modifier_priority_witness :
  val (modifierPressed (fun _ _ p => negb ((p =? 4) || (p =? 11))) [] boot)
  = SHIFT.
Proof.
  apply (modifier_priority (fun _ _ p => negb ((p =? 4) || (p =? 11))) [] boot
           (fun p => negb ((p =? 4) || (p =? 11)))).
  - intros h' m Hm. reflexivity.
  - reflexivity.
Defined.


(** ** Pins and the trace *)

Lemma replay_app (t1 t2 : list event) (ps : pin_map) :
  replay (t1 ++ t2) ps = replay t2 (replay t1 ps).
Proof. unfold replay. apply fold_left_app. Qed.

Lemma apply_event_passive (e : event) (ps : pin_map) :
  is_driver e = false -> apply_event ps e = ps.
Proof. destruct e; cbn; intros H; try discriminate; reflexivity. Qed.

Lemma replay_drivers (tr : list event) (ps : pin_map) :
  replay (drivers tr) ps = replay tr ps.
Proof.
  revert ps. induction tr as [|e tr IH]; intros ps; [reflexivity|].
  unfold drivers, replay in *. cbn [filter fold_left].
  destruct (is_driver e) eqn:E.
  - cbn [fold_left]. apply IH.
  - rewrite (apply_event_passive e ps E). apply IH.
Qed.

Lemma drivers_app (t1 t2 : list event) :
  drivers (t1 ++ t2) = drivers t1 ++ drivers t2.
Proof. apply filter_app. Qed.

Lemma timed_app (t1 t2 : list event) :
  timed (t1 ++ t2) = timed t1 ++ timed t2.
Proof. apply filter_app. Qed.

Lemma sink_timed (tr : list event) : sink (timed tr) = sink tr.
Proof.
  induction tr as [|e tr IH]; [reflexivity|].
  unfold sink, timed in *. cbn [filter].
  destruct e; cbn [is_timed is_sink filter]; rewrite ?IH; reflexivity.
Qed.

Lemma drivers_firstn (n : nat) (tr : list event) :
  exists k, drivers (firstn n tr) = firstn k (drivers tr).
Proof.
  revert n. induction tr as [|e tr IH]; intros n.
  - exists 0%nat. destruct n; reflexivity.
  - destruct n as [|n].
    + exists 0%nat. reflexivity.
    + destruct (IH n) as [k Hk]. cbn [firstn]. unfold drivers in *.
      cbn [filter]. destruct (is_driver e).
      * exists (S k). cbn [firstn]. rewrite Hk. reflexivity.
      * exists k. exact Hk.
Qed.

Lemma modifier_hold_passive (modifier : Z) :
  drivers (modifier_hold modifier) = [].
Proof.
  unfold modifier_hold.
  destruct (modifier =? SHIFT); [reflexivity|].
  destruct (modifier =? CTRL); [reflexivity|].
  destruct (modifier =? FCTN); reflexivity.
Qed.

Lemma cell_effect_passive (modifier key : Z) (g : vars) :
  drivers (snd (cell_effect modifier key g)) = [].
Proof.
  unfold cell_effect.
  destruct (negb (key =? previousKey g) || (10000 <=? idlecount g)).
  - cbn [snd]. rewrite drivers_app, modifier_hold_passive. reflexivity.
  - destruct (150 <? wrap_int (count g + 1)); cbn [snd].
    + rewrite drivers_app, modifier_hold_passive. reflexivity.
    + reflexivity.
Qed.

Lemma scan_cell_passive (modifier : Z) (i j : nat) :
  passive (scan_cell modifier i j).
Proof.
  intros w h s. destruct (w h (pins s) (colPin j)) eqn:Hr.
  - rewrite (scan_cell_idle w h s modifier i j Hr). split; reflexivity.
  - rewrite (scan_cell_asserted w h s modifier i j Hr). cbn [st pins out].
    split; [reflexivity|].
    change (drivers (snd (cell_effect modifier (keyAt i j) (globals s))) = []).
    apply cell_effect_passive.
Qed.

Lemma for_range_passive (body : nat -> M unit) :
  (forall j, passive (body j)) -> forall n j, passive (for_range n j body).
Proof.
  intros Hb n. induction n as [|n IH]; intros j w h s.
  - split; reflexivity.
  - cbn [for_range]. unfold bind. cbn [st out].
    destruct (Hb j w h s) as [Hp Hd].
    destruct (IH (S j) w (h ++ out (body j w h s)) (st (body j w h s)))
      as [Hp' Hd'].
    split.
    + rewrite Hp'. exact Hp.
    + rewrite drivers_app, Hd, Hd'. reflexivity.
Qed.

Lemma modifierPressed_passive (w : world) (h : list event) (s : machine) :
  st (modifierPressed w h s) = s
  /\ drivers (out (modifierPressed w h s)) = []
  /\ timed (out (modifierPressed w h s)) = [].
Proof.
  unfold modifierPressed.
  rewrite bind_digitalRead. cbn [val st out].
  destruct (w h (pins s) _); cbn [negb]; [| repeat split; reflexivity].
  rewrite bind_digitalRead. cbn [val st out].
  destruct (w _ (pins s) _); cbn [negb]; [| repeat split; reflexivity].
  rewrite bind_digitalRead. cbn [val st out].
  destruct (w _ (pins s) _); cbn [negb]; repeat split; reflexivity.
Qed.

(** ** The shape of an enabled cycle *)

Lemma scan_row_run (previousRow currentRow : nat) w h s :
  scan_row previousRow currentRow w h s
  = mkRes tt
      {| globals := globals s;
         pins := replay (row_drivers previousRow currentRow) (pins s) |}
      (row_drivers previousRow currentRow).
Proof. reflexivity. Qed.

Lemma scan_rows_S (n i previousRow : nat) (modifier : Z) w h s :
  scan_rows (S n) i previousRow modifier w h s
  = let s1 := {| globals := globals s;
                 pins := replay (row_drivers previousRow i) (pins s) |} in
    let h1 := h ++ row_drivers previousRow i in
    let cols := for_range (columnsOf i) 0 (scan_cell modifier i) w h1 s1 in
    let rest := scan_rows n (S i) i modifier w (h1 ++ out cols) (st cols) in
    mkRes tt (st rest) (row_drivers previousRow i ++ out cols ++ out rest).
Proof.
  cbn [scan_rows]. unfold bind. rewrite !scan_row_run. cbn [val st out].
  cbv zeta.
  match goal with
  | |- context [scan_rows ?a ?b ?c ?d ?e ?f ?g] =>
      generalize (scan_rows a b c d e f g)
  end.
  intros [[] s' o]. reflexivity.
Qed.

Lemma scan_rows_drivers (modifier : Z) (w : world) :
  forall n i previousRow h s,
    drivers (out (scan_rows n i previousRow modifier w h s))
    = pass_drivers n i previousRow
    /\ pins (st (scan_rows n i previousRow modifier w h s))
       = replay (pass_drivers n i previousRow) (pins s).
Proof.
  induction n as [|n IH]; intros i previousRow h s.
  - split; reflexivity.
  - rewrite scan_rows_S. cbv zeta. cbn [out st pass_drivers].
    match goal with
    | |- context [for_range ?c 0 ?b w ?hh ?ss] =>
        destruct (for_range_passive b (scan_cell_passive modifier i) c 0%nat
                    w hh ss) as [Hp Hd];
        destruct (IH (S i) i (hh ++ out (for_range c 0%nat b w hh ss))
                    (st (for_range c 0%nat b w hh ss))) as [Hd' Hp']
    end.
    split.
    + rewrite !drivers_app, Hd, Hd'. reflexivity.
    + rewrite Hp', Hp, replay_app. reflexivity.
Qed.

Lemma bind_run {A B} (m : M A) (f : A -> M B) w h s :
  bind m f w h s
  = mkRes (val (f (val (m w h s)) w (h ++ out (m w h s)) (st (m w h s))))
          (st (f (val (m w h s)) w (h ++ out (m w h s)) (st (m w h s))))
          (out (m w h s)
             ++ out (f (val (m w h s)) w (h ++ out (m w h s)) (st (m w h s)))).
Proof. reflexivity. Qed.

Lemma val_mk {A} (a : A) s o : val (mkRes a s o) = a.
Proof. reflexivity. Qed.
Lemma st_mk {A} (a : A) s o : st (mkRes a s o) = s.
Proof. reflexivity. Qed.
Lemma out_mk {A} (a : A) s o : out (mkRes a s o) = o.
Proof. reflexivity. Qed.

Ltac proj := rewrite ?val_mk, ?st_mk, ?out_mk.

Lemma loop_enabled (w : world) (h : list event) (s : machine) :
  w h (pins s) enablePin = HIGH ->
  loop w h s
  = mkRes tt (st (stage_scan w h s))
      (EDigitalRead enablePin HIGH
         :: out (stage_modifier w h s) ++ out (stage_lock w h s)
            ++ out (stage_scan w h s)).
Proof.
  intros Hr. unfold loop. rewrite bind_digitalRead, Hr.
  change (Bool.eqb HIGH HIGH) with true. cbv iota.
  rewrite bind_run. rewrite bind_run.
  destruct (modifierPressed_passive w (h ++ [EDigitalRead enablePin HIGH]) s)
    as [Hs _].
  rewrite Hs. proj.
  unfold stage_scan, stage_lock, stage_modifier.
  rewrite <- !app_assoc. change ([?x] ++ ?l) with (x :: l).
  match goal with
  | |- context [scan_rows ?a ?b ?c ?d ?e ?f ?g] =>
      generalize (scan_rows a b c d e f g)
  end.
  intros [[] s' o]. reflexivity.
Qed.

Lemma cycle_drivers_spec (w : world) (h : list event) (s : machine) :
  w h (pins s) enablePin = HIGH ->
  drivers (out (loop w h s)) = cycle_drivers
  /\ pins (st (loop w h s)) = replay cycle_drivers (pins s).
Proof.
  intros Hr. rewrite (loop_enabled w h s Hr). proj.
  destruct (modifierPressed_passive w (h ++ [EDigitalRead enablePin HIGH]) s)
    as (_ & Hmd & _).
  fold (stage_modifier w h s) in Hmd.
  destruct (scan_rows_drivers (val (stage_modifier w h s)) w ROWS 0%nat
              (ROWS - 1)%nat
              (h ++ [EDigitalRead enablePin HIGH] ++ out (stage_modifier w h s)
                 ++ out (stage_lock w h s))
              (st (stage_lock w h s))) as [Hd Hp].
  fold (stage_scan w h s) in Hd, Hp.
  assert (Hl : drivers (out (stage_lock w h s))
               = lock_probe_prefix ++ [EPinMode alphaLockRowPin INPUT_PULLUP]
               /\ pins (st (stage_lock w h s))
                  = replay (lock_probe_prefix
                              ++ [EPinMode alphaLockRowPin INPUT_PULLUP])
                      (pins s)).
  { unfold stage_lock. rewrite checkAlphaLock_run. cbv zeta. cbn [out st pins].
    split; [|reflexivity].
    rewrite !drivers_app.
    match goal with |- context [if ?c then _ else _] => destruct c end;
      reflexivity. }
  destruct Hl as [Hld Hlp].
  split.
  - change (EDigitalRead enablePin HIGH :: ?l)
      with ([EDigitalRead enablePin HIGH] ++ l).
    rewrite !drivers_app, Hmd, Hld, Hd. unfold cycle_drivers.
    cbn [drivers filter is_driver app]. rewrite <- app_assoc. reflexivity.
  - rewrite Hp, Hlp. unfold cycle_drivers. rewrite app_assoc, replay_app.
    reflexivity.
Qed.

(** ** Where the lock probe sits in the cycle (C3) *)

Lemma existsb_drivers (q : event -> bool) (tr : list event) :
  (forall e, q e = true -> is_driver e = true) ->
  existsb q (drivers tr) = existsb q tr.
Proof.
  intros Hq. induction tr as [|e tr IH]; [reflexivity|].
  unfold drivers in *. cbn [filter existsb].
  destruct (is_driver e) eqn:E.
  - cbn [existsb]. rewrite IH. reflexivity.
  - rewrite IH. destruct (q e) eqn:Eq; [|reflexivity].
    rewrite (Hq e Eq) in E. discriminate.
Qed.

Lemma occurs_before_drivers (p q : event -> bool) (tr : list event) :
  (forall e, p e = true -> is_driver e = true) ->
  (forall e, q e = true -> is_driver e = true) ->
  occurs_before p q (drivers tr) = occurs_before p q tr.
Proof.
  intros Hp Hq. induction tr as [|e tr IH]; [reflexivity|].
  unfold drivers in *. cbn [filter occurs_before].
  destruct (is_driver e) eqn:E.
  - cbn [occurs_before]. rewrite IH.
    fold (drivers tr). rewrite (existsb_drivers q tr Hq). reflexivity.
  - destruct (q e) eqn:Eq; [rewrite (Hq e Eq) in E; discriminate|].
    destruct (p e) eqn:Ep; [rewrite (Hp e Ep) in E; discriminate|].
    exact IH.
Qed.

Lemma is_activation_driver (pin : Z) (e : event) :
  is_activation pin e = true -> is_driver e = true.
Proof. destruct e; cbn; intros; try discriminate; reflexivity. Qed.

Lemma is_deactivation_driver (pin : Z) (e : event) :
  is_deactivation pin e = true -> is_driver e = true.
Proof. destruct e; cbn; intros; try discriminate; reflexivity. Qed.

(** C3 as stated fails: in the first cycle after [setup], with every line
    reading high, the lock line is driven before row 0 is activated. *)
Lemma lock_probe_after_pass_fails :
  ~ lock_probe_after_pass (out (loop (fun _ _ _ => HIGH) [] powered_up)).
Proof.
  intros H. specialize (H 0%nat ltac:(unfold ROWS; lia)).
  vm_compute in H. discriminate.
Qed.

(** C3, as the code has it: in every enabled cycle the lock probe comes
    after the modifier detection and after the last row has been
    deactivated, and before any row of that cycle's matrix pass is
    activated.  The cycle is the enable read, the reads of the modifier
    detection, the lock probe (last row to input, lock line driven low,
    lock column sampled, lock line back to pull-up, optional tap), and
    only then the pass, whose row activations are those of rows
    0..ROWS-1 in order. *)
Theorem lock_probe_precedes_pass (w : world) (h : list event) (s : machine) :
  w h (pins s) enablePin = HIGH ->
  let off := lock_sample w
               (h ++ [EDigitalRead enablePin HIGH] ++ out (stage_modifier w h s))
               s in
  (exists tap,
     out (loop w h s)
     = [EDigitalRead enablePin HIGH] ++ out (stage_modifier w h s)
       ++ (lock_probe_prefix
             ++ [EDigitalRead (colPin 7) off;
                 EPinMode alphaLockRowPin INPUT_PULLUP] ++ tap)
       ++ out (stage_scan w h s)
     /\ drivers tap = [])
  /\ drivers (out (stage_modifier w h s)) = []
  /\ drivers (out (stage_scan w h s)) = pass_drivers ROWS 0 (ROWS - 1)
  /\ lock_probe_before_pass (out (loop w h s))
  /\ occurs_before (is_deactivation (rowPin (ROWS - 1)))
       (is_activation alphaLockRowPin) (out (loop w h s)) = true.
Proof.
  intros Hr off.
  destruct (cycle_drivers_spec w h s Hr) as [Hd _].
  split; [| split; [| split; [| split]]].
  - rewrite (loop_enabled w h s Hr). proj.
    unfold stage_lock at 1. rewrite checkAlphaLock_run. cbv zeta. proj.
    fold off. eexists. split; [reflexivity|].
    destruct (xorb (negb off) (lockAsserted (globals s))); reflexivity.
  - apply modifierPressed_passive.
  - apply scan_rows_drivers.
  - intros r Hlt.
    rewrite <- (occurs_before_drivers _ _ (out (loop w h s))
                  (is_activation_driver _) (is_activation_driver _)).
    rewrite Hd.
    do 6 (destruct r as [|r]; [vm_compute; reflexivity|]).
    exfalso. revert Hlt. unfold ROWS. lia.
  - rewrite <- (occurs_before_drivers _ _ (out (loop w h s))
                  (is_deactivation_driver _) (is_activation_driver _)).
    rewrite Hd. vm_compute. reflexivity.
Qed.

Lemma lock_probe_precedes_pass_witness :
  lock_probe_before_pass (out (loop (fun _ _ _ => HIGH) [] powered_up)).
Proof.
  apply (lock_probe_precedes_pass (fun _ _ _ => HIGH) [] powered_up).
  reflexivity.
Defined.

(** ** At most one line driven (C7) *)

Lemma track_ext (tr : list event) (q : Z) :
  forall d d', d q = d' q -> fold_left track tr d q = fold_left track tr d' q.
Proof.
  induction tr as [|e tr IH]; intros d d' Hq; [exact Hq|].
  cbn [fold_left]. apply IH.
  destruct e; cbn [track]; try exact Hq.
  destruct (q =? pin); [reflexivity | exact Hq].
Qed.

Lemma driven_replay (tr : list event) (q : Z) :
  forall ps, driven (replay tr ps q)
             = fold_left track tr (fun p => driven (ps p)) q.
Proof.
  induction tr as [|e tr IH]; intros ps; [reflexivity|].
  unfold replay in *. cbn [fold_left]. rewrite IH.
  apply track_ext.
  destruct e; cbn [apply_event track]; try reflexivity; unfold upd.
  - destruct (q =? pin); [|reflexivity]. destruct m; reflexivity.
  - destruct (q =? pin); reflexivity.
Qed.

Lemma asserted_sublist (ps : pin_map) (l : list Z) :
  (length (filter (fun p => asserted (ps p)) l)
   <= length (filter (fun p => driven (ps p)) l))%nat.
Proof.
  induction l as [|p l IH]; [apply Nat.le_refl|].
  cbn [filter]. unfold asserted at 1.
  destruct (driven (ps p)); cbn [andb].
  - destruct (negb (plevel (ps p))); cbn [length]; lia.
  - exact IH.
Qed.

Lemma idle_but_lines (ps : pin_map) :
  idle_but ps (ROWS - 1) ->
  forall q, In q select_lines -> q <> rowPin (ROWS - 1) -> driven (ps q) = false.
Proof.
  intros [Hrows Hlock] q Hin Hq.
  unfold select_lines, rowPins in Hin. cbn [app In] in Hin.
  assert (R : forall r, (r < 5)%nat -> driven (ps (rowPin r)) = false).
  { intros r Hr. apply Hrows; unfold ROWS; cbn; lia. }
  destruct Hin as [<-|[<-|[<-|[<-|[<-|[<-|[<-|[]]]]]]]].
  - apply (R 0%nat). lia.
  - apply (R 1%nat). lia.
  - apply (R 2%nat). lia.
  - apply (R 3%nat). lia.
  - apply (R 4%nat). lia.
  - exfalso. apply Hq. reflexivity.
  - exact Hlock.
Qed.

(** The driver calls of an enabled cycle after the first one, which
    returns the last row to an input. *)
Lemma cycle_drivers_head :
  cycle_drivers = EPinMode (rowPin (ROWS - 1)) INPUT :: tl cycle_drivers.
Proof. reflexivity. Qed.

Lemma tail_prefixes_one_driven :
  forallb
    (fun k =>
       (length (filter (fun q => fold_left track (firstn k (tl cycle_drivers))
                                   (fun _ => false) q) select_lines) <=? 1)%nat)
    (seq 0 (S (length (tl cycle_drivers)))) = true.
Proof. vm_compute. reflexivity. Qed.

Lemma prefixes_one_driven (ps : pin_map) (k : nat) :
  idle_but ps (ROWS - 1) ->
  (length (driven_lines (replay (firstn k cycle_drivers) ps)) <= 1)%nat.
Proof.
  intros Hidle. unfold driven_lines.
  destruct k as [|k].
  - cbn [firstn replay fold_left].
    assert (E : filter (fun p => driven (ps p)) select_lines
                = filter (fun p => driven (ps p) && (p =? rowPin (ROWS - 1)))
                    select_lines).
    { apply filter_ext_in. intros q Hq.
      destruct (Z.eqb_spec q (rowPin (ROWS - 1))) as [->|Hne].
      - rewrite andb_true_r. reflexivity.
      - rewrite (idle_but_lines ps Hidle q Hq Hne). reflexivity. }
    rewrite E. clear E. cbn [select_lines rowPins app filter].
    change (9 =? rowPin (ROWS - 1)) with false.
    change (A1 =? rowPin (ROWS - 1)) with false.
    change (A2 =? rowPin (ROWS - 1)) with false.
    change (A3 =? rowPin (ROWS - 1)) with false.
    change (10 =? rowPin (ROWS - 1)) with false.
    change (alphaLockRowPin =? rowPin (ROWS - 1)) with false.
    rewrite !andb_false_r.
    destruct (driven (ps A0) && (A0 =? rowPin (ROWS - 1))); cbn; lia.
  - rewrite cycle_drivers_head. cbn [firstn].
    assert (E : filter (fun p => driven
                          (replay (EPinMode (rowPin (ROWS - 1)) INPUT
                                     :: firstn k (tl cycle_drivers)) ps p))
                  select_lines
                = filter (fun q => fold_left track
                                     (firstn (Nat.min k (length (tl cycle_drivers)))
                                        (tl cycle_drivers))
                                     (fun _ => false) q) select_lines).
    { apply filter_ext_in. intros q Hq.
      rewrite driven_replay. cbn [fold_left].
      rewrite <- firstn_firstn, firstn_all.
      apply track_ext. cbn [track is_output].
      destruct (Z.eqb_spec q (rowPin (ROWS - 1))) as [_|Hne]; [reflexivity|].
      apply (idle_but_lines ps Hidle q Hq Hne). }
    rewrite E. clear E.
    pose proof tail_prefixes_one_driven as H.
    rewrite forallb_forall in H.
    apply Nat.leb_le. apply H. apply in_seq.
    pose proof (Nat.le_min_r k (length (tl cycle_drivers))). lia.
Qed.

Lemma powered_up_idle : idle_but (pins powered_up) (ROWS - 1).
Proof.
  split.
  - intros r Hr Hne.
    do 5 (destruct r as [|r]; [vm_compute; reflexivity|]).
    destruct r as [|r]; [exfalso; apply Hne; reflexivity|].
    exfalso. revert Hr. unfold ROWS. lia.
  - vm_compute. reflexivity.
Qed.

Lemma cycle_keeps_idle (ps : pin_map) :
  idle_but ps (ROWS - 1) -> idle_but (replay cycle_drivers ps) (ROWS - 1).
Proof.
  intros Hidle.
  assert (E : forall q, In q select_lines ->
                driven (replay cycle_drivers ps q)
                = fold_left track (tl cycle_drivers) (fun _ => false) q).
  { intros q Hq. rewrite driven_replay, cycle_drivers_head.
    cbn [fold_left tl]. apply track_ext. cbn [track is_output].
    destruct (Z.eqb_spec q (rowPin (ROWS - 1))) as [_|Hne]; [reflexivity|].
    apply (idle_but_lines ps Hidle q Hq Hne). }
  split.
  - intros r Hr Hne.
    do 5 (destruct r as [|r];
          [rewrite E; [vm_compute; reflexivity
                      | unfold select_lines, rowPins; cbn; tauto]|]).
    destruct r as [|r]; [exfalso; apply Hne; reflexivity|].
    exfalso. revert Hr. unfold ROWS. lia.
  - rewrite E; [vm_compute; reflexivity|].
    unfold select_lines, rowPins; cbn; tauto.
Qed.

(** C7: started with no row but the last one driven (as [setup] and
    every cycle leave the pins), at every instant of a cycle at most
    one of the row lines and the lock line is an output, so at
    most one is asserted; the cycle leaves the pins as it found them in
    that respect.  In an enabled cycle the driver calls are
    [cycle_drivers]: the last row is returned to an input before the
    lock line is driven, the lock line is released before row 0 is
    driven, and every row activation first returns the previous row to
    an input. *)
Theorem single_row_active (w : world) (h : list event) (s : machine) :
  idle_but (pins s) (ROWS - 1) ->
  (forall n,
     let ps := replay (firstn n (out (loop w h s))) (pins s) in
     (length (driven_lines ps) <= 1)%nat
     /\ (length (asserted_lines ps) <= 1)%nat)
  /\ pins (st (loop w h s)) = replay (out (loop w h s)) (pins s)
  /\ idle_but (pins (st (loop w h s))) (ROWS - 1)
  /\ (w h (pins s) enablePin = HIGH ->
      drivers (out (loop w h s)) = cycle_drivers).
Proof.
  intros Hidle.
  assert (Hall : forall n,
            (length (driven_lines
                       (replay (firstn n (out (loop w h s))) (pins s))) <= 1)%nat
            /\ (length (asserted_lines
                          (replay (firstn n (out (loop w h s))) (pins s)))
                <= 1)%nat).
  { assert (Hdr : forall n,
              (length (driven_lines
                         (replay (firstn n (out (loop w h s))) (pins s)))
               <= 1)%nat).
    { intros n. rewrite <- replay_drivers.
      destruct (drivers_firstn n (out (loop w h s))) as [k Hk]. rewrite Hk.
      destruct (w h (pins s) enablePin) eqn:Hr.
      - destruct (cycle_drivers_spec w h s Hr) as [Hd _]. rewrite Hd.
        apply prefixes_one_driven. exact Hidle.
      - rewrite (loop_disabled w h s Hr). proj.
        replace (firstn k (drivers [EDigitalRead enablePin LOW]))
          with (firstn 0 cycle_drivers) by (destruct k; reflexivity).
        apply prefixes_one_driven. exact Hidle. }
    intros n. split; [apply Hdr|].
    eapply Nat.le_trans; [apply asserted_sublist | apply Hdr]. }
  split; [exact Hall|].
  destruct (w h (pins s) enablePin) eqn:Hr.
  - destruct (cycle_drivers_spec w h s Hr) as [Hd Hp].
    split; [| split].
    + rewrite Hp, <- Hd. apply replay_drivers.
    + rewrite Hp. apply cycle_keeps_idle. exact Hidle.
    + intros _. exact Hd.
  - rewrite (loop_disabled w h s Hr). proj.
    split; [reflexivity | split; [exact Hidle | discriminate]].
Qed.

Lemma single_row_active_witness :
  (length (driven_lines
             (replay (firstn 9 (out (loop (fun _ _ _ => HIGH) [] powered_up)))
                (pins powered_up))) <= 1)%nat.
Proof.
  exact (proj1 (proj1 (single_row_active (fun _ _ _ => HIGH) [] powered_up
                         powered_up_idle) 9%nat)).
Defined.

(** ** The pass under known switch positions *)

Lemma cells_spec_app closed modifier (l1 l2 : list (nat * nat)) (g : vars) :
  cells_spec closed modifier (l1 ++ l2) g
  = (fst (cells_spec closed modifier l2
            (fst (cells_spec closed modifier l1 g))),
     snd (cells_spec closed modifier l1 g)
       ++ snd (cells_spec closed modifier l2
                 (fst (cells_spec closed modifier l1 g)))).
Proof.
  revert g. induction l1 as [|[r c] l1 IH]; intros g.
  - cbn [app cells_spec fst snd]. destruct (cells_spec closed modifier l2 g).
    reflexivity.
  - cbn [app cells_spec]. cbv zeta. rewrite IH. cbn [fst snd].
    rewrite app_assoc. reflexivity.
Qed.

Lemma for_range_S (n from : nat) (body : nat -> M unit) w h s :
  for_range (S n) from body w h s
  = mkRes tt
      (st (for_range n (S from) body w (h ++ out (body from w h s))
             (st (body from w h s))))
      (out (body from w h s)
         ++ out (for_range n (S from) body w (h ++ out (body from w h s))
                   (st (body from w h s)))).
Proof.
  cbn [for_range]. rewrite bind_run.
  generalize (for_range n (S from) body w (h ++ out (body from w h s))
                (st (body from w h s))).
  intros [[] s' o]. reflexivity.
Qed.

Section Columns.
Variables (w : world) (closed : nat -> nat -> bool) (modifier : Z) (i : nat).
Variables (ps : pin_map) (h0 : list event).
Hypothesis reads :
  forall h c, (c < columnsOf i)%nat ->
    w (h0 ++ h) ps (colPin c) = negb (closed i c).

Lemma scan_cell_spec (j : nat) h s :
  (j < columnsOf i)%nat -> pins s = ps ->
  pins (st (scan_cell modifier i j w (h0 ++ h) s)) = ps
  /\ globals (st (scan_cell modifier i j w (h0 ++ h) s))
     = fst (cell_spec closed modifier i j (globals s))
  /\ timed (out (scan_cell modifier i j w (h0 ++ h) s))
     = snd (cell_spec closed modifier i j (globals s)).
Proof.
  intros Hj Hp. pose proof (reads h j Hj) as Hr. rewrite <- Hp in Hr.
  unfold cell_spec. destruct (closed i j); cbn [negb] in Hr.
  - rewrite (scan_cell_asserted w (h0 ++ h) s modifier i j Hr). proj.
    cbn [pins globals fst snd]. auto.
  - rewrite (scan_cell_idle w (h0 ++ h) s modifier i j Hr). proj.
    cbn [pins globals fst snd]. auto.
Qed.

Lemma columns_spec (n : nat) :
  forall j h s,
    (j + n <= columnsOf i)%nat -> pins s = ps ->
    pins (st (for_range n j (scan_cell modifier i) w (h0 ++ h) s)) = ps
    /\ globals (st (for_range n j (scan_cell modifier i) w (h0 ++ h) s))
       = fst (cells_spec closed modifier (row_cells i j n) (globals s))
    /\ timed (out (for_range n j (scan_cell modifier i) w (h0 ++ h) s))
       = snd (cells_spec closed modifier (row_cells i j n) (globals s)).
Proof.
  induction n as [|n IH]; intros j h s Hn Hp.
  - cbn. auto.
  - rewrite for_range_S. proj.
    destruct (scan_cell_spec j h s ltac:(lia) Hp) as (Hp1 & Hg1 & Ht1).
    rewrite <- app_assoc.
    destruct (IH (S j) (h ++ out (scan_cell modifier i j w (h0 ++ h) s))
                (st (scan_cell modifier i j w (h0 ++ h) s)) ltac:(lia) Hp1)
      as (Hp2 & Hg2 & Ht2).
    unfold row_cells in *. cbn [seq map cells_spec]. cbv zeta.
    cbn [fst snd]. rewrite timed_app, Hp2, Hg2, Ht2, Hg1, Ht1. auto.
Qed.
End Columns.

(** ** Row activation *)

Lemma rowPin_inj (r r' : nat) :
  (r < ROWS)%nat -> (r' < ROWS)%nat -> rowPin r = rowPin r' -> r = r'.
Proof.
  intros Hr Hr'.
  do 6 (destruct r as [|r];
        [ do 6 (destruct r' as [|r'];
                [ vm_compute; intros E; first [reflexivity | discriminate] | ]);
          exfalso; revert Hr'; unfold ROWS; lia | ]).
  exfalso. revert Hr. unfold ROWS. lia.
Qed.

Lemma rowPin_not_lock (r : nat) :
  (r < ROWS)%nat -> rowPin r <> alphaLockRowPin.
Proof.
  intros Hr.
  do 6 (destruct r as [|r]; [vm_compute; discriminate|]).
  exfalso. revert Hr. unfold ROWS. lia.
Qed.

Lemma upd_same (p : Z) f ps : upd p f ps p = f (ps p).
Proof. unfold upd. rewrite Z.eqb_refl. reflexivity. Qed.

Lemma upd_other (p q : Z) f ps : q <> p -> upd p f ps q = ps q.
Proof. unfold upd. intros H. apply Z.eqb_neq in H. rewrite H. reflexivity. Qed.

Lemma scan_row_active (ps : pin_map) (previousRow i : nat) :
  (previousRow < ROWS)%nat -> (i < ROWS)%nat ->
  idle_but ps previousRow ->
  row_active (replay (row_drivers previousRow i) ps) i.
Proof.
  intros Hp Hi [Hrows Hlock].
  unfold row_drivers, replay. cbn [fold_left apply_event].
  split; [| split].
  - rewrite !upd_same. reflexivity.
  - intros r Hr Hne.
    assert (Hpin : rowPin r <> rowPin i).
    { intros E. apply Hne. apply (rowPin_inj r i Hr Hi E). }
    rewrite !(upd_other (rowPin i)) by exact Hpin.
    destruct (Z.eq_dec (rowPin r) (rowPin previousRow)) as [E|E].
    + rewrite E, upd_same. reflexivity.
    + rewrite upd_other by exact E. apply Hrows; [exact Hr|].
      intros ->. apply E. reflexivity.
  - assert (Hl : forall r, (r < ROWS)%nat -> alphaLockRowPin <> rowPin r).
    { intros r Hr E. apply (rowPin_not_lock r Hr). symmetry. exact E. }
    rewrite !upd_other by (apply Hl; assumption). exact Hlock.
Qed.

Lemma row_active_idle (ps : pin_map) (r : nat) :
  row_active ps r -> idle_but ps r.
Proof. intros [_ H]. exact H. Qed.

Lemma lock_probe_keeps_idle (ps : pin_map) :
  idle_but ps (ROWS - 1) ->
  idle_but (replay (lock_probe_prefix ++ [EPinMode alphaLockRowPin INPUT_PULLUP])
              ps) (ROWS - 1).
Proof.
  intros [Hrows Hlock].
  unfold lock_probe_prefix, replay. cbn [app fold_left apply_event].
  split.
  - intros r Hr Hne.
    pose proof (rowPin_not_lock r Hr) as Hl.
    rewrite !(upd_other alphaLockRowPin) by exact Hl.
    rewrite upd_other.
    + apply Hrows; assumption.
    + intros E. apply Hne. apply (rowPin_inj r (ROWS - 1) Hr); [|exact E].
      unfold ROWS. lia.
  - rewrite upd_same. reflexivity.
Qed.

Lemma matrix_reads_later (w : world) (h0 x : list event) closed :
  matrix_reads w h0 closed -> matrix_reads w (h0 ++ x) closed.
Proof.
  intros H h ps r c Hr Hc Hact. rewrite <- app_assoc. apply H; assumption.
Qed.

Section Pass.
Variables (w : world) (h0 : list event).
Variables (closed : nat -> nat -> bool) (modifier : Z).
Hypothesis reads : matrix_reads w h0 closed.

Lemma rows_spec (n : nat) :
  forall i previousRow h s,
    (i + n <= ROWS)%nat -> (previousRow < ROWS)%nat ->
    idle_but (pins s) previousRow ->
    globals (st (scan_rows n i previousRow modifier w (h0 ++ h) s))
    = fst (cells_spec closed modifier (pass_cells i n) (globals s))
    /\ timed (out (scan_rows n i previousRow modifier w (h0 ++ h) s))
       = snd (cells_spec closed modifier (pass_cells i n) (globals s)).
Proof.
  induction n as [|n IH]; intros i previousRow h s Hn Hp Hidle.
  - cbn. auto.
  - rewrite scan_rows_S. cbv zeta. proj.
    rewrite <- (app_assoc h0 h (row_drivers previousRow i)).
    assert (Hi : (i < ROWS)%nat) by lia.
    pose proof (scan_row_active (pins s) previousRow i Hp Hi Hidle) as Hact.
    set (ps1 := replay (row_drivers previousRow i) (pins s)) in *.
    set (s1 := {| globals := globals s; pins := ps1 |}).
    set (h1 := h ++ row_drivers previousRow i).
    destruct (columns_spec w closed modifier i ps1 h0
                (fun h' c Hc => reads h' ps1 i c Hi Hc Hact)
                (columnsOf i) 0%nat h1 s1 ltac:(lia) eq_refl)
      as (Hp1 & Hg1 & Ht1).
    set (cols := for_range (columnsOf i) 0 (scan_cell modifier i) w
                   (h0 ++ h1) s1) in *.
    assert (Hidle1 : idle_but (pins (st cols)) i).
    { rewrite Hp1. apply row_active_idle. exact Hact. }
    rewrite <- (app_assoc h0 h1 (out cols)).
    destruct (IH (S i) i (h1 ++ out cols) (st cols) ltac:(lia) Hi Hidle1)
      as (Hg2 & Ht2).
    unfold pass_cells in *. cbn [seq flat_map].
    rewrite cells_spec_app. cbn [fst snd].
    rewrite !timed_app, Hg2, Ht2, Hg1, Ht1.
    split; [reflexivity|].
    replace (timed (row_drivers previousRow i)) with (@nil event)
      by reflexivity.
    reflexivity.
Qed.
End Pass.

(** ** Idle samples *)

Lemma wrap_ulong_succ (z : Z) (n : Z) :
  wrap_ulong (wrap_ulong (z + 1) + n) = wrap_ulong (z + (1 + n)).
Proof.
  unfold wrap_ulong. rewrite Z.add_mod_idemp_l by lia. f_equal. lia.
Qed.

Lemma idle_steps_fields (n : nat) :
  forall g,
    previousKey (idle_steps n g) = previousKey g
    /\ currentKey (idle_steps n g) = currentKey g
    /\ count (idle_steps n g) = count g
    /\ alphaLock (idle_steps n g) = alphaLock g.
Proof.
  induction n as [|n IH]; intros g; [cbn; auto|].
  cbn [idle_steps]. destruct (IH (idle_step g)) as (H1 & H2 & H3 & H4).
  rewrite H1, H2, H3, H4. cbn. auto.
Qed.

Lemma idle_steps_count (n : nat) :
  forall g, idlecount (idle_steps (S n) g)
            = wrap_ulong (idlecount g + Z.of_nat (S n)).
Proof.
  induction n as [|n IH]; intros g.
  - reflexivity.
  - change (idle_steps (S (S n)) g) with (idle_steps (S n) (idle_step g)).
    rewrite IH. unfold idle_step. cbn [idlecount set_idlecount].
    rewrite wrap_ulong_succ. f_equal. lia.
Qed.

Lemma idle_steps_small (n : nat) (g : vars) :
  0 <= idlecount g -> idlecount g + Z.of_nat n < 4294967296 ->
  idlecount (idle_steps n g) = idlecount g + Z.of_nat n.
Proof.
  intros H0 H1. destruct n as [|n].
  - cbn. lia.
  - rewrite idle_steps_count. unfold wrap_ulong. apply Z.mod_small. lia.
Qed.

Lemma cells_spec_quiet closed modifier (cells : list (nat * nat)) :
  (forall r c, In (r, c) cells -> closed r c = false) ->
  forall g, cells_spec closed modifier cells g
            = (idle_steps (length cells) g, []).
Proof.
  induction cells as [|[r c] cells IH]; intros Hq g; [reflexivity|].
  cbn [cells_spec length idle_steps]. cbv zeta. unfold cell_spec.
  rewrite (Hq r c (or_introl eq_refl)). cbn [fst snd].
  rewrite IH by (intros r' c' Hin; apply Hq; right; exact Hin).
  reflexivity.
Qed.

(** ** The enabled cycle under known switch positions *)

Lemma stage_lock_facts (w : world) (h : list event) (s : machine) :
  previousKey (globals (st (stage_lock w h s))) = previousKey (globals s)
  /\ currentKey (globals (st (stage_lock w h s))) = currentKey (globals s)
  /\ count (globals (st (stage_lock w h s))) = count (globals s)
  /\ idlecount (globals (st (stage_lock w h s))) = idlecount (globals s)
  /\ (timed (out (stage_lock w h s)) = []
      \/ timed (out (stage_lock w h s)) = caps_tap)
  /\ pins (st (stage_lock w h s))
     = replay (lock_probe_prefix ++ [EPinMode alphaLockRowPin INPUT_PULLUP])
         (pins s).
Proof.
  unfold stage_lock. rewrite checkAlphaLock_run. cbv zeta. proj.
  cbn [globals pins].
  destruct (xorb _ _).
  - repeat split; try reflexivity. right.
    rewrite !timed_app. reflexivity.
  - repeat split; try reflexivity. left.
    rewrite !timed_app. reflexivity.
Qed.

Lemma cycle_spec (w : world) (closed : nat -> nat -> bool)
    (h : list event) (s : machine) :
  matrix_reads w h closed ->
  w h (pins s) enablePin = HIGH ->
  idle_but (pins s) (ROWS - 1) ->
  globals (st (loop w h s))
  = fst (cells_spec closed (val (stage_modifier w h s)) (pass_cells 0 ROWS)
           (globals (st (stage_lock w h s))))
  /\ timed (out (loop w h s))
     = timed (out (stage_lock w h s))
       ++ snd (cells_spec closed (val (stage_modifier w h s))
                 (pass_cells 0 ROWS) (globals (st (stage_lock w h s))))
  /\ timed (out (stage_scan w h s))
     = snd (cells_spec closed (val (stage_modifier w h s))
              (pass_cells 0 ROWS) (globals (st (stage_lock w h s)))).
Proof.
  intros Hw Hr Hidle.
  rewrite (loop_enabled w h s Hr). proj.
  destruct (stage_lock_facts w h s) as (_ & _ & _ & _ & _ & Hpins).
  assert (Hidle' : idle_but (pins (st (stage_lock w h s))) (ROWS - 1)).
  { rewrite Hpins. apply lock_probe_keeps_idle. exact Hidle. }
  destruct (rows_spec w h closed (val (stage_modifier w h s)) Hw ROWS 0%nat
              (ROWS - 1)%nat
              ([EDigitalRead enablePin HIGH] ++ out (stage_modifier w h s)
                 ++ out (stage_lock w h s))
              (st (stage_lock w h s)) ltac:(lia)
              ltac:(unfold ROWS; lia) Hidle') as [Hg Ht].
  fold (stage_scan w h s) in Hg, Ht.
  destruct (modifierPressed_passive w (h ++ [EDigitalRead enablePin HIGH]) s)
    as (_ & _ & Hmt).
  fold (stage_modifier w h s) in Hmt.
  split; [exact Hg | split; [| exact Ht]].
  change (EDigitalRead enablePin HIGH :: ?l)
    with ([EDigitalRead enablePin HIGH] ++ l).
  rewrite !timed_app, Hmt, Ht. reflexivity.
Qed.

(** ** One closed switch *)

Lemma colPin_inj (c c' : nat) :
  (c < COLS)%nat -> (c' < COLS)%nat -> colPin c = colPin c' -> c = c'.
Proof.
  intros Hc Hc'.
  do 8 (destruct c as [|c];
        [ do 8 (destruct c' as [|c'];
                [ vm_compute; intros E; first [reflexivity | discriminate] | ]);
          exfalso; revert Hc'; unfold COLS; lia | ]).
  exfalso. revert Hc. unfold COLS. lia.
Qed.

Lemma columnsOf_le (r : nat) : (columnsOf r <= COLS)%nat.
Proof.
  do 6 (destruct r as [|r]; [vm_compute; lia|]).
  unfold columnsOf, columns, COLS. destruct r; cbn; lia.
Qed.

Lemma single_key_world_other (i0 j0 : nat) h ps r c :
  (r < ROWS)%nat -> (i0 < ROWS)%nat -> row_active ps r ->
  r <> i0 \/ colPin c <> colPin j0 ->
  single_key_world i0 j0 h ps (colPin c) = HIGH.
Proof.
  intros Hr Hi0 [_ [Hrows _]] Hne. unfold single_key_world.
  destruct Hne as [Hne | Hne].
  - unfold asserted. rewrite (Hrows i0 Hi0) by (intros E; apply Hne; auto).
    cbn [andb]. rewrite andb_false_r. reflexivity.
  - apply Z.eqb_neq in Hne. rewrite Hne. reflexivity.
Qed.

Lemma single_key_world_reads (i0 j0 : nat) (h0 : list event) :
  (i0 < ROWS)%nat -> (j0 < columnsOf i0)%nat ->
  matrix_reads (single_key_world i0 j0) h0
    (fun r c => (r =? i0)%nat && (c =? j0)%nat).
Proof.
  intros Hi0 Hj0 h ps r c Hr Hc Hact.
  pose proof (columnsOf_le r). pose proof (columnsOf_le i0).
  destruct (Nat.eqb_spec r i0) as [->|Hne]; cbn [andb].
  - destruct (Nat.eqb_spec c j0) as [->|Hcne]; cbn [negb].
    + unfold single_key_world. destruct Hact as [Ha _].
      rewrite Z.eqb_refl, Ha. reflexivity.
    + apply (single_key_world_other i0 j0 (h0 ++ h) ps i0 c Hr Hi0 Hact).
      right. intros E. apply Hcne. apply colPin_inj; [lia | lia | exact E].
  - apply (single_key_world_other i0 j0 (h0 ++ h) ps r c Hr Hi0 Hact).
    left. exact Hne.
Qed.

(** Only SHIFT held: its switch sits on the last row beyond the scanned
    columns, so no scanned cell reads asserted. *)
Lemma shift_world_reads (h0 : list event) :
  matrix_reads (single_key_world 5 (Z.to_nat SHIFT)) h0 (fun _ _ => false).
Proof.
  intros h ps r c Hr Hc Hact.
  apply (single_key_world_other 5 (Z.to_nat SHIFT) (h0 ++ h) ps r c Hr
           ltac:(unfold ROWS; lia) Hact).
  destruct (Nat.eq_dec r 5) as [->|Hne]; [right | left; exact Hne].
  intros E. pose proof (columnsOf_le 5).
  apply colPin_inj in E; [| change (columnsOf 5) with 3%nat in Hc;
                            unfold COLS; lia | vm_compute; lia].
  change (columnsOf 5) with 3%nat in Hc. change (Z.to_nat SHIFT) with 5%nat in E.
  lia.
Qed.

(** ** A modifier alone (C10) *)

Lemma sink_modifier_hold (modifier : Z) :
  sink (modifier_hold modifier) = modifier_hold modifier.
Proof.
  unfold modifier_hold.
  destruct (modifier =? SHIFT); [reflexivity|].
  destruct (modifier =? CTRL); [reflexivity|].
  destruct (modifier =? FCTN); reflexivity.
Qed.

(** The sink calls of one cell: none, a lone releaseAll(), or one
    emission with the modifier hold in front. *)
Lemma scan_cell_sink (modifier : Z) (i j : nat) w h s :
  sink (out (scan_cell modifier i j w h s)) = []
  \/ sink (out (scan_cell modifier i j w h s)) = [EKbdReleaseAll]
  \/ sink (out (scan_cell modifier i j w h s))
     = modifier_hold modifier
       ++ [EKbdPress (to_uint8 (keyAt i j)); EKbdReleaseAll].
Proof.
  destruct (w h (pins s) (colPin j)) eqn:Hr.
  - left. rewrite (scan_cell_idle w h s modifier i j Hr). reflexivity.
  - right. rewrite (scan_cell_asserted w h s modifier i j Hr). proj.
    change (sink (EDigitalRead (colPin j) LOW :: ?l)) with (sink l).
    unfold cell_effect.
    destruct (negb (keyAt i j =? previousKey (globals s))
              || (10000 <=? idlecount (globals s))).
    + right. cbn [snd]. unfold sink. rewrite filter_app.
      fold (sink (modifier_hold modifier)). rewrite sink_modifier_hold.
      reflexivity.
    + destruct (150 <? wrap_int (count (globals s) + 1)); cbn [snd].
      * right. unfold sink. rewrite filter_app.
        fold (sink (modifier_hold modifier)). rewrite sink_modifier_hold.
        reflexivity.
      * left. reflexivity.
Qed.

(** C10: in an enabled cycle in which no scanned cell reads asserted,
    whatever the modifier detector returned -- in particular when a
    modifier line is asserted -- the matrix pass sends nothing to the
    sink: the only sink calls of the cycle are those of the lock
    detector (a caps-lock tap or nothing), no modifier hold is sent, and
    [previousKey] and [count] are unchanged.  In any cycle, a cell sends
    the modifier hold only in front of the press of its key. *)
Theorem modifier_alone_sends_nothing (w : world) (h : list event)
    (s : machine) :
  matrix_reads w h (fun _ _ => false) ->
  w h (pins s) enablePin = HIGH ->
  idle_but (pins s) (ROWS - 1) ->
  (sink (out (stage_modifier w h s)) = []
   /\ sink (out (stage_scan w h s)) = []
   /\ sink (out (loop w h s)) = sink (out (stage_lock w h s))
   /\ (sink (out (loop w h s)) = [] \/ sink (out (loop w h s)) = caps_tap)
   /\ previousKey (globals (st (loop w h s))) = previousKey (globals s)
   /\ count (globals (st (loop w h s))) = count (globals s))
  /\ (forall modifier i j h' s',
        sink (out (scan_cell modifier i j w h' s')) = []
        \/ sink (out (scan_cell modifier i j w h' s')) = [EKbdReleaseAll]
        \/ sink (out (scan_cell modifier i j w h' s'))
           = modifier_hold modifier
             ++ [EKbdPress (to_uint8 (keyAt i j)); EKbdReleaseAll]).
Proof.
  intros Hw Hr Hidle.
  split; [| intros; apply scan_cell_sink].
  destruct (cycle_spec w _ h s Hw Hr Hidle) as (Hg & Ht & Hts).
  rewrite cells_spec_quiet in Hg, Ht, Hts by reflexivity.
  cbn [fst snd] in Hg, Ht, Hts. rewrite app_nil_r in Ht.
  destruct (modifierPressed_passive w (h ++ [EDigitalRead enablePin HIGH]) s)
    as (_ & _ & Hmt).
  fold (stage_modifier w h s) in Hmt.
  destruct (stage_lock_facts w h s) as (Hp & _ & Hc & _ & Htap & _).
  destruct (idle_steps_fields (length (pass_cells 0 ROWS))
              (globals (st (stage_lock w h s)))) as (Hp' & _ & Hc' & _).
  assert (Hsink : sink (out (loop w h s)) = sink (out (stage_lock w h s))).
  { rewrite <- (sink_timed (out (loop w h s))), Ht. apply sink_timed. }
  split; [| split; [| split; [| split; [| split]]]].
  - rewrite <- sink_timed, Hmt. reflexivity.
  - rewrite <- sink_timed, Hts. reflexivity.
  - exact Hsink.
  - rewrite Hsink, <- sink_timed.
    destruct Htap as [-> | ->]; [left | right]; reflexivity.
  - rewrite Hg, Hp'. exact Hp.
  - rewrite Hg, Hc'. exact Hc.
Qed.

Lemma modifier_alone_sends_nothing_witness :
  val (stage_modifier (single_key_world 5 (Z.to_nat SHIFT)) [] powered_up)
  = SHIFT
  /\ sink (out (loop (single_key_world 5 (Z.to_nat SHIFT)) [] powered_up)) = []
  /\ sink (out (stage_scan (single_key_world 5 (Z.to_nat SHIFT)) []
                  powered_up)) = [].
Proof.
  destruct (modifier_alone_sends_nothing
              (single_key_world 5 (Z.to_nat SHIFT)) [] powered_up
              (shift_world_reads []) eq_refl powered_up_idle)
    as [(_ & Hscan & Hloop & _) _].
  split; [vm_compute; reflexivity | split; [| exact Hscan]].
  rewrite Hloop. vm_compute. reflexivity.
Defined.

(** ** One key held down *)

Lemma pass_split (i0 j0 : nat) :
  (i0 < ROWS)%nat -> (j0 < columnsOf i0)%nat ->
  exists before after,
    pass_cells 0 ROWS = before ++ (i0, j0) :: after
    /\ forallb (fun rc => negb ((fst rc =? i0)%nat && (snd rc =? j0)%nat))
         (before ++ after) = true
    /\ (length before + length after = 42)%nat.
Proof.
  intros Hi Hj.
  exists (firstn (8 * i0 + j0) (pass_cells 0 ROWS)),
         (skipn (S (8 * i0 + j0)) (pass_cells 0 ROWS)).
  do 6 (destruct i0 as [|i0];
        [ do 8 (destruct j0 as [|j0];
                [ first [ exfalso; revert Hj; cbn; lia
                        | vm_compute; repeat split; reflexivity ] | ]);
          exfalso; revert Hj; cbn; lia | ]).
  exfalso. revert Hi. unfold ROWS. lia.
Qed.

Lemma single_key_pass (i0 j0 : nat) :
  (i0 < ROWS)%nat -> (j0 < columnsOf i0)%nat ->
  exists p q, (p + q = 42)%nat /\
    forall modifier g,
      cells_spec (fun r c => (r =? i0)%nat && (c =? j0)%nat) modifier
        (pass_cells 0 ROWS) g
      = (idle_steps q
           (fst (cell_effect modifier (keyAt i0 j0) (idle_steps p g))),
         timed (snd (cell_effect modifier (keyAt i0 j0) (idle_steps p g)))).
Proof.
  intros Hi Hj.
  destruct (pass_split i0 j0 Hi Hj) as (before & after & Hsplit & Hq & Hlen).
  exists (length before), (length after). split; [exact Hlen|].
  intros modifier g. rewrite Hsplit.
  rewrite forallb_app in Hq. apply andb_true_iff in Hq. destruct Hq as [Hb Ha].
  rewrite forallb_forall in Hb, Ha.
  assert (Qb : forall r c, In (r, c) before ->
                 (r =? i0)%nat && (c =? j0)%nat = false).
  { intros r c Hin. apply negb_true_iff. apply (Hb (r, c) Hin). }
  assert (Qa : forall r c, In (r, c) after ->
                 (r =? i0)%nat && (c =? j0)%nat = false).
  { intros r c Hin. apply negb_true_iff. apply (Ha (r, c) Hin). }
  rewrite cells_spec_app.
  rewrite (cells_spec_quiet _ modifier before Qb). cbn [fst snd app].
  cbn [cells_spec]. cbv zeta. unfold cell_spec.
  rewrite !Nat.eqb_refl. cbn [andb fst snd].
  rewrite (cells_spec_quiet _ modifier after Qa). cbn [fst snd].
  rewrite app_nil_r. reflexivity.
Qed.

Lemma timed_modifier_hold (modifier : Z) :
  timed (modifier_hold modifier) = modifier_hold modifier.
Proof.
  unfold modifier_hold.
  destruct (modifier =? SHIFT); [reflexivity|].
  destruct (modifier =? CTRL); [reflexivity|].
  destruct (modifier =? FCTN); reflexivity.
Qed.

Lemma wrap_int_small (z : Z) : -32768 <= z < 32768 -> wrap_int z = z.
Proof.
  intros H. unfold wrap_int. rewrite Z.mod_small by lia. lia.
Qed.

Section Held.
Variables (modifier k : Z) (p q : nat).
Hypothesis pq : (p + q = 42)%nat.
Hypothesis krange : 0 < k < 128.

Let after (g : vars) : vars :=
  idle_steps q (fst (cell_effect modifier k (idle_steps p g))).
Let sent (g : vars) : list event :=
  timed (snd (cell_effect modifier k (idle_steps p g))).

Lemma held_fresh (g : vars) :
  previousKey g <> k
  \/ 10000 <= idlecount g < 4294967296 - 42 ->
  sent g = modifier_hold modifier
           ++ [EKbdPress k; EDelay KBD_DELAY; EKbdReleaseAll]
  /\ held_inv k 0 (after g).
Proof.
  intros Hfresh. unfold sent, after, cell_effect.
  destruct (idle_steps_fields p g) as (Hp & _ & _ & _).
  rewrite Hp.
  replace (negb (k =? previousKey g)
           || (10000 <=? idlecount (idle_steps p g))) with true.
  2: { symmetry. apply orb_true_iff. destruct Hfresh as [Hne | Hidle].
       - left. apply negb_true_iff, Z.eqb_neq. congruence.
       - right. apply Z.leb_le. rewrite idle_steps_small; lia. }
  cbn [fst snd].
  split.
  - rewrite timed_app, timed_modifier_hold. unfold to_uint8.
    rewrite Z.mod_small by lia. reflexivity.
  - destruct (idle_steps_fields q
                {| previousKey := k; currentKey := k; count := 0;
                   idlecount := 0;
                   alphaLock := alphaLock (idle_steps p g) |})
      as (Hp' & _ & Hc' & _).
    unfold held_inv. rewrite Hp', Hc', idle_steps_small; cbn; lia.
Qed.

Lemma held_hold (n : nat) (g : vars) :
  (n < 150)%nat -> held_inv k n g ->
  sent g = [EKbdReleaseAll] /\ held_inv k (S n) (after g).
Proof.
  intros Hn (Hk & Hc & Hi). unfold sent, after, cell_effect.
  destruct (idle_steps_fields p g) as (Hp & _ & Hcnt & _).
  rewrite Hp, Hcnt, Hk, Hc, Z.eqb_refl, idle_steps_small by lia.
  replace (10000 <=? idlecount g + Z.of_nat p) with false
    by (symmetry; apply Z.leb_gt; lia).
  rewrite wrap_int_small by lia.
  replace (150 <? Z.of_nat n + 1) with false
    by (symmetry; apply Z.ltb_ge; lia).
  cbn [negb orb fst snd]. split; [reflexivity|].
  match goal with
  | |- held_inv _ _ (idle_steps q ?g2) =>
      destruct (idle_steps_fields q g2) as (Hp' & _ & Hc' & _);
      unfold held_inv; rewrite Hp', Hc', idle_steps_small; cbn; lia
  end.
Qed.

Lemma held_repeat (g : vars) :
  held_inv k 150 g ->
  sent g = modifier_hold modifier
           ++ [EKbdPress k; EDelay RPT_DELAY; EKbdReleaseAll].
Proof.
  intros (Hk & Hc & Hi). unfold sent, cell_effect.
  destruct (idle_steps_fields p g) as (Hp & _ & Hcnt & _).
  rewrite Hp, Hcnt, Hk, Hc, Z.eqb_refl, idle_steps_small by lia.
  replace (10000 <=? idlecount g + Z.of_nat p) with false
    by (symmetry; apply Z.leb_gt; lia).
  rewrite wrap_int_small by lia.
  cbn [negb orb fst snd Z.of_nat].
  change (150 <? Z.pos (Pos.of_succ_nat 149) + 1) with true. cbv iota.
  cbn [snd]. rewrite timed_app, timed_modifier_hold. unfold to_uint8.
  rewrite Z.mod_small by lia. reflexivity.
Qed.
End Held.

Lemma run_cycles_S (n : nat) w h s :
  run_cycles (S n) w h s
  = mkRes tt (st (nth_cycle n w h s))
      (out (run_cycles n w h s) ++ out (nth_cycle n w h s)).
Proof. reflexivity. Qed.

Section KeyHeld.
Variables (w : world) (i0 j0 : nat) (h0 : list event).
Hypothesis scanned_row : (i0 < ROWS)%nat.
Hypothesis scanned_col : (j0 < columnsOf i0)%nat.
Hypothesis reads :
  matrix_reads w h0 (fun r c => (r =? i0)%nat && (c =? j0)%nat).
Hypothesis enabled : forall h ps, w (h0 ++ h) ps enablePin = HIGH.

Let k := keyAt i0 j0.

(** One cycle from globals [g]: the pass works on the globals the lock
    stage left, which agree with [g] on everything [held_inv] reads. *)
Lemma cycle_pass (h : list event) (s : machine) :
  idle_but (pins s) (ROWS - 1) ->
  exists p q g1,
    (p + q = 42)%nat
    /\ previousKey g1 = previousKey (globals s)
    /\ count g1 = count (globals s)
    /\ idlecount g1 = idlecount (globals s)
    /\ globals (st (loop w (h0 ++ h) s))
       = idle_steps q
           (fst (cell_effect (val (stage_modifier w (h0 ++ h) s)) k
                   (idle_steps p g1)))
    /\ timed (out (stage_scan w (h0 ++ h) s))
       = timed (snd (cell_effect (val (stage_modifier w (h0 ++ h) s)) k
                       (idle_steps p g1)))
    /\ idle_but (pins (st (loop w (h0 ++ h) s))) (ROWS - 1).
Proof.
  intros Hidle.
  destruct (single_key_pass i0 j0 scanned_row scanned_col)
    as (p & q & Hpq & Hpass).
  destruct (cycle_spec w _ (h0 ++ h) s (matrix_reads_later w h0 h _ reads)
              (enabled h (pins s)) Hidle) as (Hg & _ & Ht).
  destruct (stage_lock_facts w (h0 ++ h) s) as (Hp & _ & Hc & Hi & _ & _).
  destruct (cycle_drivers_spec w (h0 ++ h) s (enabled h (pins s)))
    as [_ Hpins].
  exists p, q, (globals (st (stage_lock w (h0 ++ h) s))).
  rewrite Hpass in Hg, Ht. cbn [fst snd] in Hg, Ht.
  split; [exact Hpq|]. split; [exact Hp|]. split; [exact Hc|].
  split; [exact Hi|]. split; [exact Hg|]. split; [exact Ht|].
  rewrite Hpins. apply cycle_keeps_idle. exact Hidle.
Qed.

Lemma held_inv_transfer (n : nat) (g g1 : vars) :
  previousKey g1 = previousKey g -> count g1 = count g ->
  idlecount g1 = idlecount g -> held_inv k n g -> held_inv k n g1.
Proof.
  unfold held_inv. intros -> -> ->. auto.
Qed.

Lemma key_range : 0 < k < 128.
Proof. apply keyAt_ascii; assumption. Qed.

Lemma cycle_fresh (h : list event) (s : machine) :
  idle_but (pins s) (ROWS - 1) ->
  previousKey (globals s) <> k
  \/ 10000 <= idlecount (globals s) < 4294967296 - 42 ->
  timed (out (stage_scan w (h0 ++ h) s))
  = modifier_hold (val (stage_modifier w (h0 ++ h) s))
    ++ [EKbdPress k; EDelay KBD_DELAY; EKbdReleaseAll]
  /\ held_inv k 0 (globals (st (loop w (h0 ++ h) s)))
  /\ idle_but (pins (st (loop w (h0 ++ h) s))) (ROWS - 1).
Proof.
  intros Hidle Hne.
  destruct (cycle_pass h s Hidle)
    as (p & q & g1 & Hpq & Hp & Hc & Hi & Hg & Ht & Hidle').
  rewrite <- Hp, <- Hi in Hne.
  destruct (held_fresh (val (stage_modifier w (h0 ++ h) s)) k p q Hpq
              key_range g1 Hne) as [Hs Hinv].
  rewrite Ht, Hg. auto.
Qed.

Lemma cycle_hold (n : nat) (h : list event) (s : machine) :
  idle_but (pins s) (ROWS - 1) ->
  (n < 150)%nat -> held_inv k n (globals s) ->
  timed (out (stage_scan w (h0 ++ h) s)) = [EKbdReleaseAll]
  /\ held_inv k (S n) (globals (st (loop w (h0 ++ h) s)))
  /\ idle_but (pins (st (loop w (h0 ++ h) s))) (ROWS - 1).
Proof.
  intros Hidle Hn Hinv.
  destruct (cycle_pass h s Hidle)
    as (p & q & g1 & Hpq & Hp & Hc & Hi & Hg & Ht & Hidle').
  pose proof (held_inv_transfer n (globals s) g1 Hp Hc Hi Hinv) as Hinv1.
  destruct (held_hold (val (stage_modifier w (h0 ++ h) s)) k p q Hpq n g1 Hn
              Hinv1) as [Hs Hinv'].
  rewrite Ht, Hg. auto.
Qed.

Lemma cycle_repeat (h : list event) (s : machine) :
  idle_but (pins s) (ROWS - 1) ->
  held_inv k 150 (globals s) ->
  timed (out (stage_scan w (h0 ++ h) s))
  = modifier_hold (val (stage_modifier w (h0 ++ h) s))
    ++ [EKbdPress k; EDelay RPT_DELAY; EKbdReleaseAll].
Proof.
  intros Hidle Hinv.
  destruct (cycle_pass h s Hidle)
    as (p & q & g1 & Hpq & Hp & Hc & Hi & Hg & Ht & Hidle').
  pose proof (held_inv_transfer 150 (globals s) g1 Hp Hc Hi Hinv) as Hinv1.
  rewrite Ht.
  apply (held_repeat (val (stage_modifier w (h0 ++ h) s)) k p q Hpq key_range
           g1 Hinv1).
Qed.

(** After the cycle of the fresh press and [n] more cycles. *)
Lemma held_after_cycles (s : machine) :
  idle_but (pins s) (ROWS - 1) ->
  previousKey (globals s) <> k
  \/ 10000 <= idlecount (globals s) < 4294967296 - 42 ->
  forall n, (n <= 150)%nat ->
    held_inv k n (globals (st (run_cycles (S n) w h0 s)))
    /\ idle_but (pins (st (run_cycles (S n) w h0 s))) (ROWS - 1).
Proof.
  intros Hidle Hne. induction n as [|n IH]; intros Hn.
  - rewrite run_cycles_S. proj. unfold nth_cycle.
    change (run_cycles 0 w h0 s) with (mkRes tt s []). proj.
    destruct (cycle_fresh [] s Hidle Hne) as (_ & Hinv & Hidle').
    auto.
  - destruct (IH ltac:(lia)) as [Hinv Hidle'].
    rewrite run_cycles_S. proj. unfold nth_cycle.
    destruct (cycle_hold n (out (run_cycles (S n) w h0 s))
                (st (run_cycles (S n) w h0 s)) Hidle' ltac:(lia) Hinv)
      as (_ & Hinv' & Hidle'').
    auto.
Qed.
End KeyHeld.

Lemma run_cycles_idle (w : world) (h : list event) (s : machine) :
  (forall h' ps, w (h ++ h') ps enablePin = HIGH) ->
  idle_but (pins s) (ROWS - 1) ->
  forall n, idle_but (pins (st (run_cycles n w h s))) (ROWS - 1).
Proof.
  intros Hen Hidle. induction n as [|n IH]; [exact Hidle|].
  rewrite run_cycles_S. proj. unfold nth_cycle.
  destruct (cycle_drivers_spec w (h ++ out (run_cycles n w h s))
              (st (run_cycles n w h s)) (Hen _ _)) as [_ Hp].
  rewrite Hp. apply cycle_keeps_idle. exact IH.
Qed.

(** ** Typematic repeat (C2) *)

(** C2: with exactly one key held down from a fresh press on (a key
    other than [previousKey], or a press after the idle timeout), the
    cycle of the fresh press sends press(key) with the KBD_DELAY wait and
    leaves [count = 0]; each of the next 150 cycles sends only
    releaseAll() from the pass and leaves [count] equal to its number;
    the 151st cycle after the fresh press, where [count] becomes 151 and
    so exceeds 150 for the first time, sends exactly one repeat emission:
    modifier hold (if any), press(key), the RPT_DELAY wait, releaseAll().
    The only other sink calls of a cycle are the caps-lock tap of the
    lock detector, if any.  No idle timeout can interfere: the 42 other
    cells add 42 to [idlecount] per cycle, which stays below 10000. *)
Theorem typematic_repeat_threshold (w : world) (h : list event) (s : machine)
    (i0 j0 : nat) :
  (i0 < ROWS)%nat -> (j0 < columnsOf i0)%nat ->
  matrix_reads w h (fun r c => (r =? i0)%nat && (c =? j0)%nat) ->
  (forall h' ps, w (h ++ h') ps enablePin = HIGH) ->
  idle_but (pins s) (ROWS - 1) ->
  previousKey (globals s) <> keyAt i0 j0
  \/ 10000 <= idlecount (globals s) < 4294967296 - 42 ->
  (timed (out (nth_scan 0 w h s))
   = modifier_hold (nth_modifier 0 w h s)
     ++ [EKbdPress (keyAt i0 j0); EDelay KBD_DELAY; EKbdReleaseAll]
   /\ count (globals (st (nth_cycle 0 w h s))) = 0)
  /\ (forall n, (1 <= n <= 150)%nat ->
        timed (out (nth_scan n w h s)) = [EKbdReleaseAll]
        /\ count (globals (st (nth_cycle n w h s))) = Z.of_nat n)
  /\ timed (out (nth_scan 151 w h s))
     = modifier_hold (nth_modifier 151 w h s)
       ++ [EKbdPress (keyAt i0 j0); EDelay RPT_DELAY; EKbdReleaseAll]
  /\ (forall n,
        timed (out (nth_cycle n w h s))
        = timed (out (nth_lock n w h s)) ++ timed (out (nth_scan n w h s))
        /\ (timed (out (nth_lock n w h s)) = []
            \/ timed (out (nth_lock n w h s)) = caps_tap)).
Proof.
  intros Hi Hj Hw Hen Hidle Hne.
  pose proof (held_after_cycles w i0 j0 h Hi Hj Hw Hen s Hidle Hne) as Hrun.
  split; [| split; [| split]].
  - unfold nth_scan, nth_modifier, nth_cycle.
    change (run_cycles 0 w h s) with (mkRes tt s []). proj.
    destruct (cycle_fresh w i0 j0 h Hi Hj Hw Hen [] s Hidle Hne)
      as (Hs & (_ & Hc & _) & _).
    split; [exact Hs | exact Hc].
  - intros n Hn. destruct n as [|n]; [lia|].
    destruct (Hrun n ltac:(lia)) as [Hinv Hidle'].
    unfold nth_scan, nth_cycle.
    destruct (cycle_hold w i0 j0 h Hi Hj Hw Hen n
                (out (run_cycles (S n) w h s))
                (st (run_cycles (S n) w h s)) Hidle' ltac:(lia) Hinv)
      as (Hs & (_ & Hc & _) & _).
    split; [exact Hs | exact Hc].
  - destruct (Hrun 150%nat ltac:(lia)) as [Hinv Hidle'].
    unfold nth_scan, nth_modifier.
    apply (cycle_repeat w i0 j0 h Hi Hj Hw Hen
             (out (run_cycles 151 w h s))
             (st (run_cycles 151 w h s)) Hidle' Hinv).
  - intros n. unfold nth_cycle, nth_lock, nth_scan.
    pose proof (run_cycles_idle w h s Hen Hidle n) as Hidle'.
    destruct (cycle_spec w _ (h ++ out (run_cycles n w h s))
                (st (run_cycles n w h s))
                (matrix_reads_later w h _ _ Hw) (Hen _ _) Hidle')
      as (_ & Ht & Hts).
    destruct (stage_lock_facts w (h ++ out (run_cycles n w h s))
                (st (run_cycles n w h s))) as (_ & _ & _ & _ & Htap & _).
    rewrite Ht, Hts. split; [reflexivity | exact Htap].
Qed.

Lemma typematic_repeat_threshold_witness :
  timed (out (nth_scan 151 (single_key_world 0 6) [] powered_up))
  = modifier_hold (nth_modifier 151 (single_key_world 0 6) [] powered_up)
    ++ [EKbdPress (ch "q"); EDelay RPT_DELAY; EKbdReleaseAll].
Proof.
  refine (proj1 (proj2 (proj2
            (typematic_repeat_threshold (single_key_world 0 6) [] powered_up
               0 6 _ _ (single_key_world_reads 0 6 [] _ _) _
               powered_up_idle _)))).
  - unfold ROWS. lia.
  - cbn. lia.
  - unfold ROWS. lia.
  - cbn. lia.
  - intros h' ps. reflexivity.
  - left. vm_compute. discriminate.
Defined.

(** * Further properties of the sketch *)

(** ** [setup] *)

Lemma replay_untouched (tr : list event) (p : Z) :
  (forall e, In e tr -> target e <> Some p) ->
  forall ps, replay tr ps p = ps p.
Proof.
  induction tr as [|e tr IH]; intros Ht ps; [reflexivity|].
  unfold replay in *. cbn [fold_left]. rewrite IH.
  - assert (He := Ht e (or_introl eq_refl)).
    destruct e; cbn [apply_event target] in *; try reflexivity;
      apply upd_other; congruence.
  - intros e' Hin. apply Ht. right. exact Hin.
Qed.

Lemma setup_run (w : world) (h : list event) (s : machine) :
  setup w h s
  = mkRes tt {| globals := globals s; pins := replay setup_events (pins s) |}
      setup_events.
Proof. reflexivity. Qed.

(** [setup] does the same whatever the world and the state: it reads
    nothing, leaves the globals alone, makes the enable line, the eight
    columns and the lock line pulled-up inputs and rows 0..ROWS-2
    floating inputs, leaves the last row asserted as the only driven
    line, touches no other pin, and its only call to the keyboard is
    [Keyboard.begin]. *)
Theorem setup_configures (w : world) (h : list event) (s : machine) :
  let ps := pins (st (setup w h s)) in
  out (setup w h s) = setup_events
  /\ globals (st (setup w h s)) = globals s
  /\ sink (out (setup w h s)) = [EKbdBegin]
  /\ ps enablePin = {| pmode := INPUT_PULLUP; plevel := HIGH |}
  /\ ps alphaLockRowPin = {| pmode := INPUT_PULLUP; plevel := HIGH |}
  /\ (forall c, (c < COLS)%nat ->
        ps (colPin c) = {| pmode := INPUT_PULLUP; plevel := HIGH |})
  /\ (forall r, (r < ROWS - 1)%nat ->
        ps (rowPin r) = {| pmode := INPUT; plevel := LOW |})
  /\ ps (rowPin (ROWS - 1)) = {| pmode := OUTPUT; plevel := LOW |}
  /\ row_active ps (ROWS - 1)
  /\ (forall p, ~ In p used_pins -> ps p = pins s p).
Proof.
  cbv zeta. rewrite setup_run. proj. cbn [globals pins].
  assert (Hcols : forall c, (c < COLS)%nat ->
            replay setup_events (pins s) (colPin c)
            = {| pmode := INPUT_PULLUP; plevel := HIGH |}).
  { intros c Hc.
    do 8 (destruct c as [|c]; [vm_compute; reflexivity|]).
    exfalso. revert Hc. unfold COLS. lia. }
  assert (Hrows : forall r, (r < ROWS - 1)%nat ->
            replay setup_events (pins s) (rowPin r)
            = {| pmode := INPUT; plevel := LOW |}).
  { intros r Hr.
    do 5 (destruct r as [|r]; [vm_compute; reflexivity|]).
    exfalso. revert Hr. unfold ROWS. cbn. lia. }
  assert (Hlast : replay setup_events (pins s) (rowPin (ROWS - 1))
                  = {| pmode := OUTPUT; plevel := LOW |})
    by (vm_compute; reflexivity).
  assert (Hlock : replay setup_events (pins s) alphaLockRowPin
                  = {| pmode := INPUT_PULLUP; plevel := HIGH |})
    by (vm_compute; reflexivity).
  split; [reflexivity|]. split; [reflexivity|].
  split; [vm_compute; reflexivity|].
  split; [vm_compute; reflexivity|].
  split; [exact Hlock|]. split; [exact Hcols|]. split; [exact Hrows|].
  split; [exact Hlast|]. split; [split; [| split]|].
  - rewrite Hlast. reflexivity.
  - intros r Hr Hne. rewrite Hrows; [reflexivity|].
    unfold ROWS in *. cbn in *. lia.
  - rewrite Hlock. reflexivity.
  - intros p Hp. apply replay_untouched.
    clear Hcols Hrows Hlast Hlock. intros e He Ht. apply Hp.
    unfold setup_events in He. cbn in He.
    unfold used_pins, colPins, rowPins. cbn [app In].
    repeat (destruct He as [He | He];
            [subst e; cbn in Ht; inversion Ht; subst p; tauto |]).
    destruct He.
Qed.

(** ** The key table *)

Lemma in_pass_cells (r c : nat) :
  scanned r c <-> In (r, c) (pass_cells 0 ROWS).
Proof.
  unfold scanned, pass_cells, row_cells. rewrite in_flat_map. split.
  - intros [Hr Hc]. exists r. split.
    + apply in_seq. lia.
    + apply in_map. apply in_seq. lia.
  - intros (r' & Hr' & Hin). apply in_seq in Hr'.
    apply in_map_iff in Hin. destruct Hin as (c' & E & Hc').
    apply in_seq in Hc'. inversion E; subst. lia.
Qed.

Lemma nodupb_inj {A} (f : A -> Z) (l : list A) :
  nodupb (map f l) = true ->
  forall x y, In x l -> In y l -> f x = f y -> x = y.
Proof.
  induction l as [|a l IH]; intros Hn x y Hx Hy E; [destruct Hx|].
  cbn [map nodupb] in Hn. apply andb_true_iff in Hn. destruct Hn as [Ha Hl].
  apply negb_true_iff in Ha.
  assert (Hnot : forall z, In z l -> f a <> f z).
  { intros z Hz Ez.
    assert (existsb (Z.eqb (f a)) (map f l) = true); [|congruence].
    apply existsb_exists. exists (f z). split.
    - apply in_map. exact Hz.
    - apply Z.eqb_eq. exact Ez. }
  destruct Hx as [<- | Hx], Hy as [<- | Hy].
  - reflexivity.
  - exfalso. apply (Hnot y Hy E).
  - exfalso. apply (Hnot x Hx). symmetry. exact E.
  - apply (IH Hl x y Hx Hy E).
Qed.

Lemma scanned_keys_nodup :
  nodupb (map (fun rc => keyAt (fst rc) (snd rc)) (pass_cells 0 ROWS)) = true.
Proof. vm_compute. reflexivity. Qed.

(** The table gives every scanned cell a key of its own: a non-zero
    ASCII code, passed unchanged through the [uint8_t] parameter of
    [Keyboard.press], different from the modifier and caps-lock codes,
    and different from the key of every other scanned cell.  No row has
    more than COLS columns; the modifier columns of the last row lie
    beyond its scanned columns, where the table holds 0. *)
Theorem key_table_sound :
  (forall r c, scanned r c ->
     0 < keyAt r c < 128
     /\ to_uint8 (keyAt r c) = keyAt r c
     /\ ~ In (keyAt r c) special_keys)
  /\ (forall r c r' c', scanned r c -> scanned r' c' ->
        keyAt r c = keyAt r' c' -> r = r' /\ c = c')
  /\ (forall r, (columnsOf r <= COLS)%nat)
  /\ (forall m, In m [SHIFT; CTRL; FCTN] ->
        (columnsOf (ROWS - 1) <= Z.to_nat m < COLS)%nat
        /\ keyAt (ROWS - 1) (Z.to_nat m) = 0).
Proof.
  split; [| split; [| split]].
  - intros r c [Hr Hc]. pose proof (keyAt_ascii r c Hr Hc) as Hk.
    split; [exact Hk|]. split; [apply to_uint8_key; assumption|].
    unfold special_keys, KEY_LEFT_SHIFT, KEY_LEFT_CTRL, KEY_LEFT_ALT,
      KEY_CAPS_LOCK. cbn [In]. lia.
  - intros r c r' c' H H' E.
    apply in_pass_cells in H. apply in_pass_cells in H'.
    pose proof (nodupb_inj (fun rc => keyAt (fst rc) (snd rc))
                  (pass_cells 0 ROWS) scanned_keys_nodup
                  (r, c) (r', c') H H' E) as Heq.
    inversion Heq. auto.
  - apply columnsOf_le.
  - intros m Hm. cbn [In] in Hm.
    destruct Hm as [<- | [<- | [<- | []]]]; vm_compute; repeat split; lia.
Qed.

(** ** The modifier detector in any world *)


(** ** Row activation *)

(** [scan_row previousRow currentRow] leaves [currentRow] asserted, also
    when both are the same row, returns a different [previousRow] to a
    floating input, touches no other pin, sends nothing to the keyboard
    and leaves the globals alone.  If no line but [previousRow] was
    driven before, [currentRow] is the only driven line afterwards. *)
Theorem scan_row_frame (w : world) (h : list event) (s : machine)
    (previousRow currentRow : nat) :
  (previousRow < ROWS)%nat -> (currentRow < ROWS)%nat ->
  let r := scan_row previousRow currentRow w h s in
  globals (st r) = globals s
  /\ sink (out r) = []
  /\ pins (st r) (rowPin currentRow) = {| pmode := OUTPUT; plevel := LOW |}
  /\ (previousRow <> currentRow ->
      pins (st r) (rowPin previousRow) = {| pmode := INPUT; plevel := LOW |})
  /\ (forall p, p <> rowPin previousRow -> p <> rowPin currentRow ->
        pins (st r) p = pins s p)
  /\ (idle_but (pins s) previousRow -> row_active (pins (st r)) currentRow).
Proof.
  intros Hp Hc. cbv zeta. rewrite scan_row_run. proj. cbn [globals pins].
  unfold row_drivers, replay. cbn [fold_left apply_event].
  split; [reflexivity|]. split; [reflexivity|].
  split; [rewrite !upd_same; reflexivity|].
  split; [| split].
  - intros Hne.
    assert (Hpin : rowPin previousRow <> rowPin currentRow).
    { intros E. apply Hne. apply (rowPin_inj _ _ Hp Hc E). }
    rewrite !(upd_other (rowPin currentRow)) by exact Hpin.
    rewrite upd_same. reflexivity.
  - intros p Hp1 Hp2. rewrite !upd_other by assumption. reflexivity.
  - intros Hidle.
    apply (scan_row_active (pins s) previousRow currentRow Hp Hc Hidle).
Qed.

Lemma scan_row_frame_witness :
  row_active (pins (st (scan_row 5 0 (fun _ _ _ => HIGH) [] powered_up))) 0.
Proof.
  apply (scan_row_frame (fun _ _ _ => HIGH) [] powered_up 5 0).
  - unfold ROWS. lia.
  - unfold ROWS. lia.
  - exact powered_up_idle.
Defined.

(** ** The lock probe *)



(** After every probe the stored lock state is the sampled one; so a
    second probe that samples the same level sends nothing and changes
    no global: one tap per change of the switch. *)
Theorem lock_probe_settles (w : world) (h : list event) (s : machine) :
  let r1 := checkAlphaLock w h s in
  let r2 := checkAlphaLock w (h ++ out r1) (st r1) in
  lockAsserted (globals (st r1)) = negb (lock_sample w h s)
  /\ (lock_sample w (h ++ out r1) (st r1) = lock_sample w h s ->
      sink (out r2) = [] /\ globals (st r2) = globals (st r1))
  /\ (lock_sample w (h ++ out r1) (st r1) <> lock_sample w h s ->
      sink (out r2) = caps_tap).
Proof.
  cbv zeta.
  assert (Hstored : lockAsserted (globals (st (checkAlphaLock w h s)))
                    = negb (lock_sample w h s)).
  { rewrite checkAlphaLock_run. cbv zeta. proj. cbn [globals].
    unfold lockAsserted.
    destruct (lock_sample w h s);
      destruct (alphaLock (globals s) =? 0) eqn:E;
      cbn [negb xorb set_alphaLock alphaLock]; rewrite ?E; reflexivity. }
  split; [exact Hstored|].
  set (r1 := checkAlphaLock w h s) in *.
  rewrite (checkAlphaLock_run w (h ++ out r1) (st r1)). cbv zeta. proj.
  cbn [globals]. rewrite Hstored.
  split.
  - intros ->. rewrite xorb_nilpotent. split; reflexivity.
  - intros Hne.
    replace (xorb (negb (lock_sample w (h ++ out r1) (st r1)))
               (negb (lock_sample w h s))) with true.
    + destruct (lock_sample w (h ++ out r1) (st r1)); reflexivity.
    + destruct (lock_sample w (h ++ out r1) (st r1)),
        (lock_sample w h s); try reflexivity; exfalso; apply Hne; reflexivity.
Qed.

(** ** Properties kept by every step of a cycle

    A relation between the globals before, the events sent and the
    globals after that holds for silent steps, for the lock probe and
    for every scanned cell, and that composes, holds for a whole cycle
    and for any number of cycles, in every world. *)

Section Steps.
Variable Q : vars -> list event -> vars -> Prop.
Hypothesis Q_quiet : forall g t, sink t = [] -> Q g t g.
Hypothesis Q_seq : forall g1 t1 g2 t2 g3,
  Q g1 t1 g2 -> Q g2 t2 g3 -> Q g1 (t1 ++ t2) g3.
Hypothesis Q_lock : forall w h s,
  Q (globals s) (out (checkAlphaLock w h s))
    (globals (st (checkAlphaLock w h s))).
Hypothesis Q_cell : forall modifier i j w h s,
  (i < ROWS)%nat -> (j < columnsOf i)%nat ->
  Q (globals s) (out (scan_cell modifier i j w h s))
    (globals (st (scan_cell modifier i j w h s))).

Lemma columns_steps (modifier : Z) (i : nat) (w : world) :
  (i < ROWS)%nat ->
  forall n from h s, (from + n <= columnsOf i)%nat ->
    Q (globals s) (out (for_range n from (scan_cell modifier i) w h s))
      (globals (st (for_range n from (scan_cell modifier i) w h s))).
Proof.
  intros Hi. induction n as [|n IH]; intros from h s Hn.
  - apply Q_quiet. reflexivity.
  - rewrite for_range_S. proj.
    eapply Q_seq.
    + apply Q_cell; [exact Hi | lia].
    + apply IH. lia.
Qed.

Lemma rows_steps (modifier : Z) (w : world) :
  forall n i previousRow h s, (i + n <= ROWS)%nat ->
    Q (globals s) (out (scan_rows n i previousRow modifier w h s))
      (globals (st (scan_rows n i previousRow modifier w h s))).
Proof.
  induction n as [|n IH]; intros i previousRow h s Hn.
  - apply Q_quiet. reflexivity.
  - rewrite scan_rows_S. cbv zeta. proj.
    eapply Q_seq; [apply Q_quiet; reflexivity|].
    eapply Q_seq.
    + apply (columns_steps modifier i w ltac:(lia) (columnsOf i) 0%nat
               (h ++ row_drivers previousRow i)
               {| globals := globals s;
                  pins := replay (row_drivers previousRow i) (pins s) |}).
      lia.
    + apply IH. lia.
Qed.

Lemma loop_steps (w : world) (h : list event) (s : machine) :
  Q (globals s) (out (loop w h s)) (globals (st (loop w h s))).
Proof.
  destruct (w h (pins s) enablePin) eqn:Hr.
  - rewrite (loop_enabled w h s Hr). proj.
    change (EDigitalRead enablePin HIGH :: ?l)
      with ([EDigitalRead enablePin HIGH] ++ l).
    eapply Q_seq; [apply Q_quiet; reflexivity|].
    eapply Q_seq.
    + apply Q_quiet.
      destruct (modifierPressed_passive w
                  (h ++ [EDigitalRead enablePin HIGH]) s) as (_ & _ & Ht).
      fold (stage_modifier w h s) in Ht.
      rewrite <- sink_timed, Ht. reflexivity.
    + eapply Q_seq.
      * unfold stage_lock. apply Q_lock.
      * unfold stage_scan. apply rows_steps. lia.
  - rewrite (loop_disabled w h s Hr). proj. apply Q_quiet. reflexivity.
Qed.

Lemma run_cycles_steps (w : world) (h : list event) (s : machine) (n : nat) :
  Q (globals s) (out (run_cycles n w h s))
    (globals (st (run_cycles n w h s))).
Proof.
  induction n as [|n IH].
  - apply Q_quiet. reflexivity.
  - rewrite run_cycles_S. proj. eapply Q_seq; [exact IH|].
    unfold nth_cycle. apply loop_steps.
Qed.
End Steps.

(** ** Invariants of the globals *)

Lemma wrap_int_range (z : Z) : -32768 <= wrap_int z < 32768.
Proof.
  unfold wrap_int. pose proof (Z.mod_pos_bound (z + 32768) 65536 ltac:(lia)).
  lia.
Qed.

Lemma wrap_ulong_range (z : Z) : 0 <= wrap_ulong z < 4294967296.
Proof. unfold wrap_ulong. apply Z.mod_pos_bound. lia. Qed.

Lemma cell_keeps_globals_ok (modifier : Z) (i j : nat) w h s :
  (i < ROWS)%nat -> (j < columnsOf i)%nat ->
  globals_ok (globals s) ->
  globals_ok (globals (st (scan_cell modifier i j w h s))).
Proof.
  intros Hi Hj (Hl & Hidle & Hc & Hk & Hp).
  destruct (w h (pins s) (colPin j)) eqn:Hr.
  - rewrite (scan_cell_idle w h s modifier i j Hr). proj. cbn [globals].
    unfold globals_ok.
    cbn [set_idlecount alphaLock idlecount count previousKey currentKey].
    pose proof (wrap_ulong_range (idlecount (globals s) + 1)). tauto.
  - rewrite (scan_cell_asserted w h s modifier i j Hr). proj. cbn [globals].
    assert (Hkey : keyAt i j = 0
                   \/ exists r c, scanned r c /\ keyAt i j = keyAt r c).
    { right. exists i, j. split; [split; assumption | reflexivity]. }
    pose proof (wrap_int_range (count (globals s) + 1)).
    unfold cell_effect, globals_ok.
    destruct (negb (keyAt i j =? previousKey (globals s))
              || (10000 <=? idlecount (globals s)));
      [| destruct (150 <? wrap_int (count (globals s) + 1))];
      cbn [fst alphaLock idlecount count previousKey currentKey];
      repeat split; try assumption; try lia; tauto.
Qed.

Lemma lock_keeps_globals_ok w h s :
  globals_ok (globals s) -> globals_ok (globals (st (checkAlphaLock w h s))).
Proof.
  intros (Hl & Hrest). rewrite checkAlphaLock_run. cbv zeta. proj.
  cbn [globals].
  destruct (xorb _ _); [| split; assumption].
  unfold globals_ok in *.
  cbn [set_alphaLock alphaLock idlecount count previousKey currentKey].
  split; [| exact Hrest].
  destruct (lock_sample w h s); tauto.
Qed.

(** From well-formed globals, as at power-on, a call of [loop] and any
    number of calls lead to well-formed globals in every world: the lock
    flag stays 0 or 1, [idlecount] and [count] stay in the range of
    their types, [currentKey] equals [previousKey] between cells, and
    both hold 0 or the key of a scanned cell. *)
Theorem globals_invariant (w : world) (h : list event) (s : machine)
    (n : nat) :
  globals_ok (globals s) ->
  globals_ok (globals (st (loop w h s)))
  /\ globals_ok (globals (st (run_cycles n w h s))).
Proof.
  intros Hok.
  assert (Hq : forall g t, sink t = [] -> globals_ok g -> globals_ok g)
    by auto.
  assert (Hs : forall g1 (t1 : list event) g2 (t2 : list event) g3,
            (globals_ok g1 -> globals_ok g2) ->
            (globals_ok g2 -> globals_ok g3) ->
            globals_ok g1 -> globals_ok g3) by auto.
  split.
  - apply (loop_steps (fun g _ g' => globals_ok g -> globals_ok g') Hq Hs
             lock_keeps_globals_ok
             (fun m i j w h s Hi Hj => cell_keeps_globals_ok m i j w h s Hi Hj)
             w h s Hok).
  - apply (run_cycles_steps (fun g _ g' => globals_ok g -> globals_ok g')
             Hq Hs lock_keeps_globals_ok
             (fun m i j w h s Hi Hj => cell_keeps_globals_ok m i j w h s Hi Hj)
             w h s n Hok).
Qed.

Lemma powered_up_globals_ok : globals_ok (globals powered_up).
Proof.
  unfold globals_ok. vm_compute.
  repeat split; try discriminate; try (left; reflexivity).
Qed.

Lemma globals_invariant_witness :
  globals_ok (globals (st (run_cycles 3 (single_key_world 0 6) [] powered_up))).
Proof.
  apply (globals_invariant (single_key_world 0 6) [] powered_up 3
           powered_up_globals_ok).
Defined.

(** ** What reaches the keyboard *)

Lemma held_after_app (t1 t2 : list event) (held : list Z) :
  held_after (t1 ++ t2) held = held_after t2 (held_after t1 held).
Proof. unfold held_after. apply fold_left_app. Qed.

Lemma held_after_sink (tr : list event) :
  forall held, held_after (sink tr) held = held_after tr held.
Proof.
  induction tr as [|e tr IH]; intros held; [reflexivity|].
  unfold sink, held_after in *. cbn [filter].
  destruct e; cbn [is_sink fold_left sink_step]; apply IH.
Qed.

Lemma checkAlphaLock_sink w h s :
  sink (out (checkAlphaLock w h s)) = []
  \/ sink (out (checkAlphaLock w h s)) = caps_tap.
Proof.
  rewrite checkAlphaLock_run. cbv zeta. proj.
  destruct (xorb _ _); [right | left]; reflexivity.
Qed.

Lemma lock_releases w h s :
  held_after (out (checkAlphaLock w h s)) [] = [].
Proof.
  rewrite <- held_after_sink.
  destruct (checkAlphaLock_sink w h s) as [-> | ->]; reflexivity.
Qed.

Lemma cell_releases (modifier : Z) (i j : nat) w h s :
  held_after (out (scan_cell modifier i j w h s)) [] = [].
Proof.
  rewrite <- held_after_sink.
  destruct (scan_cell_sink modifier i j w h s) as [-> | [-> | ->]];
    try reflexivity.
  change [EKbdPress (to_uint8 (keyAt i j)); EKbdReleaseAll]
    with ([EKbdPress (to_uint8 (keyAt i j))] ++ [EKbdReleaseAll]).
  rewrite app_assoc. apply held_after_release_all.
Qed.

Lemma sendable_quiet (tr : list event) : sink tr = [] -> Forall sendable tr.
Proof.
  induction tr as [|e tr IH]; intros Hs; [constructor|].
  unfold sink in *. cbn [filter] in Hs.
  destruct e; cbn [is_sink] in Hs; try discriminate;
    (constructor; [exact I | apply IH; exact Hs]).
Qed.

Lemma sendable_modifier_hold (modifier : Z) :
  Forall sendable (modifier_hold modifier).
Proof.
  unfold modifier_hold.
  destruct (modifier =? SHIFT);
    [| destruct (modifier =? CTRL); [| destruct (modifier =? FCTN)]];
    try constructor; try constructor; cbn; tauto.
Qed.

Lemma cell_sendable (modifier : Z) (i j : nat) w h s :
  (i < ROWS)%nat -> (j < columnsOf i)%nat ->
  Forall sendable (out (scan_cell modifier i j w h s)).
Proof.
  intros Hi Hj. destruct (w h (pins s) (colPin j)) eqn:Hr.
  - rewrite (scan_cell_idle w h s modifier i j Hr). proj.
    constructor; [exact I | constructor].
  - rewrite (scan_cell_asserted w h s modifier i j Hr). proj.
    constructor; [exact I|].
    assert (Hpress : sendable (EKbdPress (to_uint8 (keyAt i j)))).
    { cbn. right. exists i, j. split; [split; assumption|].
      apply to_uint8_key; assumption. }
    unfold cell_effect.
    destruct (negb (keyAt i j =? previousKey (globals s))
              || (10000 <=? idlecount (globals s)));
      [| destruct (150 <? wrap_int (count (globals s) + 1))]; cbn [snd].
    + apply Forall_app. split; [apply sendable_modifier_hold|].
      constructor; [exact Hpress|]. repeat (constructor; [exact I|]).
      constructor.
    + apply Forall_app. split; [apply sendable_modifier_hold|].
      constructor; [exact Hpress|]. repeat (constructor; [exact I|]).
      constructor.
    + repeat (constructor; [exact I|]). constructor.
Qed.

Lemma lock_sendable w h s : Forall sendable (out (checkAlphaLock w h s)).
Proof.
  rewrite checkAlphaLock_run. cbv zeta. proj.
  apply Forall_app. split; [repeat (constructor; [exact I|]); constructor|].
  apply Forall_app. split; [repeat (constructor; [exact I|]); constructor|].
  destruct (xorb _ _); [| constructor].
  constructor; [cbn; tauto|]. constructor; [reflexivity|].
  constructor; [exact I | constructor].
Qed.

(** In every world, whatever is read, [n] calls of [loop] started with no
    key held at the keyboard end with no key held: every press is
    followed by releaseAll() or, for caps lock, by its release.  The
    only keys ever pressed are keys of scanned cells and the four
    special keys, the only key released by name is caps lock, and
    [Keyboard.begin] is not called again. *)
Theorem no_key_left_held (w : world) (h : list event) (s : machine)
    (n : nat) :
  held_after (out (loop w h s)) [] = []
  /\ held_after (out (run_cycles n w h s)) [] = []
  /\ Forall sendable (out (loop w h s))
  /\ Forall sendable (out (run_cycles n w h s)).
Proof.
  assert (Hq : forall (g : vars) t, sink t = [] -> held_after t [] = []).
  { intros g t Ht. rewrite <- held_after_sink, Ht. reflexivity. }
  assert (Hs : forall (g1 : vars) t1 (g2 : vars) t2 (g3 : vars),
            held_after t1 [] = [] -> held_after t2 [] = [] ->
            held_after (t1 ++ t2) [] = []).
  { intros g1 t1 g2 t2 g3 H1 H2. rewrite held_after_app, H1. exact H2. }
  assert (Hq' : forall (g : vars) t, sink t = [] -> Forall sendable t).
  { intros g t. apply sendable_quiet. }
  assert (Hs' : forall (g1 : vars) t1 (g2 : vars) t2 (g3 : vars),
            Forall sendable t1 -> Forall sendable t2 ->
            Forall sendable (t1 ++ t2)).
  { intros g1 t1 g2 t2 g3 H1 H2. apply Forall_app. split; assumption. }
  split; [| split; [| split]].
  - apply (loop_steps (fun _ t _ => held_after t [] = []) Hq Hs
             lock_releases
             (fun m i j w h s _ _ => cell_releases m i j w h s)).
  - apply (run_cycles_steps (fun _ t _ => held_after t [] = []) Hq Hs
             lock_releases
             (fun m i j w h s _ _ => cell_releases m i j w h s)).
  - apply (loop_steps (fun _ t _ => Forall sendable t) Hq' Hs'
             lock_sendable cell_sendable).
  - apply (run_cycles_steps (fun _ t _ => Forall sendable t) Hq' Hs'
             lock_sendable cell_sendable).
Qed.

(** ** Every read is made with one line driven *)

Lemma read_contexts_app (t1 t2 : list event) :
  forall ps, read_contexts (t1 ++ t2) ps
             = read_contexts t1 ps ++ read_contexts t2 (replay t1 ps).
Proof.
  induction t1 as [|e t1 IH]; intros ps; [reflexivity|].
  cbn [app read_contexts]. rewrite IH, <- app_assoc. reflexivity.
Qed.

Lemma replay_still (tr : list event) (ps : pin_map) :
  drivers tr = [] -> replay tr ps = ps.
Proof.
  intros H. rewrite <- replay_drivers, H. reflexivity.
Qed.

Lemma read_contexts_still (tr : list event) :
  drivers tr = [] ->
  forall ps, read_contexts tr ps
             = map (fun p => (p, driven_lines ps)) (read_pins tr).
Proof.
  induction tr as [|e tr IH]; intros Hd ps; [reflexivity|].
  unfold drivers in *. cbn [filter] in Hd.
  destruct (is_driver e) eqn:E; [discriminate|].
  cbn [read_contexts]. rewrite (apply_event_passive e ps E).
  rewrite (IH Hd). unfold read_pins. cbn [flat_map]. rewrite map_app.
  destruct e; reflexivity.
Qed.

Lemma read_pins_app (t1 t2 : list event) :
  read_pins (t1 ++ t2) = read_pins t1 ++ read_pins t2.
Proof. unfold read_pins. apply flat_map_app. Qed.

Lemma read_pins_modifier_hold (modifier : Z) :
  read_pins (modifier_hold modifier) = [].
Proof.
  unfold modifier_hold.
  destruct (modifier =? SHIFT); [reflexivity|].
  destruct (modifier =? CTRL); [reflexivity|].
  destruct (modifier =? FCTN); reflexivity.
Qed.

Lemma scan_cell_reads (modifier : Z) (i j : nat) w h s :
  read_pins (out (scan_cell modifier i j w h s)) = [colPin j].
Proof.
  destruct (w h (pins s) (colPin j)) eqn:Hr.
  - rewrite (scan_cell_idle w h s modifier i j Hr). reflexivity.
  - rewrite (scan_cell_asserted w h s modifier i j Hr). proj.
    change (read_pins (EDigitalRead (colPin j) LOW :: ?l))
      with (colPin j :: read_pins l).
    f_equal. unfold cell_effect.
    destruct (negb (keyAt i j =? previousKey (globals s))
              || (10000 <=? idlecount (globals s)));
      [| destruct (150 <? wrap_int (count (globals s) + 1))]; cbn [snd];
      rewrite ?read_pins_app, ?read_pins_modifier_hold; reflexivity.
Qed.

Lemma columns_reads (modifier : Z) (i : nat) (w : world) :
  forall n from h s,
    read_pins (out (for_range n from (scan_cell modifier i) w h s))
    = map colPin (seq from n).
Proof.
  induction n as [|n IH]; intros from h s; [reflexivity|].
  rewrite for_range_S. proj.
  rewrite read_pins_app, scan_cell_reads, IH. reflexivity.
Qed.

Lemma row_active_driven_lines (ps : pin_map) (r : nat) :
  (r < ROWS)%nat -> row_active ps r -> driven_lines ps = [rowPin r].
Proof.
  intros Hr [Ha [Hrows Hlock]].
  assert (Hd : driven (ps (rowPin r)) = true).
  { unfold asserted in Ha. apply andb_true_iff in Ha. tauto. }
  unfold driven_lines, select_lines, rowPins. cbn [app filter].
  change 9 with (rowPin 0). change A1 with (rowPin 1).
  change A2 with (rowPin 2). change A3 with (rowPin 3).
  change 10 with (rowPin 4). change A0 with (rowPin 5).
  rewrite Hlock.
  do 6 (destruct r as [|r];
        [ rewrite Hd, !Hrows by (unfold ROWS; lia); reflexivity | ]).
  exfalso. revert Hr. unfold ROWS. lia.
Qed.

Lemma rows_reads (modifier : Z) (w : world) :
  forall n i previousRow h s,
    (i + n <= ROWS)%nat -> (previousRow < ROWS)%nat ->
    idle_but (pins s) previousRow ->
    read_contexts (out (scan_rows n i previousRow modifier w h s)) (pins s)
    = map (fun rc => (colPin (snd rc), [rowPin (fst rc)])) (pass_cells i n).
Proof.
  induction n as [|n IH]; intros i previousRow h s Hn Hp Hidle;
    [reflexivity|].
  rewrite scan_rows_S. cbv zeta. proj.
  assert (Hi : (i < ROWS)%nat) by lia.
  pose proof (scan_row_active (pins s) previousRow i Hp Hi Hidle) as Hact.
  set (ps1 := replay (row_drivers previousRow i) (pins s)) in *.
  set (s1 := {| globals := globals s; pins := ps1 |}).
  set (h1 := h ++ row_drivers previousRow i).
  set (cols := for_range (columnsOf i) 0 (scan_cell modifier i) w h1 s1).
  destruct (for_range_passive (scan_cell modifier i)
              (scan_cell_passive modifier i) (columnsOf i) 0%nat w h1 s1)
    as [Hpins Hdr].
  fold cols in Hpins, Hdr. cbn [pins s1] in Hpins.
  rewrite !read_contexts_app.
  fold ps1. rewrite (replay_still (out cols) ps1 Hdr).
  rewrite (read_contexts_still (out cols) Hdr ps1).
  unfold cols at 1. rewrite columns_reads.
  rewrite (row_active_driven_lines ps1 i Hi Hact).
  assert (Hidle1 : idle_but (pins (st cols)) i).
  { rewrite Hpins. apply row_active_idle. exact Hact. }
  pose proof (IH (S i) i (h1 ++ out cols) (st cols) ltac:(lia) Hi Hidle1)
    as Hrest.
  rewrite Hpins in Hrest. rewrite Hrest.
  unfold pass_cells, row_cells. cbn [seq flat_map].
  rewrite map_app, !map_map. reflexivity.
Qed.

Lemma lock_sampling_lines (ps : pin_map) :
  idle_but ps (ROWS - 1) ->
  driven_lines (replay lock_probe_prefix ps) = [alphaLockRowPin].
Proof.
  intros Hidle.
  assert (Hrows : forall i, (i < ROWS)%nat ->
            driven (replay lock_probe_prefix ps (rowPin i)) = false).
  { intros i Hi. unfold lock_probe_prefix, replay.
    cbn [fold_left apply_event].
    rewrite !(upd_other alphaLockRowPin) by (apply rowPin_not_lock; exact Hi).
    destruct (Nat.eq_dec i (ROWS - 1)) as [-> | Hne].
    - rewrite upd_same. reflexivity.
    - rewrite upd_other.
      + destruct Hidle as [H _]. apply H; assumption.
      + intros E. apply Hne.
        apply (rowPin_inj i (ROWS - 1) Hi ltac:(unfold ROWS; lia) E). }
  unfold driven_lines, select_lines, rowPins. cbn [app filter].
  change 9 with (rowPin 0). change A1 with (rowPin 1).
  change A2 with (rowPin 2). change A3 with (rowPin 3).
  change 10 with (rowPin 4). change A0 with (rowPin 5).
  rewrite !Hrows by (unfold ROWS; lia). reflexivity.
Qed.

Lemma stage_lock_reads (w : world) (h : list event) (s : machine) :
  idle_but (pins s) (ROWS - 1) ->
  read_contexts (out (stage_lock w h s)) (pins s)
  = [(colPin 7, [alphaLockRowPin])]
  /\ replay (out (stage_lock w h s)) (pins s) = pins (st (stage_lock w h s)).
Proof.
  intros Hidle.
  destruct (stage_lock_facts w h s) as (_ & _ & _ & _ & _ & Hpins).
  rewrite Hpins. unfold stage_lock. rewrite checkAlphaLock_run. cbv zeta. proj.
  split.
  - rewrite read_contexts_app.
    replace (read_contexts lock_probe_prefix (pins s)) with
      (@nil (Z * list Z)) by reflexivity.
    cbn [app read_contexts].
    rewrite (lock_sampling_lines (pins s) Hidle).
    rewrite read_contexts_still by (destruct (xorb _ _); reflexivity).
    destruct (xorb _ _); reflexivity.
  - rewrite <- replay_drivers. rewrite !drivers_app.
    replace (drivers (if xorb _ _ then _ else _)) with (@nil event)
      by (destruct (xorb _ _); reflexivity).
    reflexivity.
Qed.

(** In an enabled cycle started with the last row as the only driven
    line (as [setup] and every enabled cycle leave the pins), every
    [digitalRead] is made with exactly one select line driven, in every
    world: the enable line and the one to three modifier columns with
    the last row, the lock column with the lock line, and then each
    scanned cell exactly once, in row-major order, with its own row: 43
    column samples, of the last row only columns 0..2. *)
Theorem reads_with_one_line_driven (w : world) (h : list event)
    (s : machine) :
  w h (pins s) enablePin = HIGH ->
  row_active (pins s) (ROWS - 1) ->
  read_contexts (out (loop w h s)) (pins s)
  = map (fun p => (p, [rowPin (ROWS - 1)]))
      (enablePin :: read_pins (out (stage_modifier w h s)))
    ++ [(colPin 7, [alphaLockRowPin])] ++ pass_reads
  /\ read_contexts (out (stage_scan w h s)) (pins (st (stage_lock w h s)))
     = pass_reads
  /\ length pass_reads = 43%nat
  /\ (forall p l, In (p, l) pass_reads ->
        l = [rowPin (ROWS - 1)] -> In p (map colPin (seq 0 3))).
Proof.
  intros Hr Hact.
  pose proof (row_active_idle _ _ Hact) as Hidle.
  pose proof (row_active_driven_lines (pins s) (ROWS - 1)
                ltac:(unfold ROWS; lia) Hact) as Hlines.
  destruct (modifierPressed_passive w (h ++ [EDigitalRead enablePin HIGH]) s)
    as (_ & Hmd & _).
  fold (stage_modifier w h s) in Hmd.
  destruct (stage_lock_reads w h s Hidle) as [Hlr Hlp].
  destruct (stage_lock_facts w h s) as (_ & _ & _ & _ & _ & Hpins).
  assert (Hidle' : idle_but (pins (st (stage_lock w h s))) (ROWS - 1)).
  { rewrite Hpins. apply lock_probe_keeps_idle. exact Hidle. }
  assert (Hscan : read_contexts (out (stage_scan w h s))
                    (pins (st (stage_lock w h s))) = pass_reads).
  { unfold stage_scan, pass_reads.
    apply rows_reads; [lia | unfold ROWS; lia | exact Hidle']. }
  split; [| split; [exact Hscan | split]].
  - rewrite (loop_enabled w h s Hr). proj.
    cbn [read_contexts apply_event map]. rewrite Hlines.
    cbn [app]. f_equal.
    rewrite read_contexts_app, (replay_still _ _ Hmd).
    rewrite (read_contexts_still _ Hmd), Hlines.
    f_equal.
    rewrite read_contexts_app, Hlr, Hlp, Hscan. reflexivity.
  - reflexivity.
  - intros p l Hin ->. revert Hin. vm_compute. intuition congruence.
Qed.

Lemma powered_up_active : row_active (pins powered_up) (ROWS - 1).
Proof.
  split; [vm_compute; reflexivity | exact powered_up_idle].
Qed.

Lemma reads_with_one_line_driven_witness :
  read_contexts (out (stage_scan (fun _ _ _ => HIGH) [] powered_up))
    (pins (st (stage_lock (fun _ _ _ => HIGH) [] powered_up)))
  = pass_reads.
Proof.
  apply (reads_with_one_line_driven (fun _ _ _ => HIGH) [] powered_up
           eq_refl powered_up_active).
Defined.

(** ** The last row between cycles *)

Lemma cycle_leaves_last_row_asserted (ps : pin_map) :
  asserted (replay cycle_drivers ps (rowPin (ROWS - 1))) = true.
Proof. vm_compute. reflexivity. Qed.

Lemma loop_keeps_last_row (w : world) (h : list event) (s : machine) :
  row_active (pins s) (ROWS - 1) ->
  row_active (pins (st (loop w h s))) (ROWS - 1).
Proof.
  intros Hact. destruct (w h (pins s) enablePin) eqn:Hr.
  - destruct (cycle_drivers_spec w h s Hr) as [_ Hp]. rewrite Hp.
    split; [apply cycle_leaves_last_row_asserted|].
    apply cycle_keeps_idle. apply row_active_idle. exact Hact.
  - rewrite (loop_disabled w h s Hr). proj. exact Hact.
Qed.

(** In every world, enabled or not, a cycle started with the last row as
    the only driven line ends that way, and so does any number of
    cycles: the modifier columns, which sit on the last row, are always
    sampled at the start of a cycle with that row active and no other. *)
Theorem last_row_stays_active (w : world) (h : list event) (s : machine)
    (n : nat) :
  row_active (pins s) (ROWS - 1) ->
  row_active (pins (st (loop w h s))) (ROWS - 1)
  /\ row_active (pins (st (run_cycles n w h s))) (ROWS - 1)
  /\ driven_lines (pins (st (run_cycles n w h s))) = [rowPin (ROWS - 1)].
Proof.
  intros Hact.
  assert (Hn : row_active (pins (st (run_cycles n w h s))) (ROWS - 1)).
  { induction n as [|n IH]; [exact Hact|].
    rewrite run_cycles_S. proj. unfold nth_cycle.
    apply loop_keeps_last_row. exact IH. }
  split; [apply loop_keeps_last_row; exact Hact|].
  split; [exact Hn|].
  apply row_active_driven_lines; [unfold ROWS; lia | exact Hn].
Qed.

Lemma last_row_stays_active_witness :
  row_active (pins (st (run_cycles 2 (single_key_world 0 6) [] powered_up)))
    (ROWS - 1).
Proof.
  apply (last_row_stays_active (single_key_world 0 6) [] powered_up 2
           powered_up_active).
Defined.

(** ** Disabled cycles *)

(** While the enable line reads low, any number of calls of [loop] does
    nothing but read it: the machine state stays what it was, so
    scanning resumes from it when the line goes high again. *)
Theorem disabled_cycles_freeze (w : world) (h : list event) (s : machine)
    (n : nat) :
  (forall h', w (h ++ h') (pins s) enablePin = LOW) ->
  run_cycles n w h s = mkRes tt s (repeat (EDigitalRead enablePin LOW) n).
Proof.
  intros Hlow. induction n as [|n IH]; [reflexivity|].
  rewrite run_cycles_S. unfold nth_cycle. rewrite IH. proj.
  rewrite (loop_disabled w _ s (Hlow _)). proj.
  rewrite <- repeat_cons. reflexivity.
Qed.

Lemma disabled_cycles_freeze_witness :
  run_cycles 4 (fun _ _ _ => LOW) [] powered_up
  = mkRes tt powered_up (repeat (EDigitalRead enablePin LOW) 4).
Proof.
  apply (disabled_cycles_freeze (fun _ _ _ => LOW) [] powered_up 4).
  intros h'. reflexivity.
Defined.

(** ** Idle cycles *)

Lemma quiet_cycle (w : world) (h : list event) (s : machine) :
  matrix_reads w h (fun _ _ => false) ->
  w h (pins s) enablePin = HIGH ->
  idle_but (pins s) (ROWS - 1) ->
  previousKey (globals (st (loop w h s))) = previousKey (globals s)
  /\ currentKey (globals (st (loop w h s))) = currentKey (globals s)
  /\ count (globals (st (loop w h s))) = count (globals s)
  /\ idlecount (globals (st (loop w h s)))
     = wrap_ulong (idlecount (globals s) + 43).
Proof.
  intros Hw Hr Hidle.
  destruct (cycle_spec w _ h s Hw Hr Hidle) as (Hg & _ & _).
  rewrite cells_spec_quiet in Hg by reflexivity. cbn [fst] in Hg.
  destruct (stage_lock_facts w h s) as (Hp & Hk & Hc & Hi & _ & _).
  change (length (pass_cells 0 ROWS)) with 43%nat in Hg.
  destruct (idle_steps_fields 43 (globals (st (stage_lock w h s))))
    as (Hp' & Hk' & Hc' & _).
  rewrite Hg, Hp', Hk', Hc', Hp, Hk, Hc.
  repeat split.
  rewrite (idle_steps_count 42), Hi. reflexivity.
Qed.

(** With no key down, an enabled cycle leaves [previousKey],
    [currentKey] and [count] alone and adds the 43 cell samples to
    [idlecount] (modulo 2^32).  So after [n] such cycles [idlecount] has
    grown by [43 n], and, as long as it does not wrap, 233 idle cycles
    are enough to pass the idle threshold of 10000 and make the next
    press of any key, also of [previousKey], a fresh press. *)
Theorem idle_cycles_count (w : world) (h : list event) (s : machine)
    (n : nat) :
  matrix_reads w h (fun _ _ => false) ->
  (forall h' ps, w (h ++ h') ps enablePin = HIGH) ->
  idle_but (pins s) (ROWS - 1) ->
  let g := globals s in
  let g' := globals (st (run_cycles n w h s)) in
  previousKey g' = previousKey g
  /\ currentKey g' = currentKey g
  /\ count g' = count g
  /\ ((0 < n)%nat ->
      idlecount g' = wrap_ulong (idlecount g + 43 * Z.of_nat n))
  /\ (0 <= idlecount g -> idlecount g + 43 * Z.of_nat n < 4294967296 ->
      idlecount g' = idlecount g + 43 * Z.of_nat n
      /\ ((233 <= n)%nat -> 10000 <= idlecount g')).
Proof.
  intros Hw Hen Hidle. cbv zeta.
  assert (Hall : previousKey (globals (st (run_cycles n w h s)))
                 = previousKey (globals s)
                 /\ currentKey (globals (st (run_cycles n w h s)))
                    = currentKey (globals s)
                 /\ count (globals (st (run_cycles n w h s)))
                    = count (globals s)
                 /\ wrap_ulong (idlecount (globals (st (run_cycles n w h s))))
                    = wrap_ulong (idlecount (globals s) + 43 * Z.of_nat n)
                 /\ ((0 < n)%nat ->
                     0 <= idlecount (globals (st (run_cycles n w h s)))
                     < 4294967296)).
  { induction n as [|n IH].
    - cbn [run_cycles]. proj. repeat split; try lia.
      f_equal. lia.
    - destruct IH as (Hp & Hk & Hc & Hi & _).
      rewrite run_cycles_S. proj. unfold nth_cycle.
      destruct (quiet_cycle w (h ++ out (run_cycles n w h s))
                  (st (run_cycles n w h s))
                  (matrix_reads_later w h _ _ Hw) (Hen _ _)
                  (run_cycles_idle w h s Hen Hidle n))
        as (Hp' & Hk' & Hc' & Hi').
      rewrite Hp', Hk', Hc', Hi', Hp, Hk, Hc.
      repeat split; try apply wrap_ulong_range.
      unfold wrap_ulong in *.
      rewrite Z.mod_mod by lia.
      rewrite <- Z.add_mod_idemp_l by lia. rewrite Hi.
      rewrite Z.add_mod_idemp_l by lia. f_equal. lia. }
  destruct Hall as (Hp & Hk & Hc & Hi & Hrange).
  split; [exact Hp|]. split; [exact Hk|]. split; [exact Hc|].
  assert (Hpos : (0 < n)%nat ->
            idlecount (globals (st (run_cycles n w h s)))
            = wrap_ulong (idlecount (globals s) + 43 * Z.of_nat n)).
  { intros Hn. rewrite <- Hi. unfold wrap_ulong.
    symmetry. apply Z.mod_small. apply Hrange. exact Hn. }
  split; [exact Hpos|].
  intros H0 Hmax.
  assert (E : idlecount (globals (st (run_cycles n w h s)))
              = idlecount (globals s) + 43 * Z.of_nat n).
  { destruct n as [|n].
    - cbn [run_cycles]. proj. lia.
    - rewrite Hpos by lia. unfold wrap_ulong. apply Z.mod_small. lia. }
  split; [exact E|]. intros Hn. rewrite E. lia.
Qed.

Lemma idle_cycles_count_witness :
  idlecount (globals (st (run_cycles 2 (fun _ _ _ => HIGH) [] powered_up)))
  = wrap_ulong (0 + 43 * 2).
Proof.
  refine (proj1 (proj2 (proj2 (proj2
            (idle_cycles_count (fun _ _ _ => HIGH) [] powered_up 2 _ _
               powered_up_idle)))) _).
  - intros h ps r c _ _ _. reflexivity.
  - intros h' ps. reflexivity.
  - lia.
Defined.

(** ** Typematic repeat goes on *)

Lemma repeat_step (modifier k : Z) (p q c : nat) (g : vars) :
  (p + q = 42)%nat -> 0 < k < 128 ->
  150 <= Z.of_nat c < 32767 -> repeat_inv k c g ->
  timed (snd (cell_effect modifier k (idle_steps p g)))
  = modifier_hold modifier ++ [EKbdPress k; EDelay RPT_DELAY; EKbdReleaseAll]
  /\ repeat_inv k (S c)
       (idle_steps q (fst (cell_effect modifier k (idle_steps p g)))).
Proof.
  intros Hpq Hk Hc (Hprev & Hcnt & Hidle). unfold cell_effect.
  destruct (idle_steps_fields p g) as (Hp & _ & Hc' & _).
  rewrite Hp, Hc', Hprev, Hcnt, Z.eqb_refl, idle_steps_small by lia.
  replace (10000 <=? idlecount g + Z.of_nat p) with false
    by (symmetry; apply Z.leb_gt; lia).
  rewrite wrap_int_small by lia.
  replace (150 <? Z.of_nat c + 1) with true
    by (symmetry; apply Z.ltb_lt; lia).
  cbn [negb orb fst snd]. split.
  - rewrite timed_app, timed_modifier_hold. unfold to_uint8.
    rewrite Z.mod_small by lia. reflexivity.
  - match goal with
    | |- repeat_inv _ _ (idle_steps q ?g2) =>
        destruct (idle_steps_fields q g2) as (Hp2 & _ & Hc2 & _);
        unfold repeat_inv; rewrite Hp2, Hc2, idle_steps_small; cbn; lia
    end.
Qed.

Section RepeatGoesOn.
Variables (w : world) (i0 j0 : nat) (h0 : list event).
Hypothesis scanned_row : (i0 < ROWS)%nat.
Hypothesis scanned_col : (j0 < columnsOf i0)%nat.
Hypothesis reads :
  matrix_reads w h0 (fun r c => (r =? i0)%nat && (c =? j0)%nat).
Hypothesis enabled : forall h ps, w (h0 ++ h) ps enablePin = HIGH.

Lemma cycle_repeats (c : nat) (h : list event) (s : machine) :
  idle_but (pins s) (ROWS - 1) ->
  150 <= Z.of_nat c < 32767 -> repeat_inv (keyAt i0 j0) c (globals s) ->
  timed (out (stage_scan w (h0 ++ h) s))
  = modifier_hold (val (stage_modifier w (h0 ++ h) s))
    ++ [EKbdPress (keyAt i0 j0); EDelay RPT_DELAY; EKbdReleaseAll]
  /\ repeat_inv (keyAt i0 j0) (S c) (globals (st (loop w (h0 ++ h) s)))
  /\ idle_but (pins (st (loop w (h0 ++ h) s))) (ROWS - 1).
Proof.
  intros Hidle Hc (Hprev & Hcnt & Hi).
  destruct (cycle_pass w i0 j0 h0 scanned_row scanned_col reads enabled h s
              Hidle)
    as (p & q & g1 & Hpq & Hp1 & Hc1 & Hi1 & Hg & Ht & Hidle').
  assert (Hinv1 : repeat_inv (keyAt i0 j0) c g1).
  { unfold repeat_inv. rewrite Hp1, Hc1, Hi1. auto. }
  destruct (repeat_step (val (stage_modifier w (h0 ++ h) s)) (keyAt i0 j0)
              p q c g1 Hpq (keyAt_ascii i0 j0 scanned_row scanned_col)
              Hc Hinv1) as [Hs Hinv'].
  rewrite Ht, Hg. auto.
Qed.

Lemma repeating_after_cycles (s : machine) :
  idle_but (pins s) (ROWS - 1) ->
  previousKey (globals s) <> keyAt i0 j0
  \/ 10000 <= idlecount (globals s) < 4294967296 - 42 ->
  forall m, Z.of_nat (150 + m) <= 32767 ->
    repeat_inv (keyAt i0 j0) (150 + m)
      (globals (st (run_cycles (151 + m) w h0 s)))
    /\ idle_but (pins (st (run_cycles (151 + m) w h0 s))) (ROWS - 1).
Proof.
  intros Hidle Hfresh. induction m as [|m IH]; intros Hm.
  - destruct (held_after_cycles w i0 j0 h0 scanned_row scanned_col reads
                enabled s Hidle Hfresh 150%nat ltac:(lia))
      as [(Hp & Hc & Hi) Hidle'].
    rewrite !Nat.add_0_r. split; [| exact Hidle'].
    unfold repeat_inv. split; [exact Hp|]. split; [exact Hc|]. lia.
  - destruct (IH ltac:(lia)) as [Hinv Hidle'].
    replace (151 + S m)%nat with (S (151 + m)) by lia.
    replace (150 + S m)%nat with (S (150 + m)) by lia.
    rewrite run_cycles_S. proj. unfold nth_cycle.
    destruct (cycle_repeats (150 + m) (out (run_cycles (151 + m) w h0 s))
                (st (run_cycles (151 + m) w h0 s)) Hidle' ltac:(lia) Hinv)
      as (_ & Hinv' & Hidle'').
    auto.
Qed.
End RepeatGoesOn.

(** With one key held down from a fresh press on, the repeat emission
    that first fires in cycle 151 fires again in every later cycle:
    [count] is not reset by a repeat and keeps growing by one per cycle.
    This holds for as long as [count] fits its 16-bit [int], that is up
    to cycle 32767. *)
Theorem typematic_repeat_continues (w : world) (h : list event)
    (s : machine) (i0 j0 : nat) :
  (i0 < ROWS)%nat -> (j0 < columnsOf i0)%nat ->
  matrix_reads w h (fun r c => (r =? i0)%nat && (c =? j0)%nat) ->
  (forall h' ps, w (h ++ h') ps enablePin = HIGH) ->
  idle_but (pins s) (ROWS - 1) ->
  previousKey (globals s) <> keyAt i0 j0
  \/ 10000 <= idlecount (globals s) < 4294967296 - 42 ->
  forall n, 151 <= Z.of_nat n <= 32767 ->
    timed (out (nth_scan n w h s))
    = modifier_hold (nth_modifier n w h s)
      ++ [EKbdPress (keyAt i0 j0); EDelay RPT_DELAY; EKbdReleaseAll]
    /\ count (globals (st (nth_cycle n w h s))) = Z.of_nat n.
Proof.
  intros Hi Hj Hw Hen Hidle Hfresh n Hn.
  destruct (repeating_after_cycles w i0 j0 h Hi Hj Hw Hen s Hidle Hfresh
              (n - 151)%nat ltac:(lia)) as [Hinv Hidle'].
  replace (151 + (n - 151))%nat with n in * by lia.
  unfold nth_scan, nth_modifier, nth_cycle.
  destruct (cycle_repeats w i0 j0 h Hi Hj Hw Hen (150 + (n - 151))
              (out (run_cycles n w h s)) (st (run_cycles n w h s))
              Hidle' ltac:(lia) Hinv) as (Hs & (_ & Hc & _) & _).
  split; [exact Hs|]. rewrite Hc. lia.
Qed.

Lemma typematic_repeat_continues_witness :
  timed (out (nth_scan 200 (single_key_world 0 6) [] powered_up))
  = modifier_hold (nth_modifier 200 (single_key_world 0 6) [] powered_up)
    ++ [EKbdPress (ch "q"); EDelay RPT_DELAY; EKbdReleaseAll].
Proof.
  refine (proj1
            (typematic_repeat_continues (single_key_world 0 6) [] powered_up
               0 6 _ _ (single_key_world_reads 0 6 [] _ _) _
               powered_up_idle _ 200 _)).
  - unfold ROWS. lia.
  - cbn. lia.
  - unfold ROWS. lia.
  - cbn. lia.
  - intros h' ps. reflexivity.
  - left. vm_compute. discriminate.
  - lia.
Defined.

(** ** Several keys held down *)

Lemma last_cons_default (l : list Z) :
  forall k d, last (k :: l) d = last l k.
Proof.
  induction l as [|a l IH]; intros k d; [reflexivity|].
  change (last (k :: a :: l) d) with (last (a :: l) d).
  rewrite (IH a d), (IH a k). reflexivity.
Qed.

Lemma cells_previousKey closed modifier (cells : list (nat * nat)) :
  forall g,
    previousKey (fst (cells_spec closed modifier cells g))
    = last (closed_keys closed cells) (previousKey g).
Proof.
  induction cells as [|[r c] cells IH]; intros g; [reflexivity|].
  cbn [cells_spec]. cbv zeta. cbn [fst]. rewrite IH.
  unfold closed_keys, cell_spec. cbn [filter fst snd].
  destruct (closed r c); cbn [fst map].
  - assert (E : previousKey (fst (cell_effect modifier (keyAt r c) g))
                = keyAt r c).
    { unfold cell_effect.
      destruct (negb _ || _); [| destruct (150 <? _)]; reflexivity. }
    rewrite E. cbn [fst snd]. rewrite last_cons_default. reflexivity.
  - reflexivity.
Qed.

Lemma cells_fresh closed modifier (cells : list (nat * nat)) :
  (forall rc, In rc cells -> scanned (fst rc) (snd rc)) ->
  forall g,
    alternating (previousKey g) (closed_keys closed cells) ->
    snd (cells_spec closed modifier cells g)
    = fresh_presses modifier (closed_keys closed cells)
    /\ (closed_keys closed cells <> [] ->
        count (fst (cells_spec closed modifier cells g)) = 0)
    /\ (closed_keys closed cells = [] ->
        count (fst (cells_spec closed modifier cells g)) = count g).
Proof.
  induction cells as [|[r c] cells IH]; intros Hsc g Halt.
  - cbn. repeat split; congruence.
  - assert (Hsc' : forall rc, In rc cells -> scanned (fst rc) (snd rc)).
    { intros rc Hin. apply Hsc. right. exact Hin. }
    destruct (Hsc (r, c) (or_introl eq_refl)) as [Hr Hc]. cbn [fst snd] in *.
    cbn [cells_spec]. cbv zeta. cbn [fst snd].
    unfold closed_keys, cell_spec in *. cbn [filter fst snd] in *.
    destruct (closed r c); cbn [fst snd map] in *.
    + destruct Halt as [Hne Halt].
      unfold cell_effect.
      replace (negb (keyAt r c =? previousKey g) || (10000 <=? idlecount g))
        with true
        by (symmetry; apply orb_true_iff; left;
            apply negb_true_iff, Z.eqb_neq; congruence).
      cbn [fst snd].
      match goal with
      | |- context [cells_spec closed modifier cells ?g1] =>
          destruct (IH Hsc' g1 Halt) as (Hs & Hc0 & Hc1)
      end.
      cbn [previousKey count] in *.
      rewrite Hs. split; [| split].
      * cbn [fresh_presses flat_map]. rewrite timed_app, timed_modifier_hold.
        rewrite (to_uint8_key r c Hr Hc), <- !app_assoc. reflexivity.
      * intros _.
        destruct (map _ (filter _ cells)) eqn:E.
        -- apply Hc1. reflexivity.
        -- apply Hc0. discriminate.
      * discriminate.
    + destruct (IH Hsc' (idle_step g) Halt) as (Hs & Hc0 & Hc1).
      rewrite Hs. repeat split; assumption.
Qed.

Lemma nodupb_NoDup (l : list Z) : nodupb l = true -> NoDup l.
Proof.
  induction l as [|x l IH]; intros H; [constructor|].
  cbn [nodupb] in H. apply andb_true_iff in H. destruct H as [Hx Hl].
  constructor; [| apply IH; exact Hl].
  intros Hin. apply negb_true_iff in Hx.
  assert (existsb (Z.eqb x) l = true); [|congruence].
  apply existsb_exists. exists x. split; [exact Hin | apply Z.eqb_refl].
Qed.

Lemma NoDup_map_filter {A} (f : A -> Z) (p : A -> bool) (l : list A) :
  NoDup (map f l) -> NoDup (map f (filter p l)).
Proof.
  induction l as [|a l IH]; intros H; [constructor|].
  cbn [map] in H. inversion H as [|x l' Hnot Hnd]; subst.
  cbn [filter]. destruct (p a); [| apply IH; exact Hnd].
  cbn [map]. constructor; [| apply IH; exact Hnd].
  intros Hin. apply Hnot. apply in_map_iff in Hin.
  destruct Hin as (y & E & Hy). apply filter_In in Hy.
  apply in_map_iff. exists y. tauto.
Qed.

Lemma NoDup_alternating (ks : list Z) :
  NoDup ks -> forall prev, ~ In prev ks -> alternating prev ks.
Proof.
  induction ks as [|k ks IH]; intros Hnd prev Hprev; [exact I|].
  inversion Hnd; subst. cbn [alternating]. split.
  - intros ->. apply Hprev. left. reflexivity.
  - apply IH; assumption.
Qed.

Lemma NoDup_last_alternating (ks : list Z) (d : Z) :
  NoDup ks -> (2 <= length ks)%nat -> alternating (last ks d) ks.
Proof.
  intros Hnd Hlen. destruct ks as [|k ks]; [exact I|].
  inversion Hnd as [|x l Hnot Hnd']; subst.
  destruct ks as [|k' ks]; [cbn in Hlen; lia|].
  change (last (k :: k' :: ks) d <> k /\ alternating k (k' :: ks)). split.
  - change (last (k :: k' :: ks) d) with (last (k' :: ks) d).
    intros E. apply Hnot. rewrite <- E.
    clear. revert k'. induction ks as [|a ks IH]; intros k'.
    + left. reflexivity.
    + right. apply IH.
  - apply NoDup_alternating; assumption.
Qed.

Lemma closed_keys_NoDup closed :
  NoDup (closed_keys closed (pass_cells 0 ROWS)).
Proof.
  unfold closed_keys. apply NoDup_map_filter.
  apply nodupb_NoDup. exact scanned_keys_nodup.
Qed.

Lemma last_default (l : list Z) (d d' : Z) :
  l <> [] -> last l d = last l d'.
Proof.
  destruct l as [|k l]; [congruence|]. intros _.
  rewrite !last_cons_default. reflexivity.
Qed.

Section SeveralKeys.
Variables (w : world) (h0 : list event) (closed : nat -> nat -> bool).
Hypothesis reads : matrix_reads w h0 closed.
Hypothesis enabled : forall h ps, w (h0 ++ h) ps enablePin = HIGH.

Let ks := closed_keys closed (pass_cells 0 ROWS).

Lemma pass_cells_scanned :
  forall rc, In rc (pass_cells 0 ROWS) -> scanned (fst rc) (snd rc).
Proof. intros [r c] Hin. apply in_pass_cells. exact Hin. Qed.

Lemma cycle_keys (h : list event) (s : machine) :
  idle_but (pins s) (ROWS - 1) ->
  previousKey (globals (st (loop w (h0 ++ h) s)))
  = last ks (previousKey (globals s))
  /\ (alternating (previousKey (globals s)) ks ->
      timed (out (stage_scan w (h0 ++ h) s))
      = fresh_presses (val (stage_modifier w (h0 ++ h) s)) ks
      /\ (ks <> [] -> count (globals (st (loop w (h0 ++ h) s))) = 0)).
Proof.
  intros Hidle.
  destruct (cycle_spec w closed (h0 ++ h) s
              (matrix_reads_later w h0 h closed reads) (enabled h (pins s))
              Hidle) as (Hg & _ & Ht).
  destruct (stage_lock_facts w (h0 ++ h) s) as (Hp & _ & _ & _ & _ & _).
  split.
  - rewrite Hg, cells_previousKey, Hp. reflexivity.
  - intros Halt. rewrite <- Hp in Halt.
    destruct (cells_fresh closed (val (stage_modifier w (h0 ++ h) s))
                (pass_cells 0 ROWS) pass_cells_scanned
                (globals (st (stage_lock w (h0 ++ h) s))) Halt)
      as (Hs & Hc & _).
    rewrite Ht, Hg. split; [exact Hs | exact Hc].
Qed.

Lemma keys_after_cycles (s : machine) :
  idle_but (pins s) (ROWS - 1) -> ks <> [] ->
  forall n, previousKey (globals (st (run_cycles (S n) w h0 s)))
            = last ks 0.
Proof.
  intros Hidle Hks n.
  rewrite run_cycles_S. proj. unfold nth_cycle.
  destruct (cycle_keys (out (run_cycles n w h0 s)) (st (run_cycles n w h0 s))
              (run_cycles_idle w h0 s enabled Hidle n)) as [Hp _].
  rewrite Hp. apply last_default. exact Hks.
Qed.
End SeveralKeys.

(** With two or more keys held down, every cycle after the first sends
    each of them as a fresh press, in scan order, each with the
    KBD_DELAY wait and its own releaseAll(): [previousKey] always holds
    the last key of the pass, which differs from the first, so no key is
    ever seen twice in a row, [count] stays 0 and typematic repeat never
    starts. *)
Theorem several_keys_all_fresh (w : world) (h : list event) (s : machine)
    (closed : nat -> nat -> bool) :
  matrix_reads w h closed ->
  (forall h' ps, w (h ++ h') ps enablePin = HIGH) ->
  idle_but (pins s) (ROWS - 1) ->
  (2 <= length (closed_keys closed (pass_cells 0 ROWS)))%nat ->
  forall n, (1 <= n)%nat ->
    timed (out (nth_scan n w h s))
    = fresh_presses (nth_modifier n w h s)
        (closed_keys closed (pass_cells 0 ROWS))
    /\ count (globals (st (nth_cycle n w h s))) = 0
    /\ previousKey (globals (st (nth_cycle n w h s)))
       = last (closed_keys closed (pass_cells 0 ROWS)) 0.
Proof.
  intros Hw Hen Hidle Hlen n Hn.
  set (ks := closed_keys closed (pass_cells 0 ROWS)) in *.
  assert (Hks : ks <> []) by (intros E; rewrite E in Hlen; cbn in Hlen; lia).
  destruct n as [|n]; [lia|].
  pose proof (keys_after_cycles w h closed Hw Hen s Hidle Hks n) as Hprev.
  pose proof (run_cycles_idle w h s Hen Hidle (S n)) as Hidle'.
  unfold nth_scan, nth_modifier, nth_cycle.
  destruct (cycle_keys w h closed Hw Hen (out (run_cycles (S n) w h s))
              (st (run_cycles (S n) w h s)) Hidle') as [Hp Hfresh].
  fold ks in Hp, Hfresh, Hprev.
  assert (Halt : alternating
                   (previousKey (globals (st (run_cycles (S n) w h s)))) ks).
  { rewrite Hprev. apply NoDup_last_alternating; [| exact Hlen].
    apply closed_keys_NoDup. }
  destruct (Hfresh Halt) as [Hs Hc].
  split; [exact Hs|]. split; [apply Hc; exact Hks|].
  rewrite Hp. apply last_default. exact Hks.
Qed.

Lemma row_active_asserted (ps : pin_map) (r i : nat) :
  (i < ROWS)%nat -> row_active ps r ->
  asserted (ps (rowPin i)) = (i =? r)%nat.
Proof.
  intros Hi [Ha [Hrows _]].
  destruct (Nat.eqb_spec i r) as [-> | Hne]; [exact Ha|].
  unfold asserted. rewrite (Hrows i Hi Hne). reflexivity.
Qed.

Lemma colPin_eqb (c j : nat) :
  (c < COLS)%nat -> (j < COLS)%nat -> (colPin c =? colPin j) = (c =? j)%nat.
Proof.
  intros Hc Hj. destruct (Nat.eqb_spec c j) as [-> | Hne].
  - apply Z.eqb_refl.
  - apply Z.eqb_neq. intros E. apply Hne. apply colPin_inj; assumption.
Qed.

Lemma two_key_world_reads (i1 j1 i2 j2 : nat) (h0 : list event) :
  scanned i1 j1 -> scanned i2 j2 ->
  matrix_reads (two_key_world i1 j1 i2 j2) h0 (two_keys_closed i1 j1 i2 j2).
Proof.
  intros [Hi1 Hj1] [Hi2 Hj2] h ps r c Hr Hc Hact.
  pose proof (columnsOf_le r). pose proof (columnsOf_le i1).
  pose proof (columnsOf_le i2).
  unfold two_key_world, two_keys_closed.
  rewrite (row_active_asserted ps r i1 Hi1 Hact).
  rewrite (row_active_asserted ps r i2 Hi2 Hact).
  rewrite !colPin_eqb by lia.
  rewrite (Nat.eqb_sym i1 r), (Nat.eqb_sym i2 r).
  rewrite (andb_comm (c =? j1)%nat), (andb_comm (c =? j2)%nat).
  reflexivity.
Qed.

Lemma several_keys_all_fresh_witness :
  timed (out (nth_scan 1 (two_key_world 0 6 1 5) [] powered_up))
  = fresh_presses (nth_modifier 1 (two_key_world 0 6 1 5) [] powered_up)
      [ch "q"; ch "s"].
Proof.
  refine (proj1
            (several_keys_all_fresh (two_key_world 0 6 1 5) [] powered_up
               (two_keys_closed 0 6 1 5)
               (two_key_world_reads 0 6 1 5 [] _ _) _ powered_up_idle _
               1%nat _)).
  - split; [unfold ROWS; lia | cbn; lia].
  - split; [unfold ROWS; lia | cbn; lia].
  - intros h' ps. reflexivity.
  - vm_compute. lia.
  - lia.
Defined.

(** ** [pressModifier] *)

(** [pressModifier] changes no state and sends at most one press: the
    left shift, control or alt key for SHIFT, CTRL and FCTN, three
    different keys, and nothing at all for any other argument. *)
Theorem pressModifier_sends (modifier : Z) (w : world) (h : list event)
    (s : machine) :
  let r := pressModifier modifier w h s in
  out r = modifier_hold modifier
  /\ globals (st r) = globals s
  /\ pins (st r) = pins s
  /\ (out r = [] <-> ~ In modifier [SHIFT; CTRL; FCTN])
  /\ (forall m', In modifier [SHIFT; CTRL; FCTN] ->
        out (pressModifier m' w h s) = out r -> m' = modifier).
Proof.
  cbv zeta.
  assert (Hout : forall m, out (pressModifier m w h s) = modifier_hold m).
  { intros m. unfold pressModifier, modifier_hold.
    destruct (m =? SHIFT); [reflexivity|].
    destruct (m =? CTRL); [reflexivity|].
    destruct (m =? FCTN); reflexivity. }
  assert (Hcases : forall m,
            (m = SHIFT /\ modifier_hold m = [EKbdPress KEY_LEFT_SHIFT])
            \/ (m = CTRL /\ modifier_hold m = [EKbdPress KEY_LEFT_CTRL])
            \/ (m = FCTN /\ modifier_hold m = [EKbdPress KEY_LEFT_ALT])
            \/ (~ In m [SHIFT; CTRL; FCTN] /\ modifier_hold m = [])).
  { intros m. unfold modifier_hold.
    destruct (Z.eqb_spec m SHIFT) as [-> | H5]; [left; split; reflexivity|].
    destruct (Z.eqb_spec m CTRL) as [-> | H6];
      [right; left; split; reflexivity|].
    destruct (Z.eqb_spec m FCTN) as [-> | H7];
      [right; right; left; split; reflexivity|].
    right; right; right. split; [| reflexivity].
    cbn [In]. intros [E | [E | [E | []]]]; congruence. }
  split; [apply Hout|].
  split.
  { unfold pressModifier.
    destruct (modifier =? SHIFT); [reflexivity|].
    destruct (modifier =? CTRL); [reflexivity|].
    destruct (modifier =? FCTN); reflexivity. }
  split.
  { unfold pressModifier.
    destruct (modifier =? SHIFT); [reflexivity|].
    destruct (modifier =? CTRL); [reflexivity|].
    destruct (modifier =? FCTN); reflexivity. }
  rewrite Hout. split.
  - destruct (Hcases modifier) as [[-> E] | [[-> E] | [[-> E] | [Hn E]]]];
      rewrite E; split; try discriminate; try tauto;
      intros H; exfalso; apply H; cbn; tauto.
  - intros m' Hin. rewrite Hout.
    destruct (Hcases modifier) as [[-> E] | [[-> E] | [[-> E] | [Hn E]]]];
      [| | | tauto];
      rewrite E;
      destruct (Hcases m') as [[-> E'] | [[-> E'] | [[-> E'] | [Hn' E']]]];
      rewrite E'; intros Heq; try reflexivity; discriminate Heq.
Qed.

(** ** The same key again *)

(** One cycle with exactly one key down, that key being [previousKey],
    started with [idlecount] below 10000 - 42, so that fewer than 10000
    idle samples have been counted when the key's cell is reached: the
    key is not sent as a fresh press, however the state came about (a
    held key, or the same key released and pressed again before the idle
    timeout).  [count] goes up by one, and the pass sends the repeat
    emission if the new [count] exceeds 150, a lone releaseAll()
    otherwise. *)
Theorem same_key_before_timeout (w : world) (h : list event) (s : machine)
    (i0 j0 : nat) :
  (i0 < ROWS)%nat -> (j0 < columnsOf i0)%nat ->
  matrix_reads w h (fun r c => (r =? i0)%nat && (c =? j0)%nat) ->
  (forall h' ps, w (h ++ h') ps enablePin = HIGH) ->
  idle_but (pins s) (ROWS - 1) ->
  previousKey (globals s) = keyAt i0 j0 ->
  0 <= idlecount (globals s) < 10000 - 42 ->
  -32768 <= count (globals s) < 32767 ->
  timed (out (stage_scan w h s))
  = (if 150 <? count (globals s) + 1
     then modifier_hold (val (stage_modifier w h s))
          ++ [EKbdPress (keyAt i0 j0); EDelay RPT_DELAY; EKbdReleaseAll]
     else [EKbdReleaseAll])
  /\ count (globals (st (loop w h s))) = count (globals s) + 1
  /\ previousKey (globals (st (loop w h s))) = keyAt i0 j0.
Proof.
  intros Hi Hj Hw Hen Hidle Hprev Hidlecount Hcount.
  assert (Hw' : matrix_reads w (h ++ [])
                  (fun r c => (r =? i0)%nat && (c =? j0)%nat)).
  { apply matrix_reads_later. exact Hw. }
  assert (Hen' : forall h' ps, w ((h ++ []) ++ h') ps enablePin = HIGH).
  { intros h' ps. rewrite app_nil_r. apply Hen. }
  pose proof (keyAt_ascii i0 j0 Hi Hj) as Hk.
  destruct (cycle_pass w i0 j0 (h ++ []) Hi Hj Hw' Hen' [] s Hidle)
    as (p & q & g1 & Hpq & Hp1 & Hc1 & Hi1 & Hg & Ht & _).
  rewrite !app_nil_r in Hg, Ht. rewrite Ht, Hg.
  destruct (idle_steps_fields p g1) as (Hp & _ & Hc & _).
  unfold cell_effect.
  rewrite Hp, Hc, Hp1, Hc1, Hprev, Z.eqb_refl, idle_steps_small by lia.
  replace (10000 <=? idlecount g1 + Z.of_nat p) with false
    by (symmetry; apply Z.leb_gt; lia).
  rewrite wrap_int_small by lia.
  cbn [negb orb].
  destruct (150 <? count (globals s) + 1); cbn [fst snd].
  - split.
    + rewrite timed_app, timed_modifier_hold. unfold to_uint8.
      rewrite Z.mod_small by lia. reflexivity.
    + match goal with
      | |- context [idle_steps q ?g2] =>
          destruct (idle_steps_fields q g2) as (Hp2 & _ & Hc2 & _)
      end.
      rewrite Hp2, Hc2. split; reflexivity.
  - split; [reflexivity|].
    match goal with
    | |- context [idle_steps q ?g2] =>
        destruct (idle_steps_fields q g2) as (Hp2 & _ & Hc2 & _)
    end.
    rewrite Hp2, Hc2. split; reflexivity.
Qed.

Lemma same_key_before_timeout_witness :
  timed (out (stage_scan (single_key_world 0 6) []
                {| globals := set_previousKey (ch "q") init_vars;
                   pins := pins powered_up |}))
  = [EKbdReleaseAll].
Proof.
  refine (proj1
            (same_key_before_timeout (single_key_world 0 6) []
               {| globals := set_previousKey (ch "q") init_vars;
                  pins := pins powered_up |}
               0 6 _ _ (single_key_world_reads 0 6 [] _ _) _
               powered_up_idle _ _ _)).
  - unfold ROWS. lia.
  - cbn. lia.
  - unfold ROWS. lia.
  - cbn. lia.
  - intros h' ps. reflexivity.
  - reflexivity.
  - cbn. lia.
  - cbn. lia.
Defined.

(** ** Cutting the pass at a row and at a cell *)

Lemma res_unit_eta (r : res unit) : r = mkRes tt (st r) (out r).
Proof. destruct r as [[] s o]. reflexivity. Qed.

Lemma for_range_app (body : nat -> M unit) (w : world) (a b : nat) :
  forall from h s,
    for_range (a + b) from body w h s
    = mkRes tt
        (st (for_range b (from + a) body w
               (h ++ out (for_range a from body w h s))
               (st (for_range a from body w h s))))
        (out (for_range a from body w h s)
           ++ out (for_range b (from + a) body w
                     (h ++ out (for_range a from body w h s))
                     (st (for_range a from body w h s)))).
Proof.
  induction a as [|a IH]; intros from h s.
  - change (for_range 0 from body w h s) with (mkRes tt s (@nil event)).
    proj. rewrite app_nil_r, Nat.add_0_r.
    change (0 + b)%nat with b. cbn [app].
    apply res_unit_eta.
  - change (S a + b)%nat with (S (a + b)).
    rewrite !for_range_S. proj. rewrite IH.
    proj. rewrite <- !app_assoc.
    replace (S from + a)%nat with (from + S a)%nat by lia.
    reflexivity.
Qed.

Lemma scan_rows_app (modifier : Z) (w : world) (a b : nat) :
  forall i previousRow h s,
    scan_rows (a + b) i previousRow modifier w h s
    = mkRes tt
        (st (scan_rows b (i + a)
               (match a with O => previousRow | S a' => i + a' end)%nat
               modifier w
               (h ++ out (scan_rows a i previousRow modifier w h s))
               (st (scan_rows a i previousRow modifier w h s))))
        (out (scan_rows a i previousRow modifier w h s)
           ++ out (scan_rows b (i + a)
                     (match a with O => previousRow | S a' => i + a' end)%nat
                     modifier w
                     (h ++ out (scan_rows a i previousRow modifier w h s))
                     (st (scan_rows a i previousRow modifier w h s)))).
Proof.
  induction a as [|a IH]; intros i previousRow h s.
  - change (scan_rows 0 i previousRow modifier w h s)
      with (mkRes tt s (@nil event)).
    proj. rewrite app_nil_r, Nat.add_0_r.
    change (0 + b)%nat with b. cbn [app].
    apply res_unit_eta.
  - change (S a + b)%nat with (S (a + b)).
    rewrite !scan_rows_S. cbv zeta. proj. rewrite IH.
    proj. rewrite <- !app_assoc.
    replace (S i + a)%nat with (i + S a)%nat by lia.
    replace (match a with O => i | S a' => S i + a' end)%nat
      with (i + a)%nat by (destruct a; lia).
    reflexivity.
Qed.

Lemma pass_before_run (modifier : Z) (i j : nat) w h s :
  pass_before modifier i j w h s
  = mkRes tt
      (st (for_range j 0 (scan_cell modifier i) w
             ((h ++ out (scan_rows i 0 (ROWS - 1) modifier w h s))
                ++ row_drivers (previous_row i) i)
             {| globals :=
                  globals (st (scan_rows i 0 (ROWS - 1) modifier w h s));
                pins :=
                  replay (row_drivers (previous_row i) i)
                    (pins (st (scan_rows i 0 (ROWS - 1) modifier w h s))) |}))
      (out (scan_rows i 0 (ROWS - 1) modifier w h s)
         ++ row_drivers (previous_row i) i
         ++ out (for_range j 0 (scan_cell modifier i) w
                   ((h ++ out (scan_rows i 0 (ROWS - 1) modifier w h s))
                      ++ row_drivers (previous_row i) i)
                   {| globals :=
                        globals (st (scan_rows i 0 (ROWS - 1) modifier w h s));
                      pins :=
                        replay (row_drivers (previous_row i) i)
                          (pins (st (scan_rows i 0 (ROWS - 1) modifier
                                       w h s))) |})).
Proof.
  unfold pass_before. rewrite bind_run. rewrite bind_run.
  rewrite scan_row_run. proj.
  match goal with
  | |- context [for_range ?a ?b ?c ?d ?e ?f] =>
      generalize (for_range a b c d e f)
  end.
  intros [[] s' o]. reflexivity.
Qed.

(** The pass is what comes before the column loop of row [i], that
    loop, and the rows after it. *)
Lemma pass_at_row (modifier : Z) (i : nat) w h s :
  (i < ROWS)%nat ->
  let e := pass_before modifier i 0 w h s in
  let r := for_range (columnsOf i) 0 (scan_cell modifier i) w
             (h ++ out e) (st e) in
  let t := scan_rows (ROWS - S i) (S i) i modifier w
             ((h ++ out e) ++ out r) (st r) in
  scan_rows ROWS 0 (ROWS - 1) modifier w h s
  = mkRes tt (st t) (out e ++ out r ++ out t).
Proof.
  intros Hi. cbv zeta.
  rewrite pass_before_run.
  change (for_range 0 0 (scan_cell modifier i) w ?hh ?ss)
    with (mkRes tt ss (@nil event)).
  proj. rewrite !app_nil_r.
  replace ROWS with (i + S (ROWS - S i))%nat at 1 by lia.
  rewrite scan_rows_app. change (0 + i)%nat with i.
  replace (match i with O => (ROWS - 1)%nat | S a' => (0 + a')%nat end)
    with (previous_row i) by (destruct i; reflexivity).
  rewrite scan_rows_S. cbv zeta. proj.
  rewrite <- !app_assoc. reflexivity.
Qed.

Lemma for_range_at (body : nat -> M unit) (w : world) (n j : nat) h s :
  (j < n)%nat ->
  let e := for_range j 0 body w h s in
  let c := body j w (h ++ out e) (st e) in
  let t := for_range (n - S j) (S j) body w ((h ++ out e) ++ out c) (st c) in
  for_range n 0 body w h s = mkRes tt (st t) (out e ++ out c ++ out t).
Proof.
  intros Hj. cbv zeta.
  remember (n - S j)%nat as k eqn:Ek.
  replace n with (j + S k)%nat by lia.
  rewrite for_range_app. change (0 + j)%nat with j.
  rewrite for_range_S. proj. reflexivity.
Qed.

(** The pass is what comes before cell [(i, j)], the cell statement,
    and what comes after it. *)
Lemma pass_at_cell (modifier : Z) (i j : nat) w h s :
  (i < ROWS)%nat -> (j < columnsOf i)%nat ->
  let e := pass_before modifier i j w h s in
  let c := scan_cell modifier i j w (h ++ out e) (st e) in
  let t := pass_after modifier i j w ((h ++ out e) ++ out c) (st c) in
  scan_rows ROWS 0 (ROWS - 1) modifier w h s
  = mkRes tt (st t) (out e ++ out c ++ out t).
Proof.
  intros Hi Hj. cbv zeta.
  rewrite (pass_at_row modifier i w h s Hi). cbv zeta.
  rewrite !pass_before_run.
  change (for_range 0 0 (scan_cell modifier i) w ?hh ?ss)
    with (mkRes tt ss (@nil event)).
  proj. rewrite !app_nil_r.
  rewrite (for_range_at (scan_cell modifier i) w (columnsOf i) j _ _ Hj).
  cbv zeta. proj.
  unfold pass_after. rewrite bind_run. proj.
  rewrite <- !app_assoc.
  match goal with
  | |- context [scan_rows ?a ?b ?c ?d ?e ?f ?g] =>
      generalize (scan_rows a b c d e f g)
  end.
  intros [[] s' o]. proj. reflexivity.
Qed.

Lemma stage_scan_at_cell (w : world) (h : list event) (s : machine)
    (i j : nat) :
  (i < ROWS)%nat -> (j < columnsOf i)%nat ->
  stage_scan w h s
  = mkRes tt (st (cell_rest w h s i j))
      (out (cell_entry w h s i j) ++ out (cell_run w h s i j)
         ++ out (cell_rest w h s i j)).
Proof.
  intros Hi Hj.
  unfold stage_scan, cell_rest, cell_run, cell_entry.
  fold (pass_history w h s).
  exact (pass_at_cell (val (stage_modifier w h s)) i j w (pass_history w h s)
           (st (stage_lock w h s)) Hi Hj).
Qed.

Lemma stage_scan_at_row (w : world) (h : list event) (s : machine)
    (i : nat) :
  (i < ROWS)%nat ->
  stage_scan w h s
  = mkRes tt (st (row_rest w h s i))
      (out (cell_entry w h s i 0) ++ out (row_run w h s i)
         ++ out (row_rest w h s i)).
Proof.
  intros Hi.
  unfold stage_scan, row_rest, row_run, cell_entry.
  fold (pass_history w h s).
  exact (pass_at_row (val (stage_modifier w h s)) i w (pass_history w h s)
           (st (stage_lock w h s)) Hi).
Qed.

(** ** Fresh press (C1) *)

(** C1: in every enabled cycle of [loop], at every scanned cell that
    reads asserted when the pass samples it and whose key differs from
    [previousKey], or with [idlecount] at least 10000 at that moment,
    the cycle makes a fresh-press emission: it sends the hold of the
    modifier that [modifierPressed] returned at the start of this cycle
    (nothing if it returned 0), then press(key), waits KBD_DELAY, then
    sends releaseAll(); right after the cell [count = 0],
    [idlecount = 0] and [previousKey = key].  The trace of the cycle is
    the enable read, the modifier detection, the lock probe, the pass up
    to the cell, this emission, and the rest of the pass, which starts
    from the state the emission leaves. *)
Theorem fresh_press_emission (w : world) (h : list event) (s : machine)
    (i j : nat) :
  (i < ROWS)%nat -> (j < columnsOf i)%nat ->
  w h (pins s) enablePin = HIGH ->
  let modifier := val (modifierPressed w (h ++ [EDigitalRead enablePin HIGH]) s) in
  let e := cell_entry w h s i j in
  let c := cell_run w h s i j in
  w (pass_history w h s ++ out e) (pins (st e)) (colPin j) = LOW ->
  keyAt i j <> previousKey (globals (st e))
  \/ 10000 <= idlecount (globals (st e)) ->
  out (loop w h s)
  = [EDigitalRead enablePin HIGH] ++ out (stage_modifier w h s)
    ++ out (stage_lock w h s) ++ out e ++ out c
    ++ out (cell_rest w h s i j)
  /\ st (loop w h s) = st (cell_rest w h s i j)
  /\ out c
     = [EDigitalRead (colPin j) LOW] ++ modifier_hold modifier
       ++ [EKbdPress (keyAt i j); EDelay KBD_DELAY;
           ESerialPrintln "Different key or idlecount timeout";
           EKbdReleaseAll]
  /\ count (globals (st c)) = 0
  /\ idlecount (globals (st c)) = 0
  /\ previousKey (globals (st c)) = keyAt i j.
Proof.
  intros Hi Hj Hen modifier e c Hlow Hfresh.
  rewrite (loop_enabled w h s Hen). proj.
  rewrite (stage_scan_at_cell w h s i j Hi Hj). proj.
  split; [reflexivity|]. split; [reflexivity|].
  exact (scan_cell_fresh w (pass_history w h s ++ out e) (st e)
           modifier i j Hi Hj Hlow Hfresh).
Qed.

Lemma fresh_press_emission_witness :
  let c := cell_run (shifted_key_world 0 6) [] powered_up 0 6 in
  out c = [EDigitalRead 11 LOW; EKbdPress KEY_LEFT_SHIFT; EKbdPress (ch "q");
           EDelay 150; ESerialPrintln "Different key or idlecount timeout";
           EKbdReleaseAll]
  /\ count (globals (st c)) = 0
  /\ idlecount (globals (st c)) = 0
  /\ previousKey (globals (st c)) = ch "q".
Proof.
  refine (proj2 (proj2
            (fresh_press_emission (shifted_key_world 0 6) [] powered_up 0 6
               _ _ _ _ _))).
  - unfold ROWS. lia.
  - cbn. lia.
  - reflexivity.
  - vm_compute. reflexivity.
  - left. vm_compute. discriminate.
Defined.

(** ** The idle counter (C8) *)

(** A run of columns that all read high when they are sampled. *)
Lemma idle_columns (modifier : Z) (i : nat) (w : world) (n : nat) :
  forall from h s,
    (forall k, (k < n)%nat ->
       w (h ++ high_reads from k) (pins s) (colPin (from + k)) = HIGH) ->
    for_range n from (scan_cell modifier i) w h s
    = mkRes tt {| globals := idle_steps n (globals s); pins := pins s |}
        (high_reads from n).
Proof.
  induction n as [|n IH]; intros from h s Hhigh.
  - destruct s. reflexivity.
  - rewrite for_range_S.
    assert (H0 : w h (pins s) (colPin from) = HIGH).
    { specialize (Hhigh 0%nat ltac:(lia)).
      unfold high_reads in Hhigh. cbn [seq map] in Hhigh.
      rewrite app_nil_r, Nat.add_0_r in Hhigh. exact Hhigh. }
    rewrite (scan_cell_idle w h s modifier i from H0). proj.
    rewrite IH.
    + proj. reflexivity.
    + intros k Hk. cbn [pins].
      specialize (Hhigh (S k) ltac:(lia)).
      unfold high_reads in *. cbn [seq map] in Hhigh.
      rewrite <- app_assoc. cbn [app].
      replace (S from + k)%nat with (from + S k)%nat by lia.
      exact Hhigh.
Qed.

Lemma sink_high_reads (from n : nat) : sink (high_reads from n) = [].
Proof.
  unfold high_reads. revert from.
  induction n as [|n IH]; intros from; [reflexivity|].
  cbn [seq map]. unfold sink in *. cbn [filter is_sink]. apply IH.
Qed.

Lemma idle_tally_app (inc : Z -> Z) (t1 t2 : list event) (x : Z) :
  idle_tally inc (t1 ++ t2) x = idle_tally inc t2 (idle_tally inc t1 x).
Proof. unfold idle_tally. apply fold_left_app. Qed.

Lemma idle_tally_modifier_hold (inc : Z -> Z) (modifier x : Z) :
  idle_tally inc (modifier_hold modifier) x = x.
Proof.
  unfold modifier_hold.
  destruct (modifier =? SHIFT); [reflexivity|].
  destruct (modifier =? CTRL); [reflexivity|].
  destruct (modifier =? FCTN); reflexivity.
Qed.

Lemma idle_tally_row_drivers (inc : Z -> Z) (previousRow i : nat) (x : Z) :
  idle_tally inc (row_drivers previousRow i) x = x.
Proof. reflexivity. Qed.

(** Every cell of the pass treats [idlecount] as the tally says. *)
Lemma cell_tally (modifier : Z) (i j : nat) w h s :
  idlecount (globals (st (scan_cell modifier i j w h s)))
  = counted_mod (out (scan_cell modifier i j w h s)) (idlecount (globals s)).
Proof.
  unfold counted_mod.
  destruct (w h (pins s) (colPin j)) eqn:Hr.
  - rewrite (scan_cell_idle w h s modifier i j Hr). reflexivity.
  - rewrite (scan_cell_asserted w h s modifier i j Hr). proj.
    cbn [globals].
    change (EDigitalRead (colPin j) LOW :: ?l)
      with ([EDigitalRead (colPin j) LOW] ++ l).
    rewrite idle_tally_app.
    change (idle_tally ?f [EDigitalRead (colPin j) LOW] ?x) with x.
    unfold cell_effect.
    destruct (negb (keyAt i j =? previousKey (globals s))
              || (10000 <=? idlecount (globals s)));
      [| destruct (150 <? wrap_int (count (globals s) + 1))]; cbn [fst snd];
      rewrite ?idle_tally_app, ?idle_tally_modifier_hold; reflexivity.
Qed.

Lemma columns_tally (modifier : Z) (i : nat) (w : world) :
  forall n from h s,
    idlecount (globals (st (for_range n from (scan_cell modifier i) w h s)))
    = counted_mod (out (for_range n from (scan_cell modifier i) w h s))
        (idlecount (globals s)).
Proof.
  induction n as [|n IH]; intros from h s; [reflexivity|].
  rewrite for_range_S. proj.
  unfold counted_mod. rewrite idle_tally_app. fold (counted_mod).
  rewrite IH.
  fold (counted_mod (out (scan_cell modifier i from w h s))
          (idlecount (globals s))).
  rewrite <- cell_tally. reflexivity.
Qed.

Lemma rows_tally (modifier : Z) (w : world) :
  forall n i previousRow h s,
    idlecount (globals (st (scan_rows n i previousRow modifier w h s)))
    = counted_mod (out (scan_rows n i previousRow modifier w h s))
        (idlecount (globals s)).
Proof.
  induction n as [|n IH]; intros i previousRow h s; [reflexivity|].
  rewrite scan_rows_S. cbv zeta. proj.
  unfold counted_mod. rewrite !idle_tally_app, idle_tally_row_drivers.
  fold counted_mod.
  rewrite IH, columns_tally. reflexivity.
Qed.

Lemma stage_scan_tally (w : world) (h : list event) (s : machine) :
  idlecount (globals (st (stage_scan w h s)))
  = counted_mod (out (stage_scan w h s)) (idlecount (globals s)).
Proof.
  destruct (stage_lock_facts w h s) as (_ & _ & _ & Hi & _ & _).
  unfold stage_scan at 1 2. rewrite rows_tally, Hi. reflexivity.
Qed.

(** While it does not wrap, the counter is the plain count. *)
Lemma tally_exact (tr : list event) :
  forall x, 0 <= x ->
    x + Z.of_nat (length (read_pins tr)) < 4294967296 ->
    counted_mod tr x = counted_samples tr x.
Proof.
  unfold counted_mod, counted_samples, idle_tally.
  induction tr as [|e tr IH]; intros x H0 Hb; [reflexivity|].
  cbn [fold_left].
  destruct e as [p m | p v | p v | | k | k | | ms | b | str];
    try (apply IH; [exact H0 | exact Hb]).
  - change (read_pins (EDigitalRead p v :: tr)) with (p :: read_pins tr) in Hb.
    cbn [length] in Hb.
    destruct v.
    + replace (wrap_ulong (x + 1)) with (x + 1)
        by (unfold wrap_ulong; rewrite Z.mod_small; lia).
      apply IH; lia.
    + apply IH; lia.
  - apply IH; [lia|].
    change (read_pins (EDelay ms :: tr)) with (read_pins tr) in Hb. lia.
Qed.

Lemma rows_read_count (modifier : Z) (w : world) :
  forall n i previousRow h s,
    length (read_pins (out (scan_rows n i previousRow modifier w h s)))
    = length (pass_cells i n).
Proof.
  induction n as [|n IH]; intros i previousRow h s; [reflexivity|].
  rewrite scan_rows_S. cbv zeta. proj.
  rewrite !read_pins_app, !length_app, columns_reads, IH.
  change (pass_cells i (S n))
    with (row_cells i 0 (columnsOf i) ++ pass_cells (S i) n).
  rewrite length_app. unfold row_cells. rewrite !length_map.
  reflexivity.
Qed.

Lemma columnsOf_pos (i : nat) : (i < ROWS)%nat -> (0 < columnsOf i)%nat.
Proof.
  intros Hi.
  do 6 (destruct i as [|i]; [vm_compute; lia|]).
  exfalso. revert Hi. unfold ROWS. lia.
Qed.

Lemma pass_read_count (w : world) (h : list event) (s : machine) :
  length (read_pins (out (stage_scan w h s))) = 43%nat.
Proof. unfold stage_scan. rewrite rows_read_count. reflexivity. Qed.

(** The row part: a row whose columns all read high. *)
Lemma idle_row (w : world) (h : list event) (s : machine) (i : nat) :
  (i < ROWS)%nat ->
  let e := cell_entry w h s i 0 in
  let r := row_run w h s i in
  (forall c, (c < columnsOf i)%nat ->
     w ((pass_history w h s ++ out e) ++ high_reads 0 c) (pins (st e))
       (colPin c) = HIGH) ->
  out r = high_reads 0 (columnsOf i)
  /\ sink (out r) = []
  /\ globals (st r) = idle_steps (columnsOf i) (globals (st e))
  /\ idlecount (globals (st r))
     = wrap_ulong (idlecount (globals (st e)) + Z.of_nat (columnsOf i))
  /\ previousKey (globals (st r)) = previousKey (globals (st e))
  /\ count (globals (st r)) = count (globals (st e))
  /\ pins (st r) = pins (st e).
Proof.
  intros Hi e r Hhigh. subst r. unfold row_run. fold e.
  rewrite (idle_columns (val (stage_modifier w h s)) i w (columnsOf i) 0%nat
             (pass_history w h s ++ out e) (st e) Hhigh).
  proj. cbn [globals pins].
  destruct (idle_steps_fields (columnsOf i) (globals (st e)))
    as (Hp & _ & Hc & _).
  split; [reflexivity|]. split; [apply sink_high_reads|].
  split; [reflexivity|]. split.
  - pose proof (columnsOf_pos i Hi) as Hpos.
    destruct (columnsOf i) as [|n]; [lia|]. apply idle_steps_count.
  - split; [exact Hp|]. split; [exact Hc | reflexivity].
Qed.

(** The cell part: what one sample does to the counter. *)
Lemma cell_counts (modifier : Z) (i j : nat) w h s :
  (i < ROWS)%nat -> (j < columnsOf i)%nat ->
  let c := scan_cell modifier i j w h s in
  let idle := idlecount (globals s) in
  let idle' := idlecount (globals (st c)) in
  (w h (pins s) (colPin j) = HIGH ->
   out c = [EDigitalRead (colPin j) HIGH]
   /\ idle' = wrap_ulong (idle + 1)
   /\ (0 <= idle < 4294967295 -> idle' = idle + 1)
   /\ (idle = 4294967295 -> idle' = 0))
  /\ (w h (pins s) (colPin j) = LOW ->
      (exists ms,
         (ms = KBD_DELAY \/ ms = RPT_DELAY)
         /\ timed (out c)
            = modifier_hold modifier
              ++ [EKbdPress (keyAt i j); EDelay ms; EKbdReleaseAll]
         /\ idle' = 0)
      \/ (timed (out c) = [EKbdReleaseAll] /\ idle' = idle)).
Proof.
  intros Hi Hj c idle idle'. subst c idle idle'. split.
  - intros Hr. rewrite (scan_cell_idle w h s modifier i j Hr). proj.
    cbn [globals idlecount set_idlecount].
    split; [reflexivity|]. split; [reflexivity|]. split.
    + intros Hrange. unfold wrap_ulong. apply Z.mod_small. lia.
    + intros ->. reflexivity.
  - intros Hr. rewrite (scan_cell_asserted w h s modifier i j Hr). proj.
    cbn [globals].
    change (EDigitalRead (colPin j) LOW :: ?l)
      with ([EDigitalRead (colPin j) LOW] ++ l).
    rewrite timed_app. change (timed [EDigitalRead (colPin j) LOW]) with (@nil event).
    cbn [app]. unfold cell_effect. rewrite (to_uint8_key i j Hi Hj).
    destruct (negb (keyAt i j =? previousKey (globals s))
              || (10000 <=? idlecount (globals s)));
      [| destruct (150 <? wrap_int (count (globals s) + 1))];
      cbn [fst snd idlecount].
    + left. exists KBD_DELAY. split; [left; reflexivity|].
      split; [|reflexivity].
      rewrite timed_app, timed_modifier_hold. reflexivity.
    + left. exists RPT_DELAY. split; [right; reflexivity|].
      split; [|reflexivity].
      rewrite timed_app, timed_modifier_hold. reflexivity.
    + right. split; reflexivity.
Qed.

(** C8, as the code has it.  [idlecount] is an [unsigned long]: it
    counts modulo 2^32.  In every enabled cycle of [loop], in every
    world:
    - the value of [idlecount] after the cycle is read off the trace of
      the pass: starting from its value before the cycle, it goes up by
      one, modulo 2^32, at every column sample that reads not pressed,
      and is set to 0 at every fresh-press or repeat emission (the
      emissions are where the pass waits); while it stays below 2^32
      this is the plain count of the specification;
    - a scanned row whose columns all read not pressed when they are
      sampled sends nothing to the keyboard and only counts:
      [idlecount] goes up by the number of its columns, modulo 2^32,
      nothing else changes;
    - at every scanned cell, a not-pressed sample sends nothing and
      takes [idlecount] to its successor, which is 0 at 4294967295; a
      pressed sample either makes a fresh-press or repeat emission and
      sets [idlecount] to 0, or sends only releaseAll() and leaves
      [idlecount] as it is. *)
Theorem idle_row_counts (w : world) (h : list event) (s : machine)
    (i : nat) :
  (i < ROWS)%nat ->
  w h (pins s) enablePin = HIGH ->
  let modifier := val (modifierPressed w (h ++ [EDigitalRead enablePin HIGH]) s) in
  let e := cell_entry w h s i 0 in
  let r := row_run w h s i in
  (out (loop w h s)
   = [EDigitalRead enablePin HIGH] ++ out (stage_modifier w h s)
     ++ out (stage_lock w h s) ++ out (stage_scan w h s)
   /\ st (loop w h s) = st (stage_scan w h s)
   /\ idlecount (globals (st (loop w h s)))
      = counted_mod (out (stage_scan w h s)) (idlecount (globals s))
   /\ (0 <= idlecount (globals s) ->
       idlecount (globals s) + 43 < 4294967296 ->
       idle_count_as_worded w h s))
  /\ (out (stage_scan w h s) = out e ++ out r ++ out (row_rest w h s i)
      /\ st (stage_scan w h s) = st (row_rest w h s i)
      /\ ((forall c, (c < columnsOf i)%nat ->
             w ((pass_history w h s ++ out e) ++ high_reads 0 c)
               (pins (st e)) (colPin c) = HIGH) ->
          out r = high_reads 0 (columnsOf i)
          /\ sink (out r) = []
          /\ globals (st r) = idle_steps (columnsOf i) (globals (st e))
          /\ idlecount (globals (st r))
             = wrap_ulong (idlecount (globals (st e))
                           + Z.of_nat (columnsOf i))
          /\ previousKey (globals (st r)) = previousKey (globals (st e))
          /\ count (globals (st r)) = count (globals (st e))
          /\ pins (st r) = pins (st e)))
  /\ (forall j, (j < columnsOf i)%nat ->
        let a := cell_entry w h s i j in
        let c := cell_run w h s i j in
        let idle := idlecount (globals (st a)) in
        let idle' := idlecount (globals (st c)) in
        out (stage_scan w h s) = out a ++ out c ++ out (cell_rest w h s i j)
        /\ (w (pass_history w h s ++ out a) (pins (st a)) (colPin j) = HIGH ->
            out c = [EDigitalRead (colPin j) HIGH]
            /\ idle' = wrap_ulong (idle + 1)
            /\ (0 <= idle < 4294967295 -> idle' = idle + 1)
            /\ (idle = 4294967295 -> idle' = 0))
        /\ (w (pass_history w h s ++ out a) (pins (st a)) (colPin j) = LOW ->
            (exists ms,
               (ms = KBD_DELAY \/ ms = RPT_DELAY)
               /\ timed (out c)
                  = modifier_hold modifier
                    ++ [EKbdPress (keyAt i j); EDelay ms; EKbdReleaseAll]
               /\ idle' = 0)
            \/ (timed (out c) = [EKbdReleaseAll] /\ idle' = idle))).
Proof.
  intros Hi Hen modifier e r.
  split; [| split].
  - rewrite (loop_enabled w h s Hen). proj.
    split; [reflexivity|]. split; [reflexivity|].
    split; [apply stage_scan_tally|].
    intros H0 Hb. unfold idle_count_as_worded.
    rewrite (loop_enabled w h s Hen). proj.
    rewrite stage_scan_tally. apply tally_exact; [exact H0|].
    rewrite pass_read_count. exact Hb.
  - rewrite (stage_scan_at_row w h s i Hi). proj.
    split; [reflexivity|]. split; [reflexivity|].
    exact (idle_row w h s i Hi).
  - intros j Hj a c idle idle'.
    split.
    + rewrite (stage_scan_at_cell w h s i j Hi Hj). proj. reflexivity.
    + exact (cell_counts modifier i j w (pass_history w h s ++ out a) (st a)
               Hi Hj).
Qed.

Lemma idle_row_counts_witness :
  let r := row_run quiet_world [] powered_up 5 in
  idlecount (globals (st (loop quiet_world [] powered_up))) = 43
  /\ out r = [EDigitalRead 6 HIGH; EDigitalRead 5 HIGH; EDigitalRead 2 HIGH]
  /\ sink (out r) = []
  /\ idlecount (globals (st r)) = 43.
Proof.
  destruct (idle_row_counts quiet_world [] powered_up 5
              ltac:(unfold ROWS; lia) eq_refl)
    as ((_ & _ & Ht & _) & (_ & _ & Hrow) & _).
  destruct (Hrow (fun _ _ => eq_refl)) as (Ho & Hs & _ & Hi & _).
  split; [exact Ht|]. split; [exact Ho|]. split; [exact Hs | exact Hi].
Defined.


(** [long_idle] is reached: the globals after [n] idle cycles from
    power-on. *)
Lemma idle_steps_set (n : nat) :
  forall g, idle_steps (S n) g
            = set_idlecount (wrap_ulong (idlecount g + Z.of_nat (S n))) g.
Proof.
  induction n as [|n IH]; intros g; [reflexivity|].
  change (idle_steps (S (S n)) g) with (idle_steps (S n) (idle_step g)).
  rewrite IH. unfold idle_step. cbn [idlecount set_idlecount].
  rewrite wrap_ulong_succ. unfold set_idlecount.
  cbn [previousKey currentKey count alphaLock].
  f_equal. f_equal. lia.
Qed.

Lemma quiet_cycle_globals (h : list event) (s : machine) :
  idle_but (pins s) (ROWS - 1) ->
  alphaLock (globals s) = 0 ->
  globals (st (loop quiet_world h s))
  = set_idlecount (wrap_ulong (idlecount (globals s) + 43)) (globals s).
Proof.
  intros Hidle Hlock.
  destruct (cycle_spec quiet_world (fun _ _ => false) h s
              (fun _ _ _ _ _ _ _ => eq_refl) eq_refl Hidle) as (Hg & _ & _).
  rewrite cells_spec_quiet in Hg by reflexivity. cbn [fst] in Hg.
  change (length (pass_cells 0 ROWS)) with 43%nat in Hg.
  rewrite Hg, (idle_steps_set 42).
  unfold stage_lock. rewrite checkAlphaLock_run. cbv zeta. proj.
  cbn [globals]. unfold lockAsserted. rewrite Hlock.
  reflexivity.
Qed.

Lemma idle_cycles_globals (n : nat) :
  globals (st (run_cycles n quiet_world [] powered_up))
  = set_idlecount (wrap_ulong (43 * Z.of_nat n)) init_vars.
Proof.
  induction n as [|n IH]; [reflexivity|].
  rewrite run_cycles_S. proj. unfold nth_cycle.
  rewrite quiet_cycle_globals.
  - rewrite IH. cbn [idlecount set_idlecount]. unfold set_idlecount.
    cbn [previousKey currentKey count alphaLock].
    f_equal. unfold wrap_ulong.
    rewrite Z.add_mod_idemp_l by lia. f_equal. lia.
  - apply run_cycles_idle; [reflexivity | exact powered_up_idle].
  - rewrite IH. reflexivity.
Qed.

Lemma long_idle_reached (n : nat) :
  Z.of_nat n = 99882960 ->
  globals (st (run_cycles n quiet_world [] powered_up)) = globals long_idle.
Proof.
  intros Hn. rewrite idle_cycles_globals, Hn. reflexivity.
Qed.

(** C8 as worded fails.  After 99882960 idle cycles from power-on the
    globals are those of [long_idle], with [idlecount = 4294967280].  In
    the next idle cycle the sample of row 1, column 7, the sixteenth of
    the pass, takes [idlecount] from 4294967295 to 0: the cycle sends
    nothing and never waits, and [idlecount] is 27 after it, not the
    4294967323 not-pressed samples counted since the last emission. *)
Lemma idle_count_as_worded_fails :
  (forall n, Z.of_nat n = 99882960 ->
     globals (st (run_cycles n quiet_world [] powered_up))
     = globals long_idle)
  /\ idlecount (globals long_idle) = 4294967280
  /\ timed (out (loop quiet_world [] long_idle)) = []
  /\ idlecount (globals (st (cell_entry quiet_world [] long_idle 1 7)))
     = 4294967295
  /\ idlecount (globals (st (cell_run quiet_world [] long_idle 1 7))) = 0
  /\ idlecount (globals (st (loop quiet_world [] long_idle))) = 27
  /\ ~ idle_count_as_worded quiet_world [] long_idle.
Proof.
  split; [exact long_idle_reached|].
  split; [reflexivity|]. split; [vm_compute; reflexivity|].
  split; [vm_compute; reflexivity|]. split; [vm_compute; reflexivity|].
  split; [vm_compute; reflexivity|].
  unfold idle_count_as_worded. vm_compute. discriminate.
Qed.
